(** * CiteCheck: citation extraction, validation, verification and reporting

    A shallow embedding of [src/lib/types.ts], [src/lib/extractor.ts],
    [src/lib/verifier.ts], [src/lib/report.ts] and the exit status of
    [src/cli.ts].

    Conventions of the embedding.
    - A JavaScript string is a [string]: one [ascii] per UTF-16 code unit,
      so the model covers texts whose code units are below 256.  The
      classes [\s], [\w], [\d], [trim], [toLowerCase] and the
      case-insensitive canonicalisation are the ECMAScript ones restricted
      to that range.
    - [undefined] is [None]; an optional field is an [option].
    - Regular expressions are abstract syntax trees run by a backtracking
      matcher that follows the ECMAScript matcher (continuations,
      RepeatMatcher with its empty-iteration check, leftmost alternative
      first).
    - The network is an oracle threaded through a request log.  The
      verifier is embedded twice: in [Verifier] on replies of the declared
      interface, where [verifyCitation] always returns, and in [Unchecked]
      on replies whose body may lack an iterable [results], where it may
      throw. *)

From Stdlib Require Import List String Ascii NArith ZArith Arith Bool Lia.
From Stdlib Require Import Permutation Sorted.
Import ListNotations.
Local Open Scope string_scope.
Local Open Scope nat_scope.

Set Implicit Arguments.

(* ===================================================================== *)
(** ** JavaScript characters and strings *)
(* ===================================================================== *)

Module Js.

Definition code (a : ascii) : N := N_of_ascii a.

Definition between (lo hi : N) (a : ascii) : bool :=
  (N.leb lo (code a) && N.leb (code a) hi)%bool.

Definition is_digit : ascii -> bool := between 48 57.
Definition is_upper : ascii -> bool := between 65 90.
Definition is_lower : ascii -> bool := between 97 122.

(** [\w] without the [u] flag: [A-Za-z0-9_]. *)
Definition is_word (a : ascii) : bool :=
  (is_upper a || is_lower a || is_digit a || N.eqb (code a) 95)%bool.

(** WhiteSpace and LineTerminator code units below 256: TAB, LF, VT, FF,
    CR, SP, NBSP.  This is [\s], and what [trim] and [parseInt] strip. *)
Definition is_space (a : ascii) : bool :=
  (between 9 13 a || N.eqb (code a) 32 || N.eqb (code a) 160)%bool.

Definition is_line_terminator (a : ascii) : bool :=
  (N.eqb (code a) 10 || N.eqb (code a) 13)%bool.

Definition shift (d : N) (a : ascii) : ascii := ascii_of_N (code a + d).
Definition unshift (d : N) (a : ascii) : ascii := ascii_of_N (code a - d).

(** Canonicalize of a case-insensitive pattern without the [u] flag: the
    upper-case mapping, which never sends a code unit above 127 to one
    below 128.  The patterns of this program are ASCII, so only the ASCII
    part is observable. *)
Definition canon (a : ascii) : ascii :=
  if is_lower a then unshift 32 a else a.

Definition lower_ascii (a : ascii) : ascii :=
  if is_upper a then shift 32 a else a.

(** [String.prototype.toLowerCase] on one code unit below 256. *)
Definition to_lower_char (a : ascii) : ascii :=
  if is_upper a then shift 32 a
  else if (between 192 222 a && negb (N.eqb (code a) 215))%bool then shift 32 a
  else a.

Definition chars : string -> list ascii := list_ascii_of_string.
Definition str : list ascii -> string := string_of_list_ascii.

Definition toLowerCase (s : string) : string :=
  str (map to_lower_char (chars s)).

Fixpoint drop_spaces (l : list ascii) : list ascii :=
  match l with
  | a :: l' => if is_space a then drop_spaces l' else l
  | [] => []
  end.

Definition trim_chars (l : list ascii) : list ascii :=
  rev (drop_spaces (rev (drop_spaces l))).

Definition trim (s : string) : string := str (trim_chars (chars s)).

(** A string that starts, or ends, with a character that is not white
    space. *)
Definition starts_solid (s : list ascii) : Prop :=
  exists a l, s = a :: l /\ is_space a = false.
Definition ends_solid (s : list ascii) : Prop :=
  exists l a, s = (l ++ [a])%list /\ is_space a = false.

(** A string without white space at either end. *)
Definition trimmed (s : string) : Prop :=
  chars s = [] \/ (starts_solid (chars s) /\ ends_solid (chars s)).

Fixpoint starts_with (p l : list ascii) : bool :=
  match p, l with
  | [], _ => true
  | a :: p', b :: l' => (Ascii.eqb a b && starts_with p' l')%bool
  | _ :: _, [] => false
  end.

Fixpoint includes_chars (l p : list ascii) : bool :=
  (starts_with p l ||
   match l with
   | [] => false
   | _ :: l' => includes_chars l' p
   end)%bool.

(** [s.includes(t)] *)
Definition includes (s t : string) : bool := includes_chars (chars s) (chars t).

(** [s.substring(a, b)] for [0 <= a <= b]. *)
Definition substring (a b : nat) (s : string) : string :=
  str (firstn (b - a) (skipn a (chars s))).

(** [l.join(sep)] *)
Fixpoint join (sep : string) (l : list string) : string :=
  match l with
  | [] => ""
  | [s] => s
  | s :: l' => s ++ sep ++ join sep l'
  end.

(** A template literal prints an absent value as [undefined]. *)
Definition show (o : option string) : string :=
  match o with Some s => s | None => "undefined" end.

(** [o || d] for an optional string: the empty string is falsy. *)
Definition or_else (o : option string) (d : string) : string :=
  match o with
  | Some s => if String.eqb s "" then d else s
  | None => d
  end.

(** [arr.push(x)] *)
Definition push (A : Type) (l : list A) (x : A) : list A := (l ++ [x])%list.

(** The one-character string holding a double quote. *)
Definition dquote : string := String (ascii_of_nat 34) EmptyString.

(** Truthiness of an optional string. *)
Definition truthy (o : option string) : bool :=
  match o with
  | Some s => negb (String.eqb s "")
  | None => false
  end.

(** *** parseInt *)

Definition digit_value (radix : N) (a : ascii) : option N :=
  let v := if is_digit a then Some (code a - 48)%N
           else if is_lower a then Some (code a - 87)%N
           else if is_upper a then Some (code a - 55)%N
           else None in
  match v with
  | Some d => if N.ltb d radix then Some d else None
  | None => None
  end.

(** The longest prefix of digits of the radix, read as a number; [None]
    when that prefix is empty. *)
Fixpoint read_digits (radix : N) (acc : option N) (l : list ascii) : option N :=
  match l with
  | a :: l' =>
      match digit_value radix a with
      | Some d =>
          read_digits radix
            (Some (match acc with Some n => n * radix + d | None => d end)%N) l'
      | None => acc
      end
  | [] => acc
  end.

Definition strip_hex_prefix (l : list ascii) : option (list ascii) :=
  match l with
  | "0"%char :: "x"%char :: l' => Some l'
  | "0"%char :: "X"%char :: l' => Some l'
  | _ => None
  end.

(** [parseInt(s)] with no radix argument.  [None] is NaN. *)
Definition parseInt (s : string) : option Z :=
  let l := drop_spaces (chars s) in
  let '(neg, l) :=
    match l with
    | "-"%char :: l' => (true, l')
    | "+"%char :: l' => (false, l')
    | _ => (false, l)
    end in
  let mag :=
    match strip_hex_prefix l with
    | Some l' => read_digits 16 None l'
    | None => read_digits 10 None l
    end in
  match mag with
  | Some n => Some (if neg then (- Z.of_N n)%Z else Z.of_N n)
  | None => None
  end.

(** A string of between [lo] and [hi] decimal digits. *)
Definition digits (lo hi : nat) (t : string) : Prop :=
  Forall (fun a => is_digit a = true) (chars t)
  /\ lo <= String.length t <= hi.

(** Comparisons with a possibly-NaN number: false on NaN. *)
Definition num_lt (x : option Z) (k : Z) : bool :=
  match x with Some v => (v <? k)%Z | None => false end.
Definition num_gt (x : option Z) (k : Z) : bool :=
  match x with Some v => (v >? k)%Z | None => false end.

(** [arr.sort(cmp)] for a comparator [(a, b) => key(a) - key(b)]: a stable
    sort, here by insertion. *)
Section Sort.
Variable A : Type.
Variable before : A -> A -> bool.  (* [cmp(a, b) < 0] *)

Fixpoint insert_sorted (x : A) (l : list A) : list A :=
  match l with
  | [] => [x]
  | y :: l' => if before x y then x :: l else y :: insert_sorted x l'
  end.

Definition sort_stable (l : list A) : list A :=
  fold_left (fun acc x => insert_sorted x acc) l [].
End Sort.

End Js.

(* ===================================================================== *)
(** ** Regular expressions: the ECMAScript backtracking matcher *)
(* ===================================================================== *)

Module Regex.

Inductive regex : Type :=
| Empty
| Char (p : ascii -> bool)               (* a literal or a class *)
| Seq (r1 r2 : regex)
| Alt (r1 r2 : regex)                    (* [r1|r2] *)
| Repeat (r : regex) (min : nat) (max : option nat) (greedy : bool)
| Group (i : nat) (r : regex)            (* capturing parentheses, 1-based *)
| NotBehind (p : ascii -> bool)          (* [(?<!c)] for a one-character [c] *)
| Bol                                    (* [^] *)
| Eol.                                   (* [$] *)

(** The matcher state: the input split at the current end index (the
    part before it reversed) and the captures. *)
Record MatchState : Type := mkState {
  before : list ascii;
  after : list ascii;
  endIndex : nat;
  captures : list (option string)
}.

Definition Cont : Type := MatchState -> option MatchState.

Fixpoint set_nth (A : Type) (i : nat) (v : A) (l : list A) : list A :=
  match l, i with
  | [], _ => []
  | _ :: l', 0 => v :: l'
  | a :: l', S i' => a :: set_nth i' v l'
  end.

Definition set_capture (i : nat) (v : option string)
    (caps : list (option string)) : list (option string) :=
  match i with
  | 0 => caps
  | S i' => set_nth i' v caps
  end.

Definition clear_captures (parens : list nat)
    (caps : list (option string)) : list (option string) :=
  fold_left (fun cs i => set_capture i None cs) parens caps.

(** The capturing groups inside a pattern. *)
Fixpoint parens_of (r : regex) : list nat :=
  match r with
  | Seq r1 r2 | Alt r1 r2 => (parens_of r1 ++ parens_of r2)%list
  | Repeat r' _ _ _ => parens_of r'
  | Group i r' => i :: parens_of r'
  | _ => []
  end.

Definition max_is_zero (mx : option nat) : bool :=
  match mx with Some 0 => true | _ => false end.

(** RepeatMatcher(m, min, max, greedy, x, c).  Every iteration past the
    minimum must advance the end index, so [min + |rest of input| + 1]
    iterations are never exhausted; [fuel] is that bound. *)
Fixpoint repeatMatcher (fuel : nat) (m : MatchState -> Cont -> option MatchState)
    (parens : list nat) (mn : nat) (mx : option nat) (greedy : bool)
    (x : MatchState) (c : Cont) : option MatchState :=
  if max_is_zero mx then c x else
  match fuel with
  | 0 => None
  | S fuel' =>
      let d : Cont := fun y =>
        if (Nat.eqb mn 0 && Nat.eqb (endIndex y) (endIndex x))%bool then None
        else repeatMatcher fuel' m parens (Nat.pred mn) (option_map Nat.pred mx)
               greedy y c in
      let xr := mkState (before x) (after x) (endIndex x)
                  (clear_captures parens (captures x)) in
      if negb (Nat.eqb mn 0) then m xr d
      else if greedy then
        match m xr d with
        | Some z => Some z
        | None => c x
        end
      else
        match c x with
        | Some z => Some z
        | None => m xr d
        end
  end.

(** The matcher of a pattern, in continuation-passing style. *)
Fixpoint matcher (r : regex) (x : MatchState) (c : Cont) {struct r}
    : option MatchState :=
  match r with
  | Empty => c x
  | Char p =>
      match after x with
      | a :: rest =>
          if p a
          then c (mkState (a :: before x) rest (S (endIndex x)) (captures x))
          else None
      | [] => None
      end
  | Seq r1 r2 => matcher r1 x (fun y => matcher r2 y c)
  | Alt r1 r2 =>
      match matcher r1 x c with
      | Some z => Some z
      | None => matcher r2 x c
      end
  | Repeat r' mn mx greedy =>
      repeatMatcher (mn + List.length (after x) + 1) (matcher r')
        (parens_of r') mn mx greedy x c
  | Group i r' =>
      matcher r' x (fun y =>
        let s := Js.str (firstn (endIndex y - endIndex x) (after x)) in
        c (mkState (before y) (after y) (endIndex y)
             (set_capture i (Some s) (captures y))))
  | NotBehind p =>
      match before x with
      | a :: _ => if p a then None else c x
      | [] => c x
      end
  | Bol => match before x with [] => c x | _ :: _ => None end
  | Eol => match after x with [] => c x | _ :: _ => None end
  end.

(** A lower bound on the number of characters a pattern consumes. *)
Fixpoint min_len (r : regex) : nat :=
  match r with
  | Char _ => 1
  | Seq r1 r2 => min_len r1 + min_len r2
  | Alt r1 r2 => Nat.min (min_len r1) (min_len r2)
  | Repeat r' mn mx _ =>
      match mx with
      | Some m => if m <? mn then 0 else mn * min_len r'
      | None => mn * min_len r'
      end
  | Group _ r' => min_len r'
  | Empty | NotBehind _ | Bol | Eol => 0
  end.

(** A state [y] further in the same input than [x]. *)
Definition reachable (x y : MatchState) : Prop :=
  endIndex y + List.length (after y) = endIndex x + List.length (after x)
  /\ endIndex x <= endIndex y.

(** A matcher [m] hands its continuation a state at least [k] characters
    further, over the same input. *)
Definition progresses (m : MatchState -> Cont -> option MatchState) (k : nat)
    : Prop :=
  forall x c z, m x c = Some z ->
    exists y, c y = Some z
              /\ endIndex x + k <= endIndex y
              /\ endIndex y + List.length (after y)
                 = endIndex x + List.length (after x).

(** A matcher [m] uses its continuation only on states further in the
    same input. *)
Definition respects (m : MatchState -> Cont -> option MatchState) : Prop :=
  forall x c c',
    (forall y, reachable x y -> c y = c' y) -> m x c = m x c'.

(** The strings a pattern can consume, the assertions left aside: a
    repetition consumes a concatenation of strings of its body, at most
    [max] of them and, when [min <= max], at least [min]. *)
Fixpoint lang (r : regex) (s : list ascii) : Prop :=
  match r with
  | Empty | NotBehind _ | Bol | Eol => s = []
  | Char p => exists a, s = [a] /\ p a = true
  | Seq r1 r2 => exists s1 s2, s = (s1 ++ s2)%list /\ lang r1 s1 /\ lang r2 s2
  | Alt r1 r2 => lang r1 s \/ lang r2 s
  | Repeat r' mn mx _ =>
      exists ss, s = List.concat ss /\ Forall (lang r') ss
                 /\ ((forall hi, mx = Some hi -> mn <= hi) -> mn <= List.length ss)
                 /\ (forall hi, mx = Some hi -> List.length ss <= hi)
  | Group _ r' => lang r' s
  end.

(** The language of a repetition of [L]. *)
Definition rep_lang (L : list ascii -> Prop) (mn : nat) (mx : option nat)
    (s : list ascii) : Prop :=
  exists ss, s = List.concat ss /\ Forall L ss
             /\ ((forall hi, mx = Some hi -> mn <= hi) -> mn <= List.length ss)
             /\ (forall hi, mx = Some hi -> List.length ss <= hi).

(** The bodies of the capturing groups numbered [i] in a pattern. *)
Fixpoint group_bodies (r : regex) (i : nat) : list regex :=
  match r with
  | Seq r1 r2 | Alt r1 r2 => (group_bodies r1 i ++ group_bodies r2 i)%list
  | Repeat r' _ _ _ => group_bodies r' i
  | Group j r' => ((if Nat.eqb j i then [r'] else []) ++ group_bodies r' i)%list
  | _ => []
  end.

(** The pattern has no capturing group numbered [i]. *)
Definition group_free (r : regex) (i : nat) : bool :=
  negb (existsb (Nat.eqb i) (parens_of r)).

(** A sufficient condition for a match of the pattern to leave group [i]
    defined: the group lies on every path through the pattern, outside
    any repetition, and no group of that number comes after it. *)
Fixpoint defines (r : regex) (i : nat) : bool :=
  match r with
  | Seq r1 r2 => (defines r2 i || (defines r1 i && group_free r2 i))%bool
  | Alt r1 r2 => (defines r1 i && defines r2 i)%bool
  | Group j r' => (Nat.eqb j i || defines r' i)%bool
  | _ => false
  end.

(** A matcher [m] of the pattern [r] hands its continuation as many
    captures as it was given, those of the groups outside [r] unchanged
    and those of the groups [r] defines present. *)
Definition settles (r : regex) (m : MatchState -> Cont -> option MatchState)
    : Prop :=
  forall x c z,
    m x c = Some z ->
    exists y, c y = Some z
      /\ List.length (captures y) = List.length (captures x)
      /\ (forall i, group_free r (S i) = true ->
                    nth i (captures y) None = nth i (captures x) None)
      /\ (forall i, defines r (S i) = true -> i < List.length (captures x) ->
                    nth i (captures y) None <> None).

(** The captures at positions [i] and [j] are both present or both
    absent. *)
Definition paired (i j : nat) (caps : list (option string)) : Prop :=
  nth i caps None = None <-> nth j caps None = None.

(** A sufficient condition for groups [i] and [j] to come out of a match
    of the pattern both present or both absent, when they went in so: each
    part of the pattern leaves both alone, defines both, or is made of
    parts that do; a repetition holds both or neither. *)
Fixpoint pairs (r : regex) (i j : nat) : bool :=
  ((group_free r i && group_free r j) || (defines r i && defines r j)
   || match r with
      | Seq r1 r2 | Alt r1 r2 => pairs r1 i j && pairs r2 i j
      | Repeat r' _ _ _ =>
          Bool.eqb (group_free r' i) (group_free r' j) && pairs r' i j
      | Group g r' => negb (Nat.eqb g i) && negb (Nat.eqb g j) && pairs r' i j
      | _ => false
      end)%bool.

(** The state [y] is the state [x] after the characters [s]. *)
Definition steps (x : MatchState) (s : list ascii) (y : MatchState) : Prop :=
  after x = (s ++ after y)%list
  /\ before y = (rev s ++ before x)%list
  /\ endIndex y = endIndex x + List.length s.

(** Every capture present satisfies the property [G] of its group. *)
Definition caps_ok (G : nat -> string -> Prop) (caps : list (option string))
    : Prop :=
  forall i t, nth i caps None = Some t -> G (S i) t.

(** A matcher [m] is sound for the language [L] and the group properties
    [G]: it hands its continuation a state reached by a string of [L],
    with captures that satisfy [G]. *)
Definition sound (G : nat -> string -> Prop) (L : list ascii -> Prop)
    (m : MatchState -> Cont -> option MatchState) : Prop :=
  forall x c z,
    m x c = Some z -> caps_ok G (captures x) ->
    exists y s, c y = Some z /\ steps x s y /\ L s /\ caps_ok G (captures y).

(** A compiled pattern: its tree and its number of capturing groups. *)
Record RegExp : Type := mkRegExp { tree : regex; ngroups : nat }.

(** The result of [exec]: [match.index], [match[0]], [match[1..]], and
    the matcher state at the end of the match (where a global pattern's
    [lastIndex] now points). *)
Record MatchResult : Type := mkMatch {
  index : nat;
  matched : string;
  groups : list (option string);
  final : MatchState
}.

Definition group (m : MatchResult) (i : nat) : option string :=
  match i with
  | 0 => Some (matched m)
  | S i' => nth i' (groups m) None
  end.

Definition lastIndex (m : MatchResult) : nat := endIndex (final m).

(** The input positioned at an index. *)
Record Cursor : Type := mkCursor {
  seen : list ascii;       (* the input before the index, reversed *)
  rest : list ascii;       (* the input from the index on *)
  at_index : nat
}.

Definition start_of (s : string) : Cursor := mkCursor [] (Js.chars s) 0.
Definition cursor_of (x : MatchState) : Cursor :=
  mkCursor (before x) (after x) (endIndex x).

Definition match_at (re : RegExp) (cur : Cursor) : option MatchResult :=
  let x := mkState (seen cur) (rest cur) (at_index cur)
             (repeat None (ngroups re)) in
  match matcher (tree re) x Some with
  | Some y =>
      Some (mkMatch (at_index cur)
              (Js.str (firstn (endIndex y - at_index cur) (rest cur)))
              (captures y) y)
  | None => None
  end.

(** RegExpBuiltinExec from [lastIndex]: try each index up to the length
    of the input. *)
Fixpoint exec_scan (re : RegExp) (sn rs : list ascii) (i : nat)
    : option MatchResult :=
  match match_at re (mkCursor sn rs i) with
  | Some m => Some m
  | None =>
      match rs with
      | [] => None
      | a :: rs' => exec_scan re (a :: sn) rs' (S i)
      end
  end.

Definition exec (re : RegExp) (cur : Cursor) : option MatchResult :=
  exec_scan re (seen cur) (rest cur) (at_index cur).

(** [while ((match = re.exec(text)) !== null) body] for a global pattern:
    [lastIndex] moves to the end of each match.  A pattern that cannot
    match the empty string advances every time, so [|text| + 1] rounds
    are enough. *)
Fixpoint while_exec (S : Type) (fuel : nat) (re : RegExp)
    (body : S -> MatchResult -> S) (st : S) (cur : Cursor) : S :=
  match fuel with
  | 0 => st
  | Datatypes.S fuel' =>
      match exec re cur with
      | None => st
      | Some m => while_exec fuel' re body (body st m) (cursor_of (final m))
      end
  end.

(** The successive results of [re.exec(text)] for a global pattern. *)
Fixpoint exec_all (fuel : nat) (re : RegExp) (cur : Cursor) : list MatchResult :=
  match fuel with
  | 0 => []
  | Datatypes.S fuel' =>
      match exec re cur with
      | None => []
      | Some m => m :: exec_all fuel' re (cursor_of (final m))
      end
  end.

(** Successive matches from index [lo] on: each starts at or after the
    end of the one before it, spans at least [k] characters, and its text
    is no longer than its span. *)
Fixpoint chain (k lo : nat) (ms : list MatchResult) : Prop :=
  match ms with
  | [] => True
  | m :: ms' =>
      lo <= index m /\ index m + k <= lastIndex m
      /\ String.length (matched m) <= lastIndex m - index m
      /\ chain k (lastIndex m) ms'
  end.

(** The property a capture of group [i] of a pattern has: it is a string
    of the language of a body of that group. *)
Definition group_property (re : RegExp) (i : nat) (t : string) : Prop :=
  exists r' s, In r' (group_bodies (tree re) i) /\ lang r' s /\ t = Js.str s.

(** The cursor is a position in the text. *)
Definition at_text (text : string) (cur : Cursor) : Prop :=
  (rev (seen cur) ++ rest cur)%list = Js.chars text
  /\ at_index cur = List.length (seen cur).

(** [m] is a match of the pattern in the text: its string belongs to the
    language of the pattern and stands in the text from [index] to
    [lastIndex], and its captures belong to their groups. *)
Definition match_of (re : RegExp) (text : string) (m : MatchResult) : Prop :=
  exists s,
    matched m = Js.str s /\ lang (tree re) s
    /\ caps_ok (group_property re) (groups m)
    /\ lastIndex m = index m + List.length s
    /\ skipn (index m) (Js.chars text)
       = (s ++ skipn (lastIndex m) (Js.chars text))%list.

(** [s.match(re)] for a pattern without the [g] flag. *)
Definition match_first (re : RegExp) (s : string) : option MatchResult :=
  exec re (start_of s).

(** AdvanceStringIndex by one code unit, copying the skipped unit. *)
Definition advance (cur : Cursor) : option (ascii * Cursor) :=
  match rest cur with
  | a :: rs => Some (a, mkCursor (a :: seen cur) rs (Datatypes.S (at_index cur)))
  | [] => None
  end.

(** [s.replace(re, by)] for a global pattern and a replacement without
    [$]: every match is replaced; after an empty match the index advances
    by one. *)
Fixpoint replace_loop (fuel : nat) (re : RegExp) (by_ : list ascii)
    (cur : Cursor) : list ascii :=
  match fuel with
  | 0 => rest cur
  | Datatypes.S fuel' =>
      match exec re cur with
      | None => rest cur
      | Some m =>
          let skipped := firstn (index m - at_index cur) (rest cur) in
          let nxt := cursor_of (final m) in
          if Nat.eqb (lastIndex m) (index m) then
            match advance nxt with
            | Some (a, nxt') =>
                skipped ++ by_ ++ a :: replace_loop fuel' re by_ nxt'
            | None => skipped ++ by_
            end
          else skipped ++ by_ ++ replace_loop fuel' re by_ nxt
      end
  end.

Definition replace_all (re : RegExp) (by_ : string) (s : string) : string :=
  Js.str (replace_loop (Datatypes.S (String.length s)) re (Js.chars by_)
            (start_of s)).

(** [s.replace(re, by)] for a pattern without the [g] flag. *)
Definition replace_first (re : RegExp) (by_ : string) (s : string) : string :=
  match exec re (start_of s) with
  | None => s
  | Some m =>
      Js.str (firstn (index m) (Js.chars s) ++ Js.chars by_ ++ after (final m))
  end.

(** [s.split(re)] for a pattern without capturing groups. *)
Fixpoint split_loop (fuel : nat) (re : RegExp) (piece : list ascii)
    (p : nat) (cur : Cursor) : list string :=
  match fuel with
  | 0 => [Js.str (rev piece ++ rest cur)]
  | Datatypes.S fuel' =>
      match rest cur with
      | [] => [Js.str (rev piece)]
      | a :: rs =>
          let skip :=
            split_loop fuel' re (a :: piece) p
              (mkCursor (a :: seen cur) rs (Datatypes.S (at_index cur))) in
          match match_at re cur with
          | None => skip
          | Some m =>
              if Nat.eqb (lastIndex m) p then skip
              else Js.str (rev piece)
                   :: split_loop fuel' re [] (lastIndex m) (cursor_of (final m))
          end
      end
  end.

Definition split (re : RegExp) (s : string) : list string :=
  match Js.chars s with
  | [] =>
      match match_at re (start_of s) with
      | Some _ => []
      | None => [s]
      end
  | _ :: _ => split_loop (Datatypes.S (2 * String.length s)) re [] 0 (start_of s)
  end.

(** *** Building patterns *)

(** A literal character; [ci] is the [i] flag. *)
Definition lit (ci : bool) (a : ascii) : regex :=
  Char (fun b => if ci then Ascii.eqb (Js.canon a) (Js.canon b)
                 else Ascii.eqb a b).

(** A class; with the [i] flag a character belongs to it when some member
    has the same canonical form. *)
Definition cls (ci : bool) (p : ascii -> bool) : regex :=
  Char (fun b => if ci then (p (Js.canon b) || p (Js.lower_ascii b) || p b)%bool
                 else p b).

(** A negated class [[^...]]. *)
Definition ncls (ci : bool) (p : ascii -> bool) : regex :=
  Char (fun b => negb (if ci then (p (Js.canon b) || p (Js.lower_ascii b) || p b)%bool
                       else p b)).

Fixpoint seqs (l : list regex) : regex :=
  match l with
  | [] => Empty
  | [r] => r
  | r :: l' => Seq r (seqs l')
  end.

Fixpoint alts (l : list regex) : regex :=
  match l with
  | [] => Char (fun _ => false)
  | [r] => r
  | r :: l' => Alt r (alts l')
  end.

Definition word (ci : bool) (s : string) : regex :=
  seqs (map (lit ci) (Js.chars s)).

Definition star (r : regex) : regex := Repeat r 0 None true.       (* [r*] *)
Definition plus (r : regex) : regex := Repeat r 1 None true.       (* [r+] *)
Definition opt (r : regex) : regex := Repeat r 0 (Some 1) true.    (* [r?] *)
Definition lazy_star (r : regex) : regex := Repeat r 0 None false. (* [r*?] *)
Definition lazy_plus (r : regex) : regex := Repeat r 1 None false. (* [r+?] *)
Definition times (lo hi : nat) (r : regex) : regex :=              (* [r{lo,hi}] *)
  Repeat r lo (Some hi) true.

Definition eqc (a : ascii) : ascii -> bool := Ascii.eqb a.
Definition any_of (l : list (ascii -> bool)) (a : ascii) : bool :=
  existsb (fun p => p a) l.

End Regex.

(* ===================================================================== *)
(** ** types.ts: the data model and the Reporter Table *)
(* ===================================================================== *)

Module Types.

Record Citation : Type := mkCitation {
  raw : string;
  caseName : option string;
  volume : option string;
  reporter : string;
  page : option string;
  year : option string;
  court : option string;
  startIndex : nat;
  endIndex : nat
}.

Inductive Status : Type :=
| verified | not_found | partial_match | format_error | api_error.

Definition status_eqb (a b : Status) : bool :=
  match a, b with
  | verified, verified | not_found, not_found
  | partial_match, partial_match | format_error, format_error
  | api_error, api_error => true
  | _, _ => false
  end.

Record MatchedCase : Type := mkMatchedCase {
  mc_caseName : string;
  mc_citation : string;
  mc_dateFiled : string;
  mc_court : string;
  mc_docketNumber : string
}.

Record VerificationResult : Type := mkResult {
  citation : Citation;
  status : Status;
  confidence : Z;
  details : string;
  courtListenerUrl : option string;
  matchedCase : option MatchedCase;
  warnings : list string
}.

Record VerificationReport : Type := mkReport {
  documentName : string;
  totalCitations : nat;
  r_verified : nat;
  r_notFound : nat;
  r_partialMatches : nat;
  r_formatErrors : nat;
  r_apiErrors : nat;
  results : list VerificationResult;
  processedAt : string
}.

(** An object literal used as a table: its own keys in insertion order. *)
Definition Table : Type := list (string * string).

Definition FEDERAL_REPORTERS : Table :=
  [ ("U.S.", "United States Reports");
    ("S. Ct.", "Supreme Court Reporter");
    ("L. Ed.", "Lawyers Edition");
    ("L. Ed. 2d", "Lawyers Edition Second Series");
    ("F.", "Federal Reporter");
    ("F.2d", "Federal Reporter Second Series");
    ("F.3d", "Federal Reporter Third Series");
    ("F.4th", "Federal Reporter Fourth Series");
    ("F. Supp.", "Federal Supplement");
    ("F. Supp. 2d", "Federal Supplement Second Series");
    ("F. Supp. 3d", "Federal Supplement Third Series");
    ("F.R.D.", "Federal Rules Decisions");
    ("B.R.", "Bankruptcy Reporter");
    ("Fed. Cl.", "Federal Claims Reporter");
    ("Vet. App.", "Veterans Appeals Reporter") ].

Definition STATE_REPORTERS : Table :=
  [ ("N.Y.", "New York Reports");
    ("N.Y.2d", "New York Reports Second Series");
    ("N.Y.3d", "New York Reports Third Series");
    ("A.D.", "Appellate Division Reports");
    ("A.D.2d", "Appellate Division Reports Second Series");
    ("A.D.3d", "Appellate Division Reports Third Series");
    ("Cal.", "California Reports");
    ("Cal. 2d", "California Reports Second Series");
    ("Cal. 3d", "California Reports Third Series");
    ("Cal. 4th", "California Reports Fourth Series");
    ("Cal. 5th", "California Reports Fifth Series");
    ("Cal. App.", "California Appellate Reports");
    ("Cal. App. 2d", "California Appellate Reports Second Series");
    ("Cal. App. 3d", "California Appellate Reports Third Series");
    ("Cal. App. 4th", "California Appellate Reports Fourth Series");
    ("Cal. App. 5th", "California Appellate Reports Fifth Series");
    ("Ill.", "Illinois Reports");
    ("Ill. 2d", "Illinois Reports Second Series");
    ("Ill. App.", "Illinois Appellate Court Reports");
    ("Ill. App. 2d", "Illinois Appellate Court Reports Second Series");
    ("Ill. App. 3d", "Illinois Appellate Court Reports Third Series");
    ("Tex.", "Texas Reports");
    ("Pa.", "Pennsylvania State Reports");
    ("Ohio St.", "Ohio State Reports");
    ("Ohio St. 2d", "Ohio State Reports Second Series");
    ("Ohio St. 3d", "Ohio State Reports Third Series");
    ("Mass.", "Massachusetts Reports");
    ("N.J.", "New Jersey Reports");
    ("Mich.", "Michigan Reports");
    ("Minn.", "Minnesota Reports");
    ("Wis.", "Wisconsin Reports");
    ("Wis. 2d", "Wisconsin Reports Second Series") ].

Definition REGIONAL_REPORTERS : Table :=
  [ ("A.", "Atlantic Reporter");
    ("A.2d", "Atlantic Reporter Second Series");
    ("A.3d", "Atlantic Reporter Third Series");
    ("N.E.", "North Eastern Reporter");
    ("N.E.2d", "North Eastern Reporter Second Series");
    ("N.E.3d", "North Eastern Reporter Third Series");
    ("N.W.", "North Western Reporter");
    ("N.W.2d", "North Western Reporter Second Series");
    ("P.", "Pacific Reporter");
    ("P.2d", "Pacific Reporter Second Series");
    ("P.3d", "Pacific Reporter Third Series");
    ("S.E.", "South Eastern Reporter");
    ("S.E.2d", "South Eastern Reporter Second Series");
    ("S.W.", "South Western Reporter");
    ("S.W.2d", "South Western Reporter Second Series");
    ("S.W.3d", "South Western Reporter Third Series");
    ("So.", "Southern Reporter");
    ("So. 2d", "Southern Reporter Second Series");
    ("So. 3d", "Southern Reporter Third Series") ].

(** The spread of the three tables; no key occurs twice, so the keys keep
    this order. *)
Definition ALL_REPORTERS : Table :=
  (FEDERAL_REPORTERS ++ STATE_REPORTERS ++ REGIONAL_REPORTERS)%list.

(** [Object.keys(t)] *)
Definition keys (t : Table) : list string := map fst t.

Definition own (t : Table) (k : string) : option string :=
  match find (fun kv => String.eqb (fst kv) k) t with
  | Some kv => Some (snd kv)
  | None => None
  end.

Definition is_key (t : Table) (k : string) : bool :=
  existsb (String.eqb k) (keys t).

Fixpoint distinct (l : list string) : bool :=
  match l with
  | [] => true
  | k :: l' => (negb (existsb (String.eqb k) l') && distinct l')%bool
  end.

(** The properties every object literal inherits from [Object.prototype];
    each holds a function or an object, hence a truthy value. *)
Definition OBJECT_PROTOTYPE : list string :=
  [ "constructor"; "hasOwnProperty"; "isPrototypeOf"; "propertyIsEnumerable";
    "toLocaleString"; "toString"; "valueOf"; "__proto__";
    "__defineGetter__"; "__defineSetter__";
    "__lookupGetter__"; "__lookupSetter__" ].

(** Truthiness of [t[k]]: an own property with a non-empty string, or an
    inherited property. *)
Definition truthy_at (t : Table) (k : string) : bool :=
  match own t k with
  | Some v => negb (String.eqb v "")
  | None => existsb (String.eqb k) OBJECT_PROTOTYPE
  end.

End Types.

(* ===================================================================== *)
(** ** extractor.ts *)
(* ===================================================================== *)

Module Extractor.
Import Regex Types.

Definition space : ascii -> bool := Js.is_space.
Definition digit : ascii -> bool := Js.is_digit.

(** [[A-Z]] *)
Definition capital : ascii -> bool := Js.is_upper.
(** [[\w.'\-]] *)
Definition name_char : ascii -> bool :=
  any_of [Js.is_word; eqc "."; eqc "'"; eqc "-"].
(** [[\w\s,'\-]] *)
Definition tail_char : ascii -> bool :=
  any_of [Js.is_word; Js.is_space; eqc ","; eqc "'"; eqc "-"].

(** One reporter key as a pattern: [.] escaped to a literal dot, each
    white-space character replaced by [\s*], every other character (a
    letter or a digit in this table) standing for itself. *)
Definition reporter_atom (a : ascii) : regex :=
  if space a then star (cls true space) else lit true a.

Definition reporter_regex (key : string) : regex :=
  seqs (map reporter_atom (Js.chars key)).

(** [Object.keys(ALL_REPORTERS).sort((a, b) => b.length - a.length)] *)
Definition reporterNames : list string :=
  Js.sort_stable (fun a b => String.length b <? String.length a)
    (keys ALL_REPORTERS).

Definition REPORTER_PATTERN : regex := alts (map reporter_regex reporterNames).

(** A string up to letter case and white space: its characters other
    than white space, each in its canonical (upper-case) form. *)
Definition squash (s : list ascii) : list ascii :=
  map Js.canon (filter (fun a => negb (Js.is_space a)) s).

(** The citation proper, shared by both patterns: volume, reporter, page,
    optional pinpoint, optional [(Court Year)]; [g] is the number of the
    volume group. *)
Definition citation_core (g : nat) : list regex :=
  [ Group g (times 1 4 (cls true digit)); star (cls true space);
    Group (g + 1) REPORTER_PATTERN; star (cls true space);
    Group (g + 2) (times 1 5 (cls true digit));
    opt (seqs [ star (cls true space); lit true ","; star (cls true space);
                Group (g + 3) (times 1 5 (cls true digit)) ]);
    opt (seqs [ star (cls true space); lit true "(";
                Group (g + 4) (lazy_plus (ncls true (eqc ")")));
                star (cls true space);
                Group (g + 5) (times 4 4 (cls true digit));
                lit true ")" ]) ].

(** [v\.?|vs\.?] *)
Definition versus : regex :=
  Alt (Seq (lit true "v") (opt (lit true ".")))
      (seqs [lit true "v"; lit true "s"; opt (lit true ".")]).

(** PATTERNS.fullCitation, flags [gi]. *)
Definition fullCitation : RegExp :=
  mkRegExp
    (seqs
       (Group 1
          (seqs [ cls true capital; plus (cls true name_char);
                  plus (cls true space); versus; plus (cls true space);
                  cls true capital; plus (cls true name_char);
                  lazy_star (cls true tail_char) ])
        :: opt (lit true ",") :: star (cls true space)
        :: citation_core 2))
    7.

(** PATTERNS.shortCitation, flags [gi]. *)
Definition shortCitation : RegExp :=
  mkRegExp (seqs (NotBehind Js.is_word :: citation_core 1)) 6.

(** [/\s+/g] *)
Definition spaces_g : RegExp := mkRegExp (plus (cls false space)) 0.
(** [/,\s*$/] *)
Definition trailing_comma : RegExp :=
  mkRegExp (seqs [lit false ","; star (cls false space); Eol]) 0.
(** [/^\s*,/] *)
Definition leading_comma : RegExp :=
  mkRegExp (seqs [Bol; star (cls false space); lit false ","]) 0.

Definition cleanCaseName (name : option string) : option string :=
  if negb (Js.truthy name) then None
  else
    match name with
    | None => None
    | Some n =>
        Some (Js.trim
                (replace_first leading_comma ""
                   (replace_first trailing_comma ""
                      (replace_all spaces_g " " n))))
    end.

Definition normalizeReporter (reporter : string) : string :=
  Js.trim (replace_all spaces_g " " reporter).

Definition normalizeWhitespace (s : string) : string :=
  Js.toLowerCase (Js.trim (replace_all spaces_g " " s)).

(** [[A-Z][\w.'\-]+\s+v\.?\s+[A-Z][\w.'\-]+] under the [i] flag *)
Definition parties : list regex :=
  [ cls true capital; plus (cls true name_char); plus (cls true space);
    lit true "v"; opt (lit true "."); plus (cls true space);
    cls true capital; plus (cls true name_char) ].

Definition precedingPatterns : list RegExp :=
  [ mkRegExp
      (seqs [ Group 1 (seqs (parties ++ [lazy_star (cls true tail_char)])%list);
              star (cls true space); opt (lit true ",");
              star (cls true space); Eol ]) 1;
    mkRegExp
      (seqs [ word true "See"; plus (cls true space); Group 1 (seqs parties) ]) 1;
    mkRegExp
      (seqs [ word true "in"; plus (cls true space); Group 1 (seqs parties) ]) 1 ].

Fixpoint first_match (ps : list RegExp) (text : string) : option string :=
  match ps with
  | [] => None
  | p :: ps' =>
      match match_first p text with
      | Some m => cleanCaseName (group m 1)
      | None => first_match ps' text
      end
  end.

Definition extractPrecedingCaseName (text : string) : option string :=
  first_match precedingPatterns text.

(** The two accumulators of [extractCitations]. *)
Record Acc : Type := mkAcc {
  citations : list Citation;      (* in push order *)
  seen_keys : list string         (* the Set [seen] *)
}.

Definition has (s : list string) (k : string) : bool := existsb (String.eqb k) s.

(** [match[0].trim()] and its normalised form, the key of [seen]. *)
Definition rawOf (m : MatchResult) : string := Js.trim (matched m).
Definition keyOf (m : MatchResult) : string := normalizeWhitespace (rawOf m).

(** The record built from a match of the full pattern.  Groups 2, 3 and
    4 take part in every match. *)
Definition fullRecord (m : MatchResult) : Citation :=
  let raw := rawOf m in
  mkCitation raw (cleanCaseName (group m 1)) (group m 2)
    (normalizeReporter (Js.show (group m 3))) (group m 4)
    (group m 7) (option_map Js.trim (group m 6))
    (index m) (index m + String.length raw).

(** The body of the first loop. *)
Definition fullStep (acc : Acc) (m : MatchResult) : Acc :=
  let normalizedRaw := keyOf m in
  if has (seen_keys acc) normalizedRaw then acc
  else mkAcc (Js.push (citations acc) (fullRecord m))
         (normalizedRaw :: seen_keys acc).

(** [citations.some(c => matchIndex >= c.startIndex && matchIndex < c.endIndex)] *)
Definition isOverlapping (cs : list Citation) (matchIndex : nat) : bool :=
  existsb (fun c => (startIndex c <=? matchIndex) && (matchIndex <? endIndex c))%bool cs.

(** The record built from a match of the short pattern, with the case
    name looked for in the 200 characters before it. *)
Definition shortRecord (text : string) (m : MatchResult) : Citation :=
  let raw := rawOf m in
  let matchIndex := index m in
  let precedingText := Js.substring (matchIndex - 200) matchIndex text in
  let caseName := extractPrecedingCaseName precedingText in
  mkCitation raw caseName (group m 1)
    (normalizeReporter (Js.show (group m 2))) (group m 3)
    (group m 6) (option_map Js.trim (group m 5))
    matchIndex (matchIndex + String.length raw).

(** The body of the second loop. *)
Definition shortStep (text : string) (acc : Acc) (m : MatchResult) : Acc :=
  let normalizedRaw := keyOf m in
  let matchIndex := index m in
  if has (seen_keys acc) normalizedRaw then acc
  else if isOverlapping (citations acc) matchIndex then acc
  else mkAcc (Js.push (citations acc) (shortRecord text m))
         (normalizedRaw :: seen_keys acc).

Definition rounds (text : string) : nat := S (String.length text).

Definition fullPass (text : string) : Acc :=
  while_exec (rounds text) fullCitation fullStep (mkAcc [] []) (start_of text).

Definition shortPass (text : string) (acc : Acc) : Acc :=
  while_exec (rounds text) shortCitation (shortStep text) acc (start_of text).

Definition extractCitations (text : string) : list Citation :=
  let acc := shortPass text (fullPass text) in
  Js.sort_stable (fun a b => startIndex a <? startIndex b) (citations acc).

(** The successive matches of the short pattern. *)
Definition shortMatches (text : string) : list MatchResult :=
  exec_all (rounds text) shortCitation (start_of text).

(** The citations the second loop pushes after those of the first. *)
Definition shortAdded (text : string) : list Citation :=
  skipn (List.length (citations (fullPass text)))
    (citations (shortPass text (fullPass text))).

(** The deduplication key of a citation: its raw text, white space
    normalised and lower-cased. *)
Definition key (c : Citation) : string := normalizeWhitespace (raw c).

(** Relations between the intervals [[startIndex, endIndex)] of two
    citations. *)
Definition ends_before (a b : Citation) : Prop := endIndex a <= startIndex b.
Definition disjoint (a b : Citation) : Prop :=
  endIndex a <= startIndex b \/ endIndex b <= startIndex a.
Definition overlap (a b : Citation) : Prop :=
  startIndex a < endIndex b /\ startIndex b < endIndex a.
Definition starts_inside (s f : Citation) : Prop :=
  startIndex f <= startIndex s /\ startIndex s < endIndex f.

(** *** Invariants of the two loops *)

(** The keys of the retained citations are distinct and all in [seen]. *)
Definition keys_ok (acc : Acc) : Prop :=
  NoDup (map key (citations acc))
  /\ forall c, In c (citations acc) -> In (key c) (seen_keys acc).

(** The citations a pass has added lie one after the other, before the
    index the loop has reached. *)
Definition in_order (lo : nat) (l : list Citation) : Prop :=
  ForallOrdPairs ends_before l /\ Forall (fun c => endIndex c <= lo) l.

(** The second pass: what it adds to the citations [full] of the first
    pass is in order, and none of it starts inside a citation of [full]. *)
Definition short_ok (full : list Citation) (lo : nat) (acc : Acc) : Prop :=
  exists short,
    citations acc = (full ++ short)%list
    /\ in_order lo short
    /\ Forall (fun s => Forall (fun f => ~ starts_inside s f) full) short.

(** The outcome of [validateCitationFormat]. *)
Record Validation : Type := mkValidation { valid : bool; issues : list string }.

(** [if (cond) issues.push(msg)] *)
Definition push_if (cond : bool) (msg : string) (l : list string) : list string :=
  if cond then Js.push l msg else l.

(** [currentYear] is [new Date().getFullYear()], read from the clock. *)
Definition validateCitationFormat (currentYear : Z) (c : Citation) : Validation :=
  let issues := [] in
  let vol := Js.parseInt (Js.or_else (volume c) "0") in
  let issues :=
    push_if (Js.num_lt vol 1 || Js.num_gt vol 2000)
      ("Unusual volume number: " ++ Js.show (volume c)) issues in
  let pg := Js.parseInt (Js.or_else (page c) "0") in
  let issues :=
    push_if (Js.num_lt pg 1 || Js.num_gt pg 10000)
      ("Unusual page number: " ++ Js.show (page c)) issues in
  let issues :=
    if Js.truthy (year c) then
      let yr := Js.parseInt (Js.show (year c)) in
      push_if (Js.num_lt yr 1789 || Js.num_gt yr currentYear)
        ("Year out of range: " ++ Js.show (year c)) issues
    else issues in
  let normalizedReporter := replace_all spaces_g " " (reporter c) in
  let issues :=
    push_if (negb (truthy_at ALL_REPORTERS normalizedReporter))
      ("Unknown reporter: " ++ reporter c) issues in
  mkValidation (Nat.eqb (List.length issues) 0) issues.

Definition formatCitation (c : Citation) : string :=
  let parts := [] in
  let parts :=
    if Js.truthy (caseName c) then Js.push parts (Js.show (caseName c) ++ ",")
    else parts in
  let parts :=
    Js.push parts
      (Js.show (volume c) ++ " " ++ reporter c ++ " " ++ Js.show (page c)) in
  let parts :=
    if (Js.truthy (court c) || Js.truthy (year c))%bool then
      let parens := [] in
      let parens :=
        if Js.truthy (court c) then Js.push parens (Js.show (court c)) else parens in
      let parens :=
        if Js.truthy (year c) then Js.push parens (Js.show (year c)) else parens in
      Js.push parts ("(" ++ Js.join " " parens ++ ")")
    else parts in
  Js.join " " parts.

End Extractor.

(* ===================================================================== *)
(** ** verifier.ts *)
(* ===================================================================== *)

Module Verifier.
Import Regex Types Extractor.

Record CourtListenerCase : Type := mkCase {
  absolute_url : string;
  case_name : string;
  cl_citation : option (list string);   (* [citation], possibly missing *)
  cl_court : string;
  date_filed : string;
  docket_number : string
}.

Record SearchResponse : Type := mkSearch {
  count : Z;
  search_results : list CourtListenerCase
}.

(** The two query shapes sent to the search endpoint, by their
    parameters. *)
Inductive Request : Type :=
| CitationQuery (citation_param : string) (case_name_param : option string)
| ComponentsQuery (q_param : string).

(** What [fetch] does, within the declared interface: it rejects, or it
    resolves to a response with its [ok] flag and the value of
    [response.json()], which is [None] when that rejects or yields a falsy
    value and a [SearchResponse] otherwise.  The code returns the body
    unchecked; a body of another shape is the subject of the module
    [Unchecked] below. *)
Inductive FetchOutcome : Type :=
| Rejected
| Responded (ok : bool) (body : option SearchResponse).

(** [/\\s+v\\.?\\s+/i] *)
Definition versus_sep : RegExp :=
  mkRegExp (seqs [ plus (cls true space); lit true "v"; opt (lit true ".");
                   plus (cls true space) ]) 0.
(** [/,.*$/] *)
Definition comma_to_end : RegExp :=
  mkRegExp (seqs [ lit false ","; star (ncls false Js.is_line_terminator); Eol ]) 0.
(** [/[^\\w\\s]/g] *)
Definition not_word_or_space : RegExp :=
  mkRegExp (ncls false (any_of [Js.is_word; Js.is_space])) 0.
(** [/[^\\w]/g] *)
Definition not_word : RegExp := mkRegExp (ncls false Js.is_word) 0.

(** [`${citation.volume} ${citation.reporter} ${citation.page}`] *)
Definition citationStr (c : Citation) : string :=
  Js.show (volume c) ++ " " ++ reporter c ++ " " ++ Js.show (page c).

Definition buildSearchQuery (c : Citation) : Request :=
  CitationQuery (citationStr c)
    (if Js.truthy (caseName c) then
       Some (Js.trim
               (replace_first comma_to_end ""
                  (replace_first versus_sep " v. " (Js.show (caseName c)))))
     else None).

(** The two tests of the first category on one candidate citation string:
    [resCite.toLowerCase().includes(citationStr.toLowerCase())] and
    [resCite.includes(citation.volume || '') &&
     resCite.includes(citation.page || '')]. *)
Definition exactMatch (c : Citation) (resCite : string) : bool :=
  Js.includes (Js.toLowerCase resCite) (Js.toLowerCase (citationStr c)).

Definition partialMatch (c : Citation) (resCite : string) : bool :=
  (Js.includes resCite (Js.or_else (volume c) "")
   && Js.includes resCite (Js.or_else (page c) ""))%bool.

(** The first category of [calculateConfidence]: the loop over the
    candidate's citation strings, left at the first string that
    qualifies either way. *)
Fixpoint citationStringScore (c : Citation) (resultCitations : list string) : Z :=
  match resultCitations with
  | [] => 0
  | resCite :: more =>
      if exactMatch c resCite then 50
      else if partialMatch c resCite then 30
      else citationStringScore c more
  end%Z.

(** The second category: party names. *)
Definition caseNameScore (c : Citation) (result : CourtListenerCase) : Z :=
  if (Js.truthy (caseName c) && negb (String.eqb (case_name result) ""))%bool then
    let citeName := Js.toLowerCase (Js.show (caseName c)) in
    let resultName := Js.toLowerCase (case_name result) in
    let citeParties := split versus_sep citeName in
    let partyMatches :=
      List.length
        (filter (fun party =>
                   let simplified :=
                     Js.trim (replace_all not_word_or_space "" party) in
                   (negb (String.eqb simplified "")
                    && Js.includes resultName simplified)%bool)
                citeParties) in
    if 2 <=? partyMatches then 30%Z
    else if Nat.eqb partyMatches 1 then 15%Z
    else 0%Z
  else 0%Z.

(** [Math.abs(a - b) <= 1], false when either is NaN. *)
Definition within_one (a b : option Z) : bool :=
  match a, b with
  | Some x, Some y => (Z.abs (x - y) <=? 1)%Z
  | _, _ => false
  end.

(** The third category: the year. *)
Definition yearScore (c : Citation) (result : CourtListenerCase) : Z :=
  if (Js.truthy (year c) && negb (String.eqb (date_filed result) ""))%bool then
    let resultYear := Js.substring 0 4 (date_filed result) in
    if String.eqb (Js.show (year c)) resultYear then 20%Z
    else if within_one (Js.parseInt (Js.show (year c))) (Js.parseInt resultYear)
    then 10%Z
    else 0%Z
  else 0%Z.

Definition calculateConfidence (c : Citation) (result : CourtListenerCase) : Z :=
  let confidence := 0%Z in
  let confidence :=
    (confidence + citationStringScore c
                    (match cl_citation result with Some l => l | None => [] end))%Z in
  let confidence := (confidence + caseNameScore c result)%Z in
  let confidence := (confidence + yearScore c result)%Z in
  Z.min 100 confidence.

(** The loop that keeps the best candidate: a later one replaces it only
    with a strictly greater score. *)
Definition bestStep (c : Citation) (best : option CourtListenerCase * Z)
    (result : CourtListenerCase) : option CourtListenerCase * Z :=
  let confidence := calculateConfidence c result in
  if (confidence >? snd best)%Z then (Some result, confidence) else best.

Definition pickBest (c : Citation) (results : list CourtListenerCase)
    : option CourtListenerCase * Z :=
  fold_left (bestStep c) results (None, 0%Z).

(** The best candidate's confidence as the specification words it: the
    greatest score among the candidates, 0 when none scores above 0. *)
Definition maxConfidence (c : Citation) (results : list CourtListenerCase) : Z :=
  fold_right Z.max 0%Z (map (calculateConfidence c) results).

(** [name.split(...).map(p => p.replace(/[^\\w]/g, '').trim())] *)
Definition partyTokens (name : string) : list string :=
  map (fun p => Js.trim (replace_all not_word "" p)) (split versus_sep name).

Definition anyPartyMatch (citeName matchName : string) : bool :=
  existsb (fun cp =>
    existsb (fun mp =>
      (negb (String.eqb cp "") && negb (String.eqb mp "")
       && (Js.includes cp mp || Js.includes mp cp))%bool)
      (partyTokens matchName))
    (partyTokens citeName).

(** The warnings collected before the status is decided. *)
Definition mismatchWarnings (c : Citation) (bestMatch : CourtListenerCase)
    : list string :=
  if (Js.truthy (caseName c) && negb (String.eqb (case_name bestMatch) ""))%bool then
    if anyPartyMatch (Js.toLowerCase (Js.show (caseName c)))
         (Js.toLowerCase (case_name bestMatch))
    then []
    else [ "Case name mismatch: citation says " ++ Js.dquote
           ++ Js.show (caseName c) ++ Js.dquote ++ ", database shows "
           ++ Js.dquote ++ case_name bestMatch ++ Js.dquote ]
  else [].

Definition snapshot (bestMatch : CourtListenerCase) : MatchedCase :=
  mkMatchedCase (case_name bestMatch)
    (match cl_citation bestMatch with
     | Some l => Js.join ", " l
     | None => ""
     end)
    (date_filed bestMatch) (cl_court bestMatch) (docket_number bestMatch).

Definition urlOf (bestMatch : CourtListenerCase) : string :=
  "https://www.courtlistener.com" ++ absolute_url bestMatch.

(** The part of [verifyCitation] after a lookup that returned records. *)
Definition classify (c : Citation) (results : list CourtListenerCase)
    : VerificationResult :=
  match pickBest c results with
  | (None, _) =>
      mkResult c not_found 0
        "Search returned results but none matched the citation."
        None None ["No confident match found"]
  | (Some bestMatch, bestConfidence) =>
      let warnings := mismatchWarnings c bestMatch in
      if (bestConfidence >=? 70)%Z then
        mkResult c verified bestConfidence
          "Citation verified. Found matching case in CourtListener database."
          (Some (urlOf bestMatch)) (Some (snapshot bestMatch)) warnings
      else if (bestConfidence >=? 40)%Z then
        mkResult c partial_match bestConfidence
          "Possible match found, but confidence is low. Manual verification recommended."
          (Some (urlOf bestMatch)) (Some (snapshot bestMatch))
          (Js.push warnings "Low confidence match - verify manually")
      else
        mkResult c not_found bestConfidence
          ("Found potential result " ++ Js.dquote ++ case_name bestMatch
           ++ Js.dquote ++ " but match confidence is too low.")
          None None
          (Js.push warnings "Very low confidence - likely not a match")
  end.

(** *** The effectful part: requests to the lookup service

    A computation reads the log of the requests sent so far and extends
    it.  The spacing that [rateLimitedFetch] enforces between requests is
    a matter of time and is not part of the model. *)

Definition Net (A : Type) : Type := list Request -> A * list Request.

Definition ret (A : Type) (a : A) : Net A := fun log => (a, log).

Definition bind (A B : Type) (m : Net A) (k : A -> Net B) : Net B :=
  fun log => let '(a, log') := m log in k a log'.

Notation "x <- m ;; k" := (bind m (fun x => k))
  (at level 61, m at next level, right associativity).

Section Lookup.

(** The service: its answer to a request may depend on the requests that
    came before. *)
Variable fetch : list Request -> Request -> FetchOutcome.
Variable currentYear : Z.

Definition rateLimitedFetch (url : Request) : Net FetchOutcome :=
  fun log => (fetch log url, Js.push log url).

(** Both search functions: [null] unless the response is [ok] and its
    body parses. *)
Definition parsed (o : FetchOutcome) : option SearchResponse :=
  match o with
  | Responded true (Some r) => Some r
  | _ => None
  end.

Definition searchByCitation (c : Citation) : Net (option SearchResponse) :=
  response <- rateLimitedFetch (buildSearchQuery c) ;;
  ret (parsed response).

Definition searchByComponents (c : Citation) : Net (option SearchResponse) :=
  response <- rateLimitedFetch (ComponentsQuery (citationStr c)) ;;
  ret (parsed response).

(** [!searchResult || searchResult.count === 0] *)
Definition noResults (r : option SearchResponse) : bool :=
  match r with
  | None => true
  | Some sr => (count sr =? 0)%Z
  end.

(** The structured query, then the free-text one when the first gave
    nothing. *)
Definition lookup (c : Citation) : Net (option SearchResponse) :=
  searchResult <- searchByCitation c ;;
  if noResults searchResult then searchByComponents c
  else ret searchResult.

Definition verifyCitation (c : Citation) : Net VerificationResult :=
  let formatValidation := validateCitationFormat currentYear c in
  if negb (valid formatValidation) then
    ret (mkResult c format_error 0
           ("Citation format issues: " ++ Js.join "; " (issues formatValidation))
           None None (issues formatValidation))
  else
    searchResult <- lookup c ;;
    match searchResult with
    | None =>
        ret (mkResult c api_error 0
               "Failed to query CourtListener API. Check your connection or try again later."
               None None ["API request failed"])
    | Some sr =>
        if (count sr =? 0)%Z then
          ret (mkResult c not_found 0
                 ("No matching case found for " ++ Js.dquote ++ formatCitation c
                  ++ Js.dquote
                  ++ ". This citation may be fabricated, from a state court not in CourtListener, or use a different citation format.")
                 None None ["No matching case in database"])
        else ret (classify c (search_results sr))
    end.

(** [verifyCitations] without its progress callback. *)
Fixpoint verifyCitations (cs : list Citation) : Net (list VerificationResult) :=
  match cs with
  | [] => ret []
  | c :: cs' =>
      result <- verifyCitation c ;;
      more <- verifyCitations cs' ;;
      ret (result :: more)
  end.

End Lookup.

(** The requests one call of [verifyCitation] sends: none for a citation
    the validator rejects, else the structured query, followed by the
    free-text query when the first gave nothing. *)
Definition requestsOf (fetch : list Request -> Request -> FetchOutcome)
    (currentYear : Z) (c : Citation) (log : list Request) : list Request :=
  if negb (valid (validateCitationFormat currentYear c)) then []
  else if noResults (parsed (fetch log (buildSearchQuery c)))
       then [buildSearchQuery c; ComponentsQuery (citationStr c)]
       else [buildSearchQuery c].

End Verifier.

(* ===================================================================== *)
(** ** verifier.ts, when the body of a response is not checked

    [searchByCitation] and [searchByComponents] return
    [await response.json()] as it comes.  [verifyCitation] reads [count]
    and iterates [results]; on a truthy body whose [count] is not 0 and
    whose [results] cannot be iterated, [for (const result of results)]
    throws a TypeError, which nothing catches: the promise of
    [verifyCitation] rejects, and so does that of [verifyCitations].
    The functions below are the same functions with that outcome in
    their types.  The candidates of an iterable [results] are taken to
    have fields of the declared types. *)
(* ===================================================================== *)

Module Unchecked.
Import Types Extractor Verifier.

(** A reply of the service: one within the declared interface, or an
    [ok] response whose body is truthy, has no [count] equal to 0 and no
    [results] that can be iterated (an object with neither property, for
    instance). *)
Inductive Reply : Type :=
| Declared (o : FetchOutcome)
| Unshaped.

(** What a search function returns: [null], a body of the declared
    shape, or the unshaped body as it came. *)
Inductive Found : Type :=
| Null
| Body (sr : SearchResponse)
| UnshapedBody.

(** How the promise of an [async] function settles. *)
Inductive Settled (A : Type) : Type :=
| Resolved (a : A)
| Threw.

Arguments Threw {A}.

(** The values of a list of settled promises, unless one of them threw. *)
Fixpoint collect (A : Type) (l : list (Settled A)) : Settled (list A) :=
  match l with
  | [] => Resolved []
  | Threw :: _ => Threw
  | Resolved a :: l' =>
      match collect l' with
      | Resolved more => Resolved (a :: more)
      | Threw => Threw
      end
  end.

Section Run.

Variable fetch : list Request -> Request -> Reply.
Variable currentYear : Z.

Definition rateLimitedFetch (url : Request) : Net Reply :=
  fun log => (fetch log url, Js.push log url).

Definition parsed (r : Reply) : Found :=
  match r with
  | Declared o =>
      match Verifier.parsed o with
      | Some sr => Body sr
      | None => Null
      end
  | Unshaped => UnshapedBody
  end.

Definition searchByCitation (c : Citation) : Net Found :=
  response <- rateLimitedFetch (buildSearchQuery c) ;;
  ret (parsed response).

Definition searchByComponents (c : Citation) : Net Found :=
  response <- rateLimitedFetch (ComponentsQuery (citationStr c)) ;;
  ret (parsed response).

(** [!searchResult || searchResult.count === 0] *)
Definition noResults (r : Found) : bool :=
  match r with
  | Null => true
  | Body sr => (count sr =? 0)%Z
  | UnshapedBody => false
  end.

Definition lookup (c : Citation) : Net Found :=
  searchResult <- searchByCitation c ;;
  if noResults searchResult then searchByComponents c
  else ret searchResult.

Definition verifyCitation (c : Citation) : Net (Settled VerificationResult) :=
  let formatValidation := validateCitationFormat currentYear c in
  if negb (valid formatValidation) then
    ret (Resolved
           (mkResult c format_error 0
              ("Citation format issues: "
               ++ Js.join "; " (issues formatValidation))
              None None (issues formatValidation)))
  else
    searchResult <- lookup c ;;
    match searchResult with
    | Null =>
        ret (Resolved
               (mkResult c api_error 0
                  "Failed to query CourtListener API. Check your connection or try again later."
                  None None ["API request failed"]))
    | Body sr =>
        if (count sr =? 0)%Z then
          ret (Resolved
                 (mkResult c not_found 0
                    ("No matching case found for " ++ Js.dquote
                     ++ formatCitation c ++ Js.dquote
                     ++ ". This citation may be fabricated, from a state court not in CourtListener, or use a different citation format.")
                    None None ["No matching case in database"]))
        else ret (Resolved (classify c (search_results sr)))
    | UnshapedBody => ret Threw   (* [for (const result of results)] *)
    end.

(** [verifyCitations] without its progress callback: a rejected
    [await verifyCitation(...)] leaves the loop and rejects the whole
    call. *)
Fixpoint verifyCitations (cs : list Citation)
    : Net (Settled (list VerificationResult)) :=
  match cs with
  | [] => ret (Resolved [])
  | c :: cs' =>
      settled <- verifyCitation c ;;
      match settled with
      | Threw => ret Threw
      | Resolved result =>
          rest <- verifyCitations cs' ;;
          match rest with
          | Threw => ret Threw
          | Resolved more => ret (Resolved (result :: more))
          end
      end
  end.

End Run.

End Unchecked.

(* ===================================================================== *)
(** ** report.ts *)
(* ===================================================================== *)

Module Report.
Import Types.

(** [results.filter(r => r.status === s).length] *)
Definition countStatus (s : Status) (rs : list VerificationResult) : nat :=
  List.length (filter (fun r => status_eqb (status r) s) rs).

(** [now] is [new Date().toISOString()], read from the clock. *)
Definition generateReport (now : string) (documentName : string)
    (rs : list VerificationResult) : VerificationReport :=
  let verified_ := countStatus verified rs in
  let notFound := countStatus not_found rs in
  let partialMatches := countStatus partial_match rs in
  let formatErrors := countStatus format_error rs in
  let apiErrors := countStatus api_error rs in
  mkReport documentName (List.length rs) verified_ notFound partialMatches
    formatErrors apiErrors rs now.

End Report.

(* ===================================================================== *)
(** ** cli.ts *)
(* ===================================================================== *)

Module Cli.
Import Types.


End Cli.

(* ===================================================================== *)
(** ** Sample data *)
(* ===================================================================== *)

Module Samples.
Import Types Verifier.

Definition roe_text : string := "Roe v. Wade, 410 U.S. 113 (1973)".

(** What the extractor returns on [roe_text]. *)
Definition roe : Citation :=
  mkCitation "Roe v. Wade, 410 U.S. 113" (Some "Roe v. Wade") (Some "410")
    "U.S." (Some "113") None None 0 25.

Definition roe_case : CourtListenerCase :=
  mkCase "/opinion/108713/roe-v-wade/" "Roe v. Wade"
    (Some ["410 U.S. 113"; "93 S. Ct. 705"]) "scotus" "1973-01-22" "70-18".

Definition this_year : Z := 2025.

(** A service that knows the case. *)
Definition svc_found : list Request -> Request -> FetchOutcome :=
  fun _ _ => Responded true (Some (mkSearch 1 [roe_case])).

(** A service that answers the first request with no record and is
    unreachable afterwards. *)
Definition svc_empty_then_down : list Request -> Request -> FetchOutcome :=
  fun log _ =>
    match log with
    | [] => Responded true (Some (mkSearch 0 []))
    | _ :: _ => Rejected
    end.

(** A service that is unreachable. *)
Definition svc_down : list Request -> Request -> FetchOutcome :=
  fun _ _ => Rejected.

(** A service that answers every request with status 200 and a body
    without [count] and [results]. *)
Definition svc_unshaped : list Request -> Request -> Unchecked.Reply :=
  fun _ _ => Unchecked.Unshaped.

Definition long_page_text : string := "see 999 F.3d 999999".

(** What the extractor returns on [long_page_text]. *)
Definition long_page : Citation :=
  mkCitation "999 F.3d 99999" None (Some "999") "F.3d" (Some "99999")
    None None 4 18.

(** A record whose reporter names a property of [Object.prototype]. *)
Definition inherited_reporter : Citation :=
  mkCitation "410 constructor 113" None (Some "410") "constructor"
    (Some "113") None None 0 19.

(** A candidate whose first citation string holds the volume and the
    page, and whose second holds the citation itself. *)
Definition parallel_cites : list string := ["113 S. Ct. 410"; "410 U.S. 113"].

(** A short citation whose parenthetical quotes a full citation. *)
Definition quoting_text : string :=
  "550 U.S. 544 (quoting Conley v. Gibson, 355 U.S. 41 (1957))".

Definition twice_text : string := "See 410 U.S. 113; accord 410 U.S. 113.".

(** A full citation followed by its short form. *)
Definition inside_text : string :=
  "Roe v. Wade, 410 U.S. 113. See 410 U.S. 113.".

End Samples.

(* ===================================================================== *)
(** * Properties *)
(* ===================================================================== *)

Import Regex Types Extractor Verifier Report Samples.

Unset Implicit Arguments.

(** ** Report aggregation *)


Lemma countStatus_partition (rs : list VerificationResult) :
  countStatus verified rs + countStatus not_found rs
  + countStatus partial_match rs + countStatus format_error rs
  + countStatus api_error rs = List.length rs.
Proof.
  unfold countStatus.
  induction rs as [|r rs IH]; simpl; [reflexivity|].
  destruct (status r); simpl; lia.
Qed.

(** C9. For every list of verification results, the five per-status
    counts of the report of [generateReport] add up to [totalCitations],
    and [totalCitations] is the number of input results. *)
Theorem C9_report_counts_sum (now documentName : string)
    (rs : list VerificationResult) :
  let report := generateReport now documentName rs in
  r_verified report + r_notFound report + r_partialMatches report
  + r_formatErrors report + r_apiErrors report = totalCitations report
  /\ totalCitations report = List.length rs.
Proof.
  simpl. split; [apply countStatus_partition | reflexivity].
Qed.

(** ** The verification engine *)

Section VerifierFacts.

Variable fetch : list Request -> Request -> FetchOutcome.
Variable currentYear : Z.

Lemma pickBest_acc (c : Citation) (rs : list CourtListenerCase)
    (b : option CourtListenerCase) (k : Z) :
  (0 <= k)%Z ->
  snd (fold_left (bestStep c) rs (b, k))
  = Z.max k (fold_right Z.max 0%Z (map (calculateConfidence c) rs)).
Proof.
  revert b k.
  induction rs as [|r rs IH]; intros b k Hk; simpl.
  - lia.
  - destruct (bestStep c (b, k) r) as [b' k'] eqn:E.
    unfold bestStep in E. simpl in E.
    destruct (Z.gtb_spec (calculateConfidence c r) k) as [Hgt|Hle];
      inversion E; subst; rewrite IH by lia; lia.
Qed.

(** The loop of [verifyCitation] ends with the greatest score, and 0 when
    no candidate scores above 0. *)
Lemma pickBest_max (c : Citation) (rs : list CourtListenerCase) :
  snd (pickBest c rs) = maxConfidence c rs.
Proof.
  unfold pickBest, maxConfidence.
  assert (H0 : (0 <= fold_right Z.max 0 (map (calculateConfidence c) rs))%Z).
  { induction rs; simpl; lia. }
  rewrite pickBest_acc by lia. lia.
Qed.

(** No candidate is kept only when the kept score is 0. *)
Lemma pickBest_acc_none (c : Citation) (rs : list CourtListenerCase)
    (b : option CourtListenerCase) (k : Z) :
  (b = None -> k = 0%Z) ->
  fst (fold_left (bestStep c) rs (b, k)) = None ->
  snd (fold_left (bestStep c) rs (b, k)) = 0%Z.
Proof.
  revert b k.
  induction rs as [|r rs IH]; intros b k Hn; simpl.
  - exact Hn.
  - destruct (bestStep c (b, k) r) as [b' k'] eqn:E.
    apply IH. unfold bestStep in E. simpl in E.
    destruct (calculateConfidence c r >? k)%Z; inversion E; subst;
      [discriminate | exact Hn].
Qed.

Lemma pickBest_none (c : Citation) (rs : list CourtListenerCase) :
  fst (pickBest c rs) = None -> snd (pickBest c rs) = 0%Z.
Proof. apply pickBest_acc_none. reflexivity. Qed.

(** What [classify] returns, by the best score. *)
Lemma classify_by_confidence (c : Citation) (rs : list CourtListenerCase) :
  let r := classify c rs in
  let best := maxConfidence c rs in
  confidence r = best
  /\ ((70 <= best)%Z -> status r = verified)
  /\ ((40 <= best < 70)%Z ->
      status r = partial_match
      /\ exists ws,
           warnings r = (ws ++ ["Low confidence match - verify manually"])%list)
  /\ ((best < 40)%Z ->
      status r = not_found /\ matchedCase r = None
      /\ courtListenerUrl r = None).
Proof.
  cbv zeta. rewrite <- pickBest_max. unfold classify.
  pose proof (pickBest_none c rs) as Hnone.
  destruct (pickBest c rs) as [[b|] k]; simpl in *.
  - destruct (Z.geb_spec k 70) as [H70|H70]; simpl.
    + repeat split; try lia.
    + destruct (Z.geb_spec k 40) as [H40|H40]; simpl.
      * repeat split; try lia. eexists; reflexivity.
      * repeat split; try lia.
  - rewrite (Hnone eq_refl). simpl. repeat split; try lia.
Qed.

Lemma classify_status (c : Citation) (rs : list CourtListenerCase) :
  status (classify c rs) <> api_error
  /\ status (classify c rs) <> format_error.
Proof.
  unfold classify.
  destruct (pickBest c rs) as [[b|] k]; simpl.
  - destruct (k >=? 70)%Z; simpl; [split; discriminate|].
    destruct (k >=? 40)%Z; simpl; split; discriminate.
  - split; discriminate.
Qed.

(** [verifyCitation] after a successful validation, by the outcome of the
    lookup. *)
Lemma verifyCitation_valid (c : Citation) (log : list Request) :
  valid (validateCitationFormat currentYear c) = true ->
  fst (verifyCitation fetch currentYear c log)
  = match fst (lookup fetch c log) with
    | None =>
        mkResult c api_error 0
          "Failed to query CourtListener API. Check your connection or try again later."
          None None ["API request failed"]
    | Some sr =>
        if (count sr =? 0)%Z then
          mkResult c not_found 0
            ("No matching case found for " ++ Js.dquote ++ formatCitation c
             ++ Js.dquote
             ++ ". This citation may be fabricated, from a state court not in CourtListener, or use a different citation format.")
            None None ["No matching case in database"]
        else classify c (search_results sr)
    end.
Proof.
  intros Hv. unfold verifyCitation. rewrite Hv. simpl.
  unfold bind. destruct (lookup fetch c log) as [[sr|] log']; simpl.
  - destruct (count sr =? 0)%Z; reflexivity.
  - reflexivity.
Qed.

End VerifierFacts.

(** C3. When [validateCitationFormat] rejects a citation, [verifyCitation]
    answers at once with status [format_error], confidence 0 and the
    validator's issues as warnings; the request log is unchanged, so no
    request reached the lookup service. *)
Theorem C3_invalid_format_error
    (fetch : list Request -> Request -> FetchOutcome) (currentYear : Z)
    (c : Citation) (log : list Request) :
  valid (validateCitationFormat currentYear c) = false ->
  let r := fst (verifyCitation fetch currentYear c log) in
  status r = format_error
  /\ confidence r = 0%Z
  /\ warnings r = issues (validateCitationFormat currentYear c)
  /\ snd (verifyCitation fetch currentYear c log) = log.
Proof.
  intros Hv. unfold verifyCitation. rewrite Hv. simpl. auto.
Qed.

Lemma C3_invalid_format_error_witness :
  let r := fst (verifyCitation svc_found this_year long_page []) in
  status r = format_error
  /\ confidence r = 0%Z
  /\ warnings r = issues (validateCitationFormat this_year long_page)
  /\ snd (verifyCitation svc_found this_year long_page []) = [].
Proof.
  apply (C3_invalid_format_error svc_found this_year long_page []).
  vm_compute. reflexivity.
Defined.

(** C2. For a citation that passes validation and whose lookup returned a
    response with a non-zero count, the result carries the best
    candidate's confidence and is classified by it: at least 70 gives
    [verified]; from 40 to 69 gives [partial_match] with the
    verify-manually warning appended; below 40 gives [not_found] with
    neither matched case nor URL. *)
Theorem C2_classification_boundaries
    (fetch : list Request -> Request -> FetchOutcome) (currentYear : Z)
    (c : Citation) (log : list Request) (sr : SearchResponse) :
  valid (validateCitationFormat currentYear c) = true ->
  fst (lookup fetch c log) = Some sr ->
  count sr <> 0%Z ->
  let r := fst (verifyCitation fetch currentYear c log) in
  let best := maxConfidence c (search_results sr) in
  confidence r = best
  /\ ((70 <= best)%Z -> status r = verified)
  /\ ((40 <= best < 70)%Z ->
      status r = partial_match
      /\ exists ws,
           warnings r = (ws ++ ["Low confidence match - verify manually"])%list)
  /\ ((best < 40)%Z ->
      status r = not_found /\ matchedCase r = None
      /\ courtListenerUrl r = None).
Proof.
  intros Hv Hl Hc. cbv zeta.
  rewrite (verifyCitation_valid fetch currentYear c log Hv), Hl.
  destruct (Z.eqb_spec (count sr) 0) as [E|_]; [contradiction|].
  apply classify_by_confidence.
Qed.

Lemma C2_classification_boundaries_witness :
  let r := fst (verifyCitation svc_found this_year roe []) in
  let best := maxConfidence roe [roe_case] in
  confidence r = best
  /\ ((70 <= best)%Z -> status r = verified)
  /\ ((40 <= best < 70)%Z ->
      status r = partial_match
      /\ exists ws,
           warnings r = (ws ++ ["Low confidence match - verify manually"])%list)
  /\ ((best < 40)%Z ->
      status r = not_found /\ matchedCase r = None
      /\ courtListenerUrl r = None).
Proof.
  apply (C2_classification_boundaries svc_found this_year roe []
           (mkSearch 1 [roe_case])).
  - vm_compute. reflexivity.
  - vm_compute. reflexivity.
  - simpl. discriminate.
Defined.

Lemma lookup_unfold (fetch : list Request -> Request -> FetchOutcome)
    (c : Citation) (log : list Request) :
  fst (lookup fetch c log)
  = let first := parsed (fetch log (buildSearchQuery c)) in
    if noResults first
    then parsed (fetch (Js.push log (buildSearchQuery c))
                   (ComponentsQuery (citationStr c)))
    else first.
Proof.
  unfold lookup, bind, searchByCitation, searchByComponents, bind,
    rateLimitedFetch, ret.
  simpl. destruct (noResults (parsed (fetch log (buildSearchQuery c))));
    reflexivity.
Qed.

(** The claim C4 as stated fails: the structured query succeeds (with no
    record), the free-text query is rejected, and the result is
    [api_error] although only one of the two attempts failed. *)
Lemma C4_counterexample :
  parsed (svc_empty_then_down [] (buildSearchQuery roe)) = Some (mkSearch 0 [])
  /\ valid (validateCitationFormat this_year roe) = true
  /\ status (fst (verifyCitation svc_empty_then_down this_year roe []))
     = api_error.
Proof. vm_compute. repeat split; reflexivity. Qed.

(** C4, amended. For a citation that passes validation, the result is
    [api_error] exactly when the free-text query is sent (the structured
    query failed or returned a zero count) and fails; its confidence is
    then 0.  In particular two failed attempts give [api_error].  When
    the lookup ends with a response whose count is zero, the result is
    [not_found] with confidence 0. *)
Theorem C4_api_error_iff_last_query_fails
    (fetch : list Request -> Request -> FetchOutcome) (currentYear : Z)
    (c : Citation) (log : list Request) :
  valid (validateCitationFormat currentYear c) = true ->
  let first := parsed (fetch log (buildSearchQuery c)) in
  let second := parsed (fetch (Js.push log (buildSearchQuery c))
                          (ComponentsQuery (citationStr c))) in
  let r := fst (verifyCitation fetch currentYear c log) in
  (status r = api_error <-> noResults first = true /\ second = None)
  /\ (status r = api_error -> confidence r = 0%Z)
  /\ (first = None -> second = None -> status r = api_error)
  /\ (forall sr, fst (lookup fetch c log) = Some sr -> count sr = 0%Z ->
      status r = not_found /\ confidence r = 0%Z).
Proof.
  intros Hv. cbv zeta.
  rewrite (verifyCitation_valid fetch currentYear c log Hv).
  rewrite lookup_unfold. cbv zeta.
  set (first := parsed (fetch log (buildSearchQuery c))).
  set (second := parsed (fetch (Js.push log (buildSearchQuery c))
                           (ComponentsQuery (citationStr c)))).
  assert (Hcls : forall sr : SearchResponse,
             status (if (count sr =? 0)%Z
                     then mkResult c not_found 0
                            ("No matching case found for " ++ Js.dquote
                             ++ formatCitation c ++ Js.dquote
                             ++ ". This citation may be fabricated, from a state court not in CourtListener, or use a different citation format.")
                            None None ["No matching case in database"]
                     else classify c (search_results sr)) <> api_error).
  { intros sr. destruct (count sr =? 0)%Z; simpl; [discriminate|].
    apply classify_status. }
  assert (Hcls' : forall sr : SearchResponse,
             status (classify c (search_results sr)) <> api_error).
  { intros sr. apply classify_status. }
  destruct first as [sr1|] eqn:E1; simpl;
    [destruct (Z.eqb_spec (count sr1) 0) as [Ez|Enz]|];
    try (destruct second as [sr2|] eqn:E2; simpl);
    try (rewrite (proj2 (Z.eqb_neq (count sr1) 0) Enz));
    (split; [split|split; [|split]]);
    try (intros H; exfalso; first [exact (Hcls _ H) | exact (Hcls' _ H)]);
    try (intros [H1 H2]; discriminate);
    try (intros; discriminate);
    try (intros; split; reflexivity);
    try reflexivity;
    try (intros sr Hsr Hc; inversion Hsr; subst; rewrite ?Hc; simpl;
         first [contradiction | split; reflexivity]).
Qed.

Lemma C4_api_error_iff_last_query_fails_witness :
  let first := parsed (svc_empty_then_down [] (buildSearchQuery roe)) in
  let second := parsed (svc_empty_then_down (Js.push [] (buildSearchQuery roe))
                          (ComponentsQuery (citationStr roe))) in
  let r := fst (verifyCitation svc_empty_then_down this_year roe []) in
  (status r = api_error <-> noResults first = true /\ second = None)
  /\ (status r = api_error -> confidence r = 0%Z)
  /\ (first = None -> second = None -> status r = api_error)
  /\ (forall sr, fst (lookup svc_empty_then_down roe []) = Some sr ->
      count sr = 0%Z -> status r = not_found /\ confidence r = 0%Z).
Proof.
  apply (C4_api_error_iff_last_query_fails svc_empty_then_down this_year roe []).
  vm_compute. reflexivity.
Defined.

(** ** The confidence score *)

(** The score is the three categories added up and capped. *)
Lemma calculateConfidence_sum (c : Citation) (result : CourtListenerCase) :
  calculateConfidence c result
  = Z.min 100
      (citationStringScore c
         (match cl_citation result with Some l => l | None => [] end)
       + caseNameScore c result + yearScore c result).
Proof. reflexivity. Qed.

(** The claim C6 as stated fails: the second citation string of the
    candidate holds the exact token, yet the category contributes 30,
    because the first string already holds the volume and the page. *)
Lemma C6_counterexample :
  existsb (exactMatch roe) parallel_cites = true
  /\ citationStringScore roe parallel_cites = 30%Z.
Proof. vm_compute. split; reflexivity. Qed.

(** C6, amended. The citation-string category is decided by the first
    candidate citation string that qualifies either way (it holds the
    exact token case-insensitively, or it holds both the volume and the
    page): 50 when that string holds the exact token, 30 otherwise, and 0
    when no string qualifies.  The category contributes once. *)
Theorem C6_first_qualifying_string (c : Citation) (resultCitations : list string) :
  citationStringScore c resultCitations
  = match find (fun s => exactMatch c s || partialMatch c s)%bool
            resultCitations with
    | Some s => if exactMatch c s then 50%Z else 30%Z
    | None => 0%Z
    end
  /\ (citationStringScore c resultCitations = 0%Z
      \/ citationStringScore c resultCitations = 30%Z
      \/ citationStringScore c resultCitations = 50%Z).
Proof.
  induction resultCitations as [|s l [IH1 IH2]];
    cbn [citationStringScore find].
  - auto.
  - destruct (exactMatch c s) eqn:Ee; cbn [orb]; [rewrite Ee; auto|].
    destruct (partialMatch c s) eqn:Ep; [rewrite Ee; auto|].
    auto.
Qed.

(** ** The Reporter Table *)

Lemma distinct_NoDup (l : list string) : distinct l = true -> NoDup l.
Proof.
  induction l as [|k l IH]; simpl; [constructor|].
  rewrite andb_true_iff, negb_true_iff. intros [Hk Hl].
  constructor; [|apply IH, Hl].
  intros Hin. rewrite <- not_true_iff_false in Hk. apply Hk.
  apply existsb_exists. exists k. split; [exact Hin | apply String.eqb_refl].
Qed.

(** No key occurs in two of the three tables, so the spread keeps all 66
    keys in the order written. *)
Lemma reporter_keys_distinct :
  NoDup (keys ALL_REPORTERS) /\ List.length (keys ALL_REPORTERS) = 66.
Proof.
  split; [apply distinct_NoDup; vm_compute; reflexivity | reflexivity].
Qed.

(** Every key is made of letters, digits, dots and spaces: the two
    replacements of [reporterNames] leave no other pattern character. *)
Lemma reporter_keys_plain :
  forallb (fun k => forallb (fun a => Js.is_word a || Ascii.eqb a "."
                                      || Ascii.eqb a " ")%bool (Js.chars k))
    (keys ALL_REPORTERS) = true.
Proof. vm_compute. reflexivity. Qed.

(** The alternation tries longer abbreviations first. *)
Lemma reporterNames_longest_first :
  map String.length reporterNames
  = (repeat 13 2 ++ repeat 12 4 ++ repeat 11 4 ++ repeat 9 4 ++ repeat 8 5
     ++ repeat 7 4 ++ repeat 6 15 ++ repeat 5 4 ++ repeat 4 19 ++ repeat 3 2
     ++ repeat 2 3)%list.
Proof. vm_compute. reflexivity. Qed.

(** ** The format validator *)

Lemma own_is_key (t : Table) (k : string) :
  is_key t k = match own t k with Some _ => true | None => false end.
Proof.
  unfold is_key, own, keys.
  induction t as [|[k' v] t IH]; simpl; [reflexivity|].
  rewrite (String.eqb_sym k k').
  destruct (String.eqb k' k); simpl; [reflexivity | exact IH].
Qed.

Lemma own_value_in (t : Table) (k v : string) :
  own t k = Some v -> In v (map snd t).
Proof.
  unfold own. induction t as [|[k' v'] t IH]; simpl; [discriminate|].
  destruct (String.eqb k' k); simpl.
  - intros E; inversion E; auto.
  - intros E; right; apply IH, E.
Qed.

(** In the Reporter Table every own value is a non-empty string, so the
    truthiness of [ALL_REPORTERS[k]] is: an own key, or a property
    inherited from [Object.prototype]. *)
Lemma truthy_at_reporters (k : string) :
  truthy_at ALL_REPORTERS k
  = (is_key ALL_REPORTERS k || existsb (String.eqb k) OBJECT_PROTOTYPE)%bool.
Proof.
  rewrite own_is_key. unfold truthy_at.
  destruct (own ALL_REPORTERS k) as [v|] eqn:E; [|reflexivity].
  simpl. apply own_value_in in E.
  assert (H : forallb (fun v => negb (String.eqb v "")) (map snd ALL_REPORTERS)
              = true) by (vm_compute; reflexivity).
  rewrite forallb_forall in H. apply H, E.
Qed.

Lemma push_if_nil (b : bool) (msg : string) (l : list string) :
  push_if b msg l = [] <-> b = false /\ l = [].
Proof.
  unfold push_if, Js.push. destruct b; split.
  - intros H. destruct l; discriminate.
  - intros [H _]; discriminate.
  - auto.
  - intros [_ H]; exact H.
Qed.

(** What the validator checks, read off the code: no issue is raised
    exactly when none of the four tests fires. *)
Lemma validate_issues_nil (currentYear : Z) (c : Citation) :
  issues (validateCitationFormat currentYear c) = []
  <-> (let vol := Js.parseInt (Js.or_else (volume c) "0") in
       (Js.num_lt vol 1 || Js.num_gt vol 2000)%bool = false)
      /\ (let pg := Js.parseInt (Js.or_else (page c) "0") in
          (Js.num_lt pg 1 || Js.num_gt pg 10000)%bool = false)
      /\ (Js.truthy (year c) = true ->
          let yr := Js.parseInt (Js.show (year c)) in
          (Js.num_lt yr 1789 || Js.num_gt yr currentYear)%bool = false)
      /\ truthy_at ALL_REPORTERS (replace_all spaces_g " " (reporter c)) = true.
Proof.
  unfold validateCitationFormat. cbv zeta. simpl issues.
  rewrite push_if_nil.
  destruct (Js.truthy (year c)); repeat rewrite push_if_nil;
    rewrite negb_false_iff; intuition congruence.
Qed.

Lemma validate_valid_iff (currentYear : Z) (c : Citation) :
  valid (validateCitationFormat currentYear c) = true
  <-> issues (validateCitationFormat currentYear c) = [].
Proof.
  unfold validateCitationFormat. cbv zeta. simpl.
  match goal with |- context [List.length ?l] => destruct l end; simpl;
    split; congruence.
Qed.

(** The equivalence of C5 on the records it holds for: the numeric fields
    read as numbers and the reporter does not name a property inherited
    from [Object.prototype]. *)
Lemma validate_iff_in_range (currentYear : Z) (c : Citation) (v p : Z) :
  Js.parseInt (Js.or_else (volume c) "0") = Some v ->
  Js.parseInt (Js.or_else (page c) "0") = Some p ->
  (Js.truthy (year c) = true -> Js.parseInt (Js.show (year c)) <> None) ->
  existsb (String.eqb (replace_all spaces_g " " (reporter c))) OBJECT_PROTOTYPE
    = false ->
  (issues (validateCitationFormat currentYear c) = []
   /\ valid (validateCitationFormat currentYear c) = true)
  <-> (1 <= v <= 2000)%Z /\ (1 <= p <= 10000)%Z
      /\ (Js.truthy (year c) = true ->
          exists y, Js.parseInt (Js.show (year c)) = Some y
                    /\ (1789 <= y <= currentYear)%Z)
      /\ is_key ALL_REPORTERS (replace_all spaces_g " " (reporter c)) = true.
Proof.
  intros Hv Hp Hy Hr.
  rewrite validate_valid_iff, validate_issues_nil, truthy_at_reporters, Hr.
  cbv zeta. rewrite Hv, Hp, orb_false_r. simpl.
  rewrite !orb_false_iff, !Z.ltb_ge, !Z.gtb_ltb, !Z.ltb_ge.
  split.
  - intros [[H1 [H2 [H3 H4]]] _]. repeat split; try lia; try assumption.
    intros Ht. destruct (H3 Ht) as [Ha Hb]. specialize (Hy Ht).
    destruct (Js.parseInt (Js.show (year c))) as [y|]; [|contradiction].
    exists y. simpl in Ha, Hb.
    rewrite Z.ltb_ge in Ha. rewrite Z.gtb_ltb, Z.ltb_ge in Hb.
    split; [reflexivity | lia].
  - intros [H1 [H2 [H3 H4]]].
    assert (G : (1 <= v <= 2000)%Z /\ (1 <= p <= 10000)%Z
                /\ (Js.truthy (year c) = true ->
                    Js.num_lt (Js.parseInt (Js.show (year c))) 1789 = false
                    /\ Js.num_gt (Js.parseInt (Js.show (year c))) currentYear
                       = false)
                /\ is_key ALL_REPORTERS (replace_all spaces_g " " (reporter c))
                   = true).
    { repeat split; try lia; try assumption;
        destruct (H3 H) as [y [Ey Hy']]; rewrite Ey; simpl;
        [rewrite Z.ltb_ge | rewrite Z.gtb_ltb, Z.ltb_ge]; lia. }
    split; exact G.
Qed.

(** C5. The equivalence fails on a record the validator can be given:
    with volume 410, page 113, no year and reporter [constructor], no
    issue is raised and [valid] is true, although [constructor] is not a
    key of the Reporter Table. *)
Theorem C5_inherited_reporter_accepted (currentYear : Z) :
  validateCitationFormat currentYear inherited_reporter = mkValidation true []
  /\ is_key ALL_REPORTERS
       (replace_all spaces_g " " (reporter inherited_reporter)) = false.
Proof. vm_compute. split; reflexivity. Qed.

(** ** Extraction scenarios *)

(** C7. On the text of the scenario the extractor returns one citation
    with the case name, volume, reporter and page of the claim, but with
    no year: the parenthetical pattern asks for at least one character
    before the four digits, so a year alone in parentheses is not
    captured. *)
Theorem C7_roe_year_not_captured :
  extractCitations roe_text = [roe]
  /\ caseName roe = Some "Roe v. Wade" /\ volume roe = Some "410"
  /\ reporter roe = "U.S." /\ page roe = Some "113" /\ year roe = None.
Proof. vm_compute. repeat split; reflexivity. Qed.

(** With a court before the year, the year is captured. *)
Lemma roe_with_court_year :
  map year (extractCitations "Roe v. Wade, 410 U.S. 113 (U.S. 1973)")
  = [Some "1973"].
Proof. vm_compute. reflexivity. Qed.

(** The claim C8 as stated fails: the page pattern takes at most five
    digits, so the citation found holds [99999], not [999999]. *)
Lemma C8_counterexample :
  exists c, extractCitations long_page_text = [c] /\ page c <> Some "999999".
Proof. exists long_page. split; [vm_compute; reflexivity | discriminate]. Qed.

(** C8, amended. On the text of the scenario the extractor returns one
    citation whose page is the first five digits, [99999]; the validator
    reports exactly the page issue; and [verifyCitation] returns
    [format_error] without any request. *)
Theorem C8_long_page_scenario
    (fetch : list Request -> Request -> FetchOutcome) (currentYear : Z)
    (log : list Request) :
  extractCitations long_page_text = [long_page]
  /\ page long_page = Some "99999"
  /\ issues (validateCitationFormat currentYear long_page)
     = ["Unusual page number: 99999"]
  /\ status (fst (verifyCitation fetch currentYear long_page log)) = format_error
  /\ snd (verifyCitation fetch currentYear long_page log) = log.
Proof.
  assert (Hi : validateCitationFormat currentYear long_page
               = mkValidation false ["Unusual page number: 99999"])
    by (vm_compute; reflexivity).
  split; [vm_compute; reflexivity|].
  split; [reflexivity|].
  split; [rewrite Hi; reflexivity|].
  unfold verifyCitation. rewrite Hi. simpl. auto.
Qed.

(** ** The matcher only moves forward *)

Section MatcherProgress.

Lemma progresses_weaken (m : MatchState -> Cont -> option MatchState)
    (k k' : nat) :
  k' <= k -> progresses m k -> progresses m k'.
Proof.
  intros Hk Hm x c z H. destruct (Hm x c z H) as (y & Hc & Hle & Ht).
  exists y. split; [exact Hc|]. split; lia.
Qed.

Lemma repeatMatcher_progresses (m : MatchState -> Cont -> option MatchState)
    (k : nat) (parens : list nat) (greedy : bool) :
  progresses m k ->
  forall fuel mn mx,
    (k <> 0 -> forall hi, mx = Some hi -> mn <= hi) ->
    progresses (repeatMatcher fuel m parens mn mx greedy) (mn * k).
Proof.
  intros Hm fuel.
  assert (Hzero : forall mn mx (x : MatchState) (c : Cont) (z : MatchState),
             (k <> 0 -> forall hi, mx = Some hi -> mn <= hi) ->
             max_is_zero mx = true -> c x = Some z ->
             exists y, c y = Some z
                       /\ Regex.endIndex x + mn * k <= Regex.endIndex y
                       /\ Regex.endIndex y + List.length (after y)
                          = Regex.endIndex x + List.length (after x)).
  { intros mn mx x c z Hmx Ez Hc. exists x. split; [exact Hc|]. split; [|lia].
    destruct mx as [[|hi]|]; try discriminate.
    destruct k as [|k']; [lia|].
    assert (mn = 0) by (specialize (Hmx (Nat.neq_succ_0 k') 0 eq_refl); lia).
    subst mn. lia. }
  induction fuel as [|fuel IH]; intros mn mx Hmx x c z; simpl.
  - destruct (max_is_zero mx) eqn:Ez; [|discriminate].
    apply (Hzero mn mx x c z Hmx Ez).
  - destruct (max_is_zero mx) eqn:Ez; [apply (Hzero mn mx x c z Hmx Ez)|].
    assert (Hpred : k <> 0 -> forall hi, option_map Nat.pred mx = Some hi ->
                               Nat.pred mn <= hi).
    { intros Hk hi E. destruct mx as [m0|]; simpl in E; [|discriminate].
      inversion E; subst. specialize (Hmx Hk m0 eq_refl). lia. }
    set (xr := mkState (before x) (after x) (Regex.endIndex x)
                 (clear_captures parens (captures x))).
    set (d := fun y : MatchState =>
                if (Nat.eqb mn 0
                    && Nat.eqb (Regex.endIndex y) (Regex.endIndex x))%bool
                then None
                else repeatMatcher fuel m parens (Nat.pred mn)
                       (option_map Nat.pred mx) greedy y c).
    assert (Hd : m xr d = Some z ->
                 exists y, c y = Some z
                           /\ Regex.endIndex x + mn * k <= Regex.endIndex y
                           /\ Regex.endIndex y + List.length (after y)
                              = Regex.endIndex x + List.length (after x)).
    { intros H. apply Hm in H. destruct H as (y1 & Hd1 & Hle1 & Htot1).
      simpl in Hle1, Htot1. unfold d in Hd1.
      destruct (Nat.eqb mn 0
                && Nat.eqb (Regex.endIndex y1) (Regex.endIndex x))%bool;
        [discriminate|].
      apply (IH _ _ Hpred) in Hd1. destruct Hd1 as (y & Hc & Hle & Htot).
      exists y. split; [exact Hc|]. split; [|lia].
      destruct mn as [|mn']; simpl in *; lia. }
    destruct (Nat.eqb mn 0) eqn:E0; simpl.
    + apply Nat.eqb_eq in E0. subst mn.
      destruct greedy.
      * destruct (m xr d) as [z'|] eqn:Em.
        -- intros E; inversion E; subst. apply Hd. reflexivity.
        -- intros Hc. exists x. simpl. repeat split; [exact Hc | lia].
      * destruct (c x) as [z'|] eqn:Ec.
        -- intros E; inversion E; subst. exists x. simpl.
           repeat split; [exact Ec | lia].
        -- exact Hd.
    + exact Hd.
Qed.

Lemma matcher_progresses (r : regex) : progresses (matcher r) (min_len r).
Proof.
  induction r as [ | p | r1 IH1 r2 IH2 | r1 IH1 r2 IH2 | r IH mn mx greedy
                 | i r IH | p | | ]; intros x c z; simpl.
  - intros H. exists x. repeat split; [exact H | lia].
  - destruct (after x) as [|a rest] eqn:Ea; [discriminate|].
    destruct (p a); [|discriminate].
    intros H. eexists. split; [exact H|]. simpl. split; lia.
  - intros H. apply IH1 in H. destruct H as (y1 & H & Hle1 & Ht1).
    apply IH2 in H. destruct H as (y & H & Hle & Ht).
    exists y. split; [exact H|]. split; lia.
  - destruct (matcher r1 x c) as [z'|] eqn:E1.
    + intros E; inversion E; subst. apply IH1 in E1.
      destruct E1 as (y & H & Hle & Ht). exists y. split; [exact H|]. split; lia.
    + intros H. apply IH2 in H.
      destruct H as (y & H & Hle & Ht). exists y. split; [exact H|]. split; lia.
  - intros H.
    assert (Hb : match mx with
                 | Some m => if m <? mn then 0 else mn * min_len r
                 | None => mn * min_len r
                 end
                 = mn * (match mx with
                         | Some m => if m <? mn then 0 else min_len r
                         | None => min_len r
                         end)).
    { destruct mx as [hi|]; [|reflexivity].
      destruct (hi <? mn); lia. }
    rewrite Hb.
    refine (repeatMatcher_progresses (matcher r) _ (parens_of r) greedy _ _ mn mx
              _ x c z H).
    + apply progresses_weaken with (k := min_len r); [|exact IH].
      destruct mx as [hi|]; [|lia]. destruct (hi <? mn); lia.
    + intros Hk hi E. subst mx.
      destruct (hi <? mn) eqn:E; [exfalso; apply Hk; reflexivity|].
      apply Nat.ltb_ge in E. exact E.
  - intros H. apply IH in H. destruct H as (y & H & Hle & Ht).
    eexists. split; [exact H|]. simpl. split; lia.
  - destruct (before x) as [|a bs]; [|destruct (p a); [discriminate|]];
      intros H; exists x; (split; [exact H|]); split; lia.
  - destruct (before x); [|discriminate].
    intros H; exists x; (split; [exact H|]); split; lia.
  - destruct (after x) eqn:Ea; [|discriminate].
    intros H; exists x; (split; [exact H|]); rewrite ?Ea; split; lia.
Qed.

Lemma reachable_refl (x : MatchState) : reachable x x.
Proof. split; lia. Qed.

Lemma reachable_trans (x y z : MatchState) :
  reachable x y -> reachable y z -> reachable x z.
Proof. intros [H1 H2] [H3 H4]. split; lia. Qed.

Lemma repeatMatcher_respects (m : MatchState -> Cont -> option MatchState)
    (parens : list nat) (greedy : bool) :
  respects m ->
  forall fuel mn mx, respects (repeatMatcher fuel m parens mn mx greedy).
Proof.
  intros Hm fuel.
  induction fuel as [|fuel IH]; intros mn mx x c c' Hc; simpl.
  - rewrite (Hc x (reachable_refl x)). reflexivity.
  - rewrite (Hc x (reachable_refl x)).
    destruct (max_is_zero mx); [reflexivity|].
    set (xr := mkState (before x) (after x) (Regex.endIndex x)
                 (clear_captures parens (captures x))).
    set (d := fun y : MatchState =>
                if (Nat.eqb mn 0
                    && Nat.eqb (Regex.endIndex y) (Regex.endIndex x))%bool
                then None
                else repeatMatcher fuel m parens (Nat.pred mn)
                       (option_map Nat.pred mx) greedy y c).
    set (d' := fun y : MatchState =>
                 if (Nat.eqb mn 0
                     && Nat.eqb (Regex.endIndex y) (Regex.endIndex x))%bool
                 then None
                 else repeatMatcher fuel m parens (Nat.pred mn)
                        (option_map Nat.pred mx) greedy y c').
    assert (Hd : m xr d = m xr d').
    { apply Hm. intros y Hy. unfold d, d'.
      destruct (Nat.eqb mn 0
                && Nat.eqb (Regex.endIndex y) (Regex.endIndex x))%bool;
        [reflexivity|].
      apply IH. intros y' Hy'. apply Hc.
      apply (reachable_trans x y y'); [exact Hy | exact Hy']. }
    rewrite Hd. reflexivity.
Qed.

Lemma matcher_respects (r : regex) : respects (matcher r).
Proof.
  induction r as [ | p | r1 IH1 r2 IH2 | r1 IH1 r2 IH2 | r IH mn mx greedy
                 | i r IH | p | | ]; intros x c c' Hc; simpl;
    try (rewrite (Hc x (reachable_refl x)); reflexivity).
  - destruct (after x) as [|a rest] eqn:Ea; [reflexivity|].
    destruct (p a); [|reflexivity].
    apply Hc. split; simpl; rewrite ?Ea; simpl; lia.
  - apply IH1. intros y Hy. apply IH2. intros y' Hy'.
    apply Hc, (reachable_trans x y y'); assumption.
  - rewrite (IH1 x c c' Hc), (IH2 x c c' Hc). reflexivity.
  - apply repeatMatcher_respects; assumption.
  - apply IH. intros y Hy. apply Hc. exact Hy.
Qed.

(** The rounds given to RepeatMatcher are never exhausted: from
    [min + |rest of input| + 1] on, more rounds give the same result. *)
Lemma repeatMatcher_enough (m : MatchState -> Cont -> option MatchState)
    (parens : list nat) (greedy : bool) :
  respects m ->
  forall fuel fuel' mn mx x c,
    mn + List.length (after x) < fuel -> fuel <= fuel' ->
    repeatMatcher fuel' m parens mn mx greedy x c
    = repeatMatcher fuel m parens mn mx greedy x c.
Proof.
  intros Hm fuel.
  induction fuel as [|fuel IH]; intros fuel' mn mx x c Hlen Hle; [lia|].
  destruct fuel' as [|fuel']; [lia|]. simpl.
  destruct (max_is_zero mx); [reflexivity|].
  set (xr := mkState (before x) (after x) (Regex.endIndex x)
               (clear_captures parens (captures x))).
  set (d := fun y : MatchState =>
              if (Nat.eqb mn 0
                  && Nat.eqb (Regex.endIndex y) (Regex.endIndex x))%bool
              then None
              else repeatMatcher fuel m parens (Nat.pred mn)
                     (option_map Nat.pred mx) greedy y c).
  set (d' := fun y : MatchState =>
               if (Nat.eqb mn 0
                   && Nat.eqb (Regex.endIndex y) (Regex.endIndex x))%bool
               then None
               else repeatMatcher fuel' m parens (Nat.pred mn)
                      (option_map Nat.pred mx) greedy y c).
  assert (Hd : m xr d' = m xr d).
  { apply Hm. intros y [Hy1 Hy2]. simpl in Hy1, Hy2. unfold d, d'.
    destruct (Nat.eqb mn 0) eqn:E0; simpl.
    - destruct (Nat.eqb_spec (Regex.endIndex y) (Regex.endIndex x));
        [reflexivity|].
      apply Nat.eqb_eq in E0. subst mn. apply IH; simpl; lia.
    - apply Nat.eqb_neq in E0. apply IH; lia. }
  rewrite Hd. reflexivity.
Qed.

Lemma matcher_repeat_enough (r : regex) (mn : nat) (mx : option nat)
    (greedy : bool) (x : MatchState) (c : Cont) (fuel : nat) :
  mn + List.length (after x) + 1 <= fuel ->
  repeatMatcher fuel (matcher r) (parens_of r) mn mx greedy x c
  = matcher (Repeat r mn mx greedy) x c.
Proof.
  intros H. simpl.
  apply repeatMatcher_enough; [apply matcher_respects | lia | exact H].
Qed.

End MatcherProgress.

(** ** The loop over the matches of a global pattern *)

Lemma str_length (l : list ascii) : String.length (Js.str l) = List.length l.
Proof. induction l as [|a l IH]; simpl; [reflexivity | now rewrite IH]. Qed.

Lemma chars_length (s : string) : List.length (Js.chars s) = String.length s.
Proof. induction s as [|a s IH]; simpl; [reflexivity | now rewrite IH]. Qed.

Lemma drop_spaces_length (l : list ascii) :
  List.length (Js.drop_spaces l) <= List.length l.
Proof.
  induction l as [|a l IH]; simpl; [lia|].
  destruct (Js.is_space a); simpl; lia.
Qed.

Lemma trim_length (s : string) : String.length (Js.trim s) <= String.length s.
Proof.
  unfold Js.trim, Js.trim_chars.
  rewrite str_length, length_rev, <- chars_length.
  etransitivity; [apply drop_spaces_length|].
  rewrite length_rev. apply drop_spaces_length.
Qed.

Lemma match_at_bounds (re : RegExp) (cur : Cursor) (m : MatchResult) :
  match_at re cur = Some m ->
  index m = at_index cur
  /\ at_index cur + min_len (tree re) <= lastIndex m
  /\ lastIndex m + List.length (after (final m))
     = at_index cur + List.length (rest cur)
  /\ String.length (matched m) <= lastIndex m - index m.
Proof.
  unfold match_at.
  destruct (matcher (tree re)
              (mkState (seen cur) (rest cur) (at_index cur)
                 (repeat None (ngroups re))) Some) as [y|] eqn:E;
    [|discriminate].
  intros H; inversion H; subst; clear H. unfold lastIndex; simpl.
  apply matcher_progresses in E. destruct E as (y' & Hy & Hle & Ht).
  inversion Hy; subst y'. simpl in Hle, Ht.
  repeat split; try lia.
  rewrite str_length, length_firstn. lia.
Qed.

Lemma exec_scan_bounds (re : RegExp) (rs sn : list ascii) (i : nat)
    (m : MatchResult) :
  exec_scan re sn rs i = Some m ->
  i <= index m
  /\ index m + min_len (tree re) <= lastIndex m
  /\ lastIndex m + List.length (after (final m)) = i + List.length rs
  /\ String.length (matched m) <= lastIndex m - index m.
Proof.
  revert sn i.
  induction rs as [|a rs IH]; intros sn i; simpl.
  - destruct (match_at re (mkCursor sn [] i)) as [m'|] eqn:E; [|discriminate].
    intros H; inversion H; subst. apply match_at_bounds in E. simpl in E. lia.
  - destruct (match_at re (mkCursor sn (a :: rs) i)) as [m'|] eqn:E.
    + intros H; inversion H; subst. apply match_at_bounds in E. simpl in E. lia.
    + intros H. apply IH in H. lia.
Qed.

Lemma exec_all_chain (re : RegExp) (fuel : nat) (cur : Cursor) :
  chain (min_len (tree re)) (at_index cur) (exec_all fuel re cur).
Proof.
  revert cur. induction fuel as [|fuel IH]; intros cur; simpl; [exact I|].
  destruct (exec re cur) as [m|] eqn:E; simpl; [|exact I].
  unfold exec in E. apply exec_scan_bounds in E.
  repeat split; try lia. apply (IH (cursor_of (final m))).
Qed.

(** The loop is a fold over the successive matches. *)
Lemma while_exec_fold (S : Type) (re : RegExp) (body : S -> MatchResult -> S)
    (fuel : nat) (st : S) (cur : Cursor) :
  while_exec fuel re body st cur = fold_left body (exec_all fuel re cur) st.
Proof.
  revert st cur. induction fuel as [|fuel IH]; intros st cur; simpl;
    [reflexivity|].
  destruct (exec re cur) as [m|]; simpl; [apply IH | reflexivity].
Qed.

(** A pattern that consumes at least one character makes the loop end
    within [|rest| + 1] rounds: more rounds change nothing. *)
Lemma exec_all_enough (re : RegExp) :
  1 <= min_len (tree re) ->
  forall fuel fuel' cur,
    List.length (rest cur) < fuel -> fuel <= fuel' ->
    exec_all fuel' re cur = exec_all fuel re cur.
Proof.
  intros Hk fuel.
  induction fuel as [|fuel IH]; intros fuel' cur Hlen Hle; [lia|].
  destruct fuel' as [|fuel']; [lia|]. simpl.
  destruct (exec re cur) as [m|] eqn:E; [|reflexivity].
  f_equal. apply IH; [|lia].
  unfold exec in E. apply exec_scan_bounds in E. simpl. lia.
Qed.

Lemma citation_patterns_consume :
  1 <= min_len (tree fullCitation) /\ 1 <= min_len (tree shortCitation).
Proof. vm_compute. split; lia. Qed.

(** Both loops of [extractCitations] terminate: with any number of rounds
    from [rounds text] on, each pass ends in the same state. *)
Lemma extract_loops_terminate (text : string) (n : nat) (acc : Acc) :
  rounds text <= n ->
  while_exec n fullCitation fullStep acc (start_of text)
  = while_exec (rounds text) fullCitation fullStep acc (start_of text)
  /\ while_exec n shortCitation (shortStep text) acc (start_of text)
     = while_exec (rounds text) shortCitation (shortStep text) acc
         (start_of text).
Proof.
  intros Hn. rewrite !while_exec_fold.
  destruct citation_patterns_consume as [Hf Hs].
  assert (Hlen : List.length (rest (start_of text)) < rounds text).
  { unfold rounds. simpl. rewrite chars_length. lia. }
  rewrite (exec_all_enough fullCitation Hf (rounds text) n _ Hlen Hn).
  rewrite (exec_all_enough shortCitation Hs (rounds text) n _ Hlen Hn).
  split; reflexivity.
Qed.

(** ** The sort is a permutation *)

Lemma insert_sorted_perm (A : Type) (lt : A -> A -> bool) (x : A) (l : list A) :
  Permutation (Js.insert_sorted lt x l) (x :: l).
Proof.
  induction l as [|y l IH]; simpl; [reflexivity|].
  destruct (lt x y); [reflexivity|].
  rewrite IH. apply perm_swap.
Qed.

Lemma sort_stable_perm (A : Type) (lt : A -> A -> bool) (l : list A) :
  Permutation (Js.sort_stable lt l) l.
Proof.
  unfold Js.sort_stable.
  assert (H : forall acc, Permutation
                (fold_left (fun acc x => Js.insert_sorted lt x acc) l acc)
                (acc ++ l)).
  { induction l as [|x l IH]; intros acc; simpl.
    - rewrite app_nil_r. reflexivity.
    - rewrite IH, insert_sorted_perm. apply Permutation_middle. }
  apply (H []).
Qed.

(** ** Pairwise relations on a list that grows at its end *)

Lemma pairs_snoc (A : Type) (R : A -> A -> Prop) (l : list A) (x : A) :
  ForallOrdPairs R l -> Forall (fun a => R a x) l ->
  ForallOrdPairs R (l ++ [x]).
Proof.
  induction 1 as [|a l Ha Hl IH]; intros Hx; simpl.
  - constructor; constructor.
  - inversion Hx; subst. constructor.
    + apply Forall_app. split; [exact Ha | constructor; [assumption | constructor]].
    + apply IH. assumption.
Qed.

Lemma pairs_impl (A : Type) (R Q : A -> A -> Prop) (l : list A) :
  (forall a b, R a b -> Q a b) -> ForallOrdPairs R l -> ForallOrdPairs Q l.
Proof.
  intros HRQ. induction 1 as [|a l Ha Hl IH]; constructor.
  - eapply Forall_impl; [|exact Ha]. intros b. apply HRQ.
  - exact IH.
Qed.

(** ** The two passes of the extractor *)

Lemma has_In (s : list string) (k : string) : has s k = true <-> In k s.
Proof.
  unfold has. rewrite existsb_exists. split.
  - intros [x [Hx E]]. apply String.eqb_eq in E. subst. exact Hx.
  - intros H. exists k. split; [exact H | apply String.eqb_refl].
Qed.

Lemma has_not_In (s : list string) (k : string) : has s k = false <-> ~ In k s.
Proof.
  rewrite <- has_In. destruct (has s k); split; congruence.
Qed.

Lemma isOverlapping_false (cs : list Citation) (i : nat) :
  isOverlapping cs i = false
  <-> Forall (fun c => ~ (startIndex c <= i /\ i < endIndex c)) cs.
Proof.
  unfold isOverlapping. induction cs as [|c cs IH]; simpl.
  - split; [constructor | reflexivity].
  - rewrite orb_false_iff, IH, andb_false_iff, Nat.leb_gt, Nat.ltb_ge.
    split.
    + intros [H1 H2]. constructor; [lia | exact H2].
    + intros H. inversion H; subst. split; [lia | assumption].
Qed.

Lemma fullRecord_fields (m : MatchResult) :
  startIndex (fullRecord m) = index m
  /\ endIndex (fullRecord m) = index m + String.length (rawOf m)
  /\ key (fullRecord m) = keyOf m.
Proof. repeat split. Qed.

Lemma shortRecord_fields (text : string) (m : MatchResult) :
  startIndex (shortRecord text m) = index m
  /\ endIndex (shortRecord text m) = index m + String.length (rawOf m)
  /\ key (shortRecord text m) = keyOf m.
Proof. repeat split. Qed.

Lemma rawOf_length (m : MatchResult) :
  String.length (rawOf m) <= String.length (matched m).
Proof. apply trim_length. Qed.

(** What one round of either loop does. *)
Lemma fullStep_cases (acc : Acc) (m : MatchResult) :
  (has (seen_keys acc) (keyOf m) = true /\ fullStep acc m = acc)
  \/ (has (seen_keys acc) (keyOf m) = false
      /\ fullStep acc m
         = mkAcc (citations acc ++ [fullRecord m]) (keyOf m :: seen_keys acc)).
Proof.
  unfold fullStep. cbv zeta.
  destruct (has (seen_keys acc) (keyOf m)); [left | right]; auto.
Qed.

Lemma shortStep_cases (text : string) (acc : Acc) (m : MatchResult) :
  ((has (seen_keys acc) (keyOf m) = true
    \/ isOverlapping (citations acc) (index m) = true)
   /\ shortStep text acc m = acc)
  \/ (has (seen_keys acc) (keyOf m) = false
      /\ isOverlapping (citations acc) (index m) = false
      /\ shortStep text acc m
         = mkAcc (citations acc ++ [shortRecord text m])
             (keyOf m :: seen_keys acc)).
Proof.
  unfold shortStep. cbv zeta.
  destruct (has (seen_keys acc) (keyOf m)); [left; auto|].
  destruct (isOverlapping (citations acc) (index m)); [left | right]; auto.
Qed.

(** *** Distinct keys *)

Lemma keys_ok_push (acc : Acc) (c : Citation) :
  keys_ok acc -> ~ In (key c) (seen_keys acc) ->
  keys_ok (mkAcc (citations acc ++ [c]) (key c :: seen_keys acc)).
Proof.
  intros [Hnd Hin] Hk. split; simpl.
  - rewrite map_app. simpl.
    apply (Permutation_NoDup (l := key c :: map key (citations acc))).
    + apply Permutation_cons_append.
    + constructor; [|exact Hnd].
      intros H. apply in_map_iff in H. destruct H as [d [E Hd]].
      apply Hk. rewrite <- E. apply Hin, Hd.
  - intros d Hd. apply in_app_iff in Hd. destruct Hd as [Hd|[E|[]]].
    + right. apply Hin, Hd.
    + left. subst. reflexivity.
Qed.

Lemma fullStep_keys_ok (acc : Acc) (m : MatchResult) :
  keys_ok acc -> keys_ok (fullStep acc m).
Proof.
  intros H. destruct (fullStep_cases acc m) as [[_ E]|[Hs E]]; rewrite E.
  - exact H.
  - apply (keys_ok_push acc (fullRecord m) H). apply has_not_In, Hs.
Qed.

Lemma shortStep_keys_ok (text : string) (acc : Acc) (m : MatchResult) :
  keys_ok acc -> keys_ok (shortStep text acc m).
Proof.
  intros H. destruct (shortStep_cases text acc m) as [[_ E]|[Hs [_ E]]];
    rewrite E.
  - exact H.
  - apply (keys_ok_push acc (shortRecord text m) H). apply has_not_In, Hs.
Qed.

Lemma fold_keys_ok (step : Acc -> MatchResult -> Acc) :
  (forall acc m, keys_ok acc -> keys_ok (step acc m)) ->
  forall ms acc, keys_ok acc -> keys_ok (fold_left step ms acc).
Proof.
  intros Hstep ms. induction ms as [|m ms IH]; intros acc H; simpl.
  - exact H.
  - apply IH, Hstep, H.
Qed.

Lemma extract_keys_ok (text : string) :
  keys_ok (shortPass text (fullPass text)).
Proof.
  unfold shortPass, fullPass. rewrite !while_exec_fold.
  apply fold_keys_ok; [apply shortStep_keys_ok|].
  apply fold_keys_ok; [apply fullStep_keys_ok|].
  split; simpl; [constructor | intros c []].
Qed.

Lemma extract_perm (text : string) :
  Permutation (extractCitations text)
    (citations (shortPass text (fullPass text))).
Proof. apply sort_stable_perm. Qed.

Lemma NoDup_map_injective_on (A B : Type) (f : A -> B) (l : list A) :
  NoDup (map f l) ->
  forall a b, In a l -> In b l -> f a = f b -> a = b.
Proof.
  induction l as [|x l IH]; intros Hnd a b Ha Hb E; [destruct Ha|].
  simpl in Hnd. inversion Hnd as [|? ? Hx Hl]; subst.
  destruct Ha as [Ha|Ha], Hb as [Hb|Hb]; subst.
  - reflexivity.
  - exfalso. apply Hx. rewrite E. apply in_map, Hb.
  - exfalso. apply Hx. rewrite <- E. apply in_map, Ha.
  - apply IH; assumption.
Qed.

(** *** Positions *)

Lemma chain_weaken (k lo lo' : nat) (ms : list MatchResult) :
  lo' <= lo -> chain k lo ms -> chain k lo' ms.
Proof.
  destruct ms as [|m ms]; simpl; [auto|].
  intros Hle (H1 & H2 & H3 & H4). repeat split; try assumption; lia.
Qed.

(** Every match of a chain lies at or after its start, and a chain cut in
    two leaves the second part after every match of the first. *)
Lemma chain_In (k lo : nat) (ms : list MatchResult) (m : MatchResult) :
  chain k lo ms -> In m ms ->
  lo <= index m /\ index m + k <= lastIndex m
  /\ String.length (matched m) <= lastIndex m - index m.
Proof.
  revert lo. induction ms as [|m' ms IH]; intros lo Hc Hin; [destruct Hin|].
  simpl in Hc. destruct Hc as (H1 & H2 & H3 & H4).
  destruct Hin as [E|Hin].
  - subst. auto.
  - destruct (IH _ H4 Hin) as (G1 & G2 & G3). repeat split; try assumption; lia.
Qed.

Lemma chain_app (k lo : nat) (ms1 ms2 : list MatchResult) :
  chain k lo (ms1 ++ ms2) ->
  exists lo', lo <= lo' /\ chain k lo' ms2
              /\ forall m, In m ms1 -> lastIndex m <= lo'.
Proof.
  revert lo. induction ms1 as [|m ms1 IH]; intros lo Hc; simpl in *.
  - exists lo. split; [lia|]. split; [exact Hc | intros m []].
  - destruct Hc as (H1 & H2 & H3 & H4).
    destruct (IH _ H4) as (lo' & Hle & Hc' & Hall).
    exists lo'. split; [lia|]. split; [exact Hc'|].
    intros m' [E|Hin]; [subst; exact Hle | apply Hall, Hin].
Qed.

(** A record built from a match stays inside the span of the match. *)
Lemma record_inside (k lo : nat) (m : MatchResult) (c : Citation) :
  lo <= index m -> index m + k <= lastIndex m ->
  String.length (matched m) <= lastIndex m - index m ->
  startIndex c = index m ->
  endIndex c = index m + String.length (rawOf m) ->
  lo <= startIndex c /\ startIndex c + k <= lastIndex m
  /\ endIndex c <= lastIndex m.
Proof.
  intros H1 H2 H3 Hs He. pose proof (rawOf_length m). lia.
Qed.

Lemma in_order_weaken (lo lo' : nat) (l : list Citation) :
  lo <= lo' -> in_order lo l -> in_order lo' l.
Proof.
  intros Hle [H1 H2]. split; [exact H1|].
  eapply Forall_impl; [|exact H2]. simpl. intros; lia.
Qed.

Lemma in_order_push (lo lo' : nat) (l : list Citation) (c : Citation) :
  in_order lo l -> lo <= startIndex c -> endIndex c <= lo' -> lo <= lo' ->
  in_order lo' (l ++ [c]).
Proof.
  intros [H1 H2] Hs He Hle. split.
  - apply pairs_snoc; [exact H1|].
    eapply Forall_impl; [|exact H2]. unfold ends_before. simpl. intros; lia.
  - apply Forall_app. split.
    + eapply Forall_impl; [|exact H2]. simpl. intros; lia.
    + constructor; [exact He | constructor].
Qed.

(** The first pass: its citations are in order. *)
Lemma full_fold_in_order (k : nat) (ms : list MatchResult) :
  forall lo acc,
    chain k lo ms -> in_order lo (citations acc) ->
    exists lo', in_order lo' (citations (fold_left fullStep ms acc)).
Proof.
  induction ms as [|m ms IH]; intros lo acc Hc Hacc; simpl.
  - exists lo. exact Hacc.
  - simpl in Hc. destruct Hc as (H1 & H2 & H3 & H4).
    assert (Hlo : lo <= lastIndex m) by lia.
    apply (IH (lastIndex m)); [exact H4|].
    destruct (fullStep_cases acc m) as [[_ E]|[_ E]]; rewrite E; simpl.
    + apply (in_order_weaken lo); assumption.
    + destruct (record_inside k lo m (fullRecord m) H1 H2 H3 eq_refl eq_refl)
        as (G1 & G2 & G3).
      apply (in_order_push lo); assumption.
Qed.

Lemma short_fold_ok (text : string) (full : list Citation) (k : nat)
    (ms : list MatchResult) :
  forall lo acc,
    chain k lo ms -> short_ok full lo acc ->
    exists lo', short_ok full lo' (fold_left (shortStep text) ms acc).
Proof.
  induction ms as [|m ms IH]; intros lo acc Hc Hacc; simpl.
  - exists lo. exact Hacc.
  - simpl in Hc. destruct Hc as (H1 & H2 & H3 & H4).
    assert (Hlo : lo <= lastIndex m) by lia.
    apply (IH (lastIndex m)); [exact H4|].
    destruct Hacc as (short & Ecs & Hord & Hout).
    destruct (shortStep_cases text acc m) as [[_ E]|[_ [Hov E]]]; rewrite E.
    + exists short. split; [exact Ecs|]. split; [|exact Hout].
      apply (in_order_weaken lo); assumption.
    + exists (short ++ [shortRecord text m])%list. simpl.
      split; [rewrite Ecs, app_assoc; reflexivity|].
      destruct (record_inside k lo m (shortRecord text m) H1 H2 H3
                  eq_refl eq_refl) as (G1 & G2 & G3).
      split; [apply (in_order_push lo); assumption|].
      apply Forall_app. split; [exact Hout|].
      constructor; [|constructor].
      rewrite Ecs in Hov. apply isOverlapping_false in Hov.
      apply Forall_app in Hov. destruct Hov as [Hov _].
      exact Hov.
Qed.

(** The claim C1 as stated fails: a short citation whose parenthetical
    quotes a full citation is retained together with it, and the two
    intervals, from 0 to 58 and from 22 to 51, overlap. *)
Lemma C1_counterexample :
  exists a b,
    extractCitations quoting_text = [a; b]
    /\ startIndex a = 0 /\ endIndex a = 58
    /\ startIndex b = 22 /\ endIndex b = 51
    /\ overlap a b.
Proof.
  eexists. eexists. split; [vm_compute; reflexivity|].
  unfold overlap. simpl. repeat split; lia.
Qed.

(** What the second pass adds, given the split of its citations. *)
Lemma shortAdded_of_split (text : string) (short : list Citation) :
  citations (shortPass text (fullPass text))
  = (citations (fullPass text) ++ short)%list ->
  shortAdded text = short.
Proof.
  intros E. unfold shortAdded. rewrite E, skipn_app, skipn_all, Nat.sub_diag.
  reflexivity.
Qed.

(** C1, amended. For every text, the result is a rearrangement of the
    citations of the full pass followed by those the short pass adds;
    the citations of the full pass are pairwise disjoint, those added by
    the short pass are pairwise disjoint, and no citation added by the
    short pass starts inside a citation of the full pass. *)
Theorem C1_passes_disjoint (text : string) :
  Permutation (extractCitations text)
    (citations (fullPass text) ++ shortAdded text)
  /\ ForallOrdPairs disjoint (citations (fullPass text))
  /\ ForallOrdPairs disjoint (shortAdded text)
  /\ Forall (fun s => Forall (fun f => ~ starts_inside s f)
                         (citations (fullPass text))) (shortAdded text).
Proof.
  assert (Hfull : exists lo, in_order lo (citations (fullPass text))).
  { unfold fullPass. rewrite while_exec_fold.
    apply (full_fold_in_order (min_len (tree fullCitation)) _ 0).
    - apply (exec_all_chain fullCitation (rounds text) (start_of text)).
    - split; constructor. }
  assert (Hshort : exists lo,
             short_ok (citations (fullPass text)) lo
               (shortPass text (fullPass text))).
  { unfold shortPass at 1. rewrite while_exec_fold.
    apply (short_fold_ok text _ (min_len (tree shortCitation)) _ 0).
    - apply (exec_all_chain shortCitation (rounds text) (start_of text)).
    - exists []. split; [rewrite app_nil_r; reflexivity|].
      split; [split; constructor | constructor]. }
  destruct Hfull as (lo1 & Hf & _).
  destruct Hshort as (lo2 & short & Ecs & [Hs _] & Hout).
  rewrite (shortAdded_of_split text short Ecs).
  split; [rewrite <- Ecs; apply extract_perm|].
  split; [|split; [|exact Hout]];
    (eapply pairs_impl; [|eassumption]); unfold ends_before, disjoint; auto.
Qed.

(** *** Which occurrence is kept *)

Section Occurrences.

Variable text : string.

Lemma shortStep_seen_mono (acc : Acc) (m : MatchResult) (k : string) :
  In k (seen_keys acc) -> In k (seen_keys (shortStep text acc m)).
Proof.
  intros H. destruct (shortStep_cases text acc m) as [[_ E]|[_ [_ E]]];
    rewrite E; simpl; auto.
Qed.

Lemma short_fold_seen_mono (ms : list MatchResult) (acc : Acc) (k : string) :
  In k (seen_keys acc) -> In k (seen_keys (fold_left (shortStep text) ms acc)).
Proof.
  revert acc. induction ms as [|m ms IH]; intros acc H; simpl; [exact H|].
  apply IH, shortStep_seen_mono, H.
Qed.

(** A key in [seen] after some rounds was there before or is the key of
    one of the matches of these rounds. *)
Lemma short_fold_seen_origin (ms : list MatchResult) (acc : Acc) (k : string) :
  In k (seen_keys (fold_left (shortStep text) ms acc)) ->
  In k (seen_keys acc) \/ exists m, In m ms /\ keyOf m = k.
Proof.
  revert acc. induction ms as [|m ms IH]; intros acc H; simpl in *; [auto|].
  destruct (IH _ H) as [Hs|[m' [Hin E]]].
  - destruct (shortStep_cases text acc m) as [[_ E]|[_ [_ E]]];
      rewrite E in Hs; simpl in Hs; [auto|].
    destruct Hs as [Hs|Hs]; [right; exists m; auto | auto].
  - right. exists m'. auto.
Qed.

(** The citations after some rounds are those before, followed by
    records of matches of these rounds whose key was not yet seen. *)
Lemma short_fold_added (ms : list MatchResult) (acc : Acc) :
  exists extra,
    citations (fold_left (shortStep text) ms acc)
    = (citations acc ++ extra)%list
    /\ Forall (fun c => exists m, In m ms /\ c = shortRecord text m
                                  /\ ~ In (keyOf m) (seen_keys acc)) extra.
Proof.
  revert acc. induction ms as [|m ms IH]; intros acc; simpl.
  - exists []. split; [rewrite app_nil_r; reflexivity | constructor].
  - destruct (IH (shortStep text acc m)) as (extra & E & Hall).
    assert (Hall' : Forall (fun c => exists m0, (m = m0 \/ In m0 ms)
                                       /\ c = shortRecord text m0
                                       /\ ~ In (keyOf m0) (seen_keys acc)) extra).
    { eapply Forall_impl; [|exact Hall]. simpl.
      intros c (m0 & Hin & Ec & Hk). exists m0. repeat split; auto.
      intros Hs. apply Hk, shortStep_seen_mono, Hs. }
    destruct (shortStep_cases text acc m) as [[_ Es]|[Hs [_ Es]]];
      rewrite Es in E |- *; simpl in E.
    + exists extra. split; assumption.
    + exists (shortRecord text m :: extra). split.
      * rewrite E, <- app_assoc. reflexivity.
      * constructor; [|exact Hall'].
        exists m. repeat split; auto. apply has_not_In, Hs.
Qed.

(** In a chain of matches that consume at least one character, the
    matches before one of them end at or before its start, and those
    after it start after it. *)
Lemma chain_around (k lo : nat) (ms1 ms2 : list MatchResult) (m : MatchResult) :
  1 <= k -> chain k lo (ms1 ++ m :: ms2) ->
  (forall a, In a ms1 ->
     index a < index m
     /\ index a + String.length (rawOf a) <= index m)
  /\ (forall b, In b ms2 -> index m < index b).
Proof.
  intros Hk Hc.
  pose proof (fun a Ha => chain_In k lo _ a Hc
                            (proj2 (in_app_iff ms1 (m :: ms2) a) (or_introl Ha)))
    as Hall.
  destruct (chain_app k lo ms1 (m :: ms2) Hc) as (lo' & _ & Hc' & Hbefore).
  simpl in Hc'. destruct Hc' as (H1 & H2 & H3 & H4).
  split.
  - intros a Ha. destruct (Hall a Ha) as (G1 & G2 & G3).
    specialize (Hbefore a Ha). pose proof (rawOf_length a). lia.
  - intros b Hb. destruct (chain_In k _ ms2 b H4 Hb) as (G1 & _). lia.
Qed.

(** After the rounds before a match [m1] that does not start inside a
    citation of the first pass, [m1] starts inside no citation at all. *)
Lemma not_overlapping_after_prefix (k lo : nat) (acc : Acc)
    (ms1 ms2 : list MatchResult) (m1 : MatchResult) :
  1 <= k -> chain k lo (ms1 ++ m1 :: ms2) ->
  isOverlapping (citations acc) (index m1) = false ->
  isOverlapping (citations (fold_left (shortStep text) ms1 acc)) (index m1)
  = false.
Proof.
  intros Hk Hc Hov.
  destruct (short_fold_added ms1 acc) as (e1 & E & Hall). rewrite E.
  apply isOverlapping_false. apply Forall_app. split.
  - apply isOverlapping_false, Hov.
  - eapply Forall_impl; [|exact Hall]. simpl.
    intros c (m & Hin & Ec & _). subst c. simpl.
    destruct (chain_around k lo ms1 ms2 m1 Hk Hc) as [Hb _].
    destruct (Hb m Hin). lia.
Qed.

(** The later of two matches with one key is dropped, when the earlier
    one does not start inside a citation of the first pass. *)
Lemma later_occurrence_dropped (k lo : nat) (acc : Acc)
    (ms1 ms2 ms3 : list MatchResult) (m1 m2 : MatchResult) :
  1 <= k -> chain k lo (ms1 ++ m1 :: ms2 ++ m2 :: ms3) ->
  keyOf m1 = keyOf m2 ->
  isOverlapping (citations acc) (index m1) = false ->
  exists extra,
    citations (fold_left (shortStep text) (ms1 ++ m1 :: ms2 ++ m2 :: ms3) acc)
    = (citations acc ++ extra)%list
    /\ Forall (fun c => startIndex c <> index m2) extra.
Proof.
  intros Hk Hc Hkey Hov.
  pose proof (not_overlapping_after_prefix k lo acc ms1 _ m1 Hk Hc Hov) as Hov1.
  assert (Hc2 : chain k lo ((ms1 ++ m1 :: ms2) ++ m2 :: ms3)).
  { rewrite <- app_assoc. exact Hc. }
  destruct (chain_around k lo _ ms3 m2 Hk Hc2) as [Hbefore Hafter].
  replace (ms1 ++ m1 :: ms2 ++ m2 :: ms3)%list
    with ((ms1 ++ [m1]) ++ (ms2 ++ m2 :: ms3))%list
    by (rewrite <- app_assoc; reflexivity).
  rewrite fold_left_app.
  set (acc2 := fold_left (shortStep text) (ms1 ++ [m1]) acc).
  assert (Hseen : In (keyOf m1) (seen_keys acc2)).
  { unfold acc2. rewrite fold_left_app. simpl.
    destruct (shortStep_cases text (fold_left (shortStep text) ms1 acc) m1)
      as [[[Hs|Ho] E]|[_ [_ E]]]; rewrite E; simpl.
    - apply has_In, Hs.
    - rewrite Hov1 in Ho. discriminate.
    - auto. }
  destruct (short_fold_added (ms1 ++ [m1]) acc) as (e1 & E1 & Hall1).
  destruct (short_fold_added (ms2 ++ m2 :: ms3) acc2) as (e2 & E2 & Hall2).
  exists (e1 ++ e2)%list. split.
  - rewrite E2. unfold acc2. rewrite E1, app_assoc. reflexivity.
  - apply Forall_app. split.
    + eapply Forall_impl; [|exact Hall1]. simpl.
      intros c (m & Hin & Ec & _). subst c. simpl.
      assert (Hin' : In m (ms1 ++ m1 :: ms2)).
      { apply in_app_iff in Hin. apply in_app_iff.
        destruct Hin as [H|[H|[]]]; [left; exact H | right; left; exact H]. }
      destruct (Hbefore m Hin'). lia.
    + eapply Forall_impl; [|exact Hall2]. simpl.
      intros c (m & Hin & Ec & Hk2). subst c. simpl.
      apply in_app_iff in Hin. destruct Hin as [H|[H|H]].
      * assert (Hin' : In m (ms1 ++ m1 :: ms2))
          by (apply in_app_iff; right; right; exact H).
        destruct (Hbefore m Hin'). lia.
      * subst m. exfalso. apply Hk2. rewrite <- Hkey. exact Hseen.
      * specialize (Hafter m H). lia.
Qed.

(** The first match with a key not seen in the first pass is kept, when
    it does not start inside a citation of the first pass. *)
Lemma first_occurrence_kept (k lo : nat) (acc : Acc)
    (ms1 ms2 : list MatchResult) (m1 : MatchResult) :
  1 <= k -> chain k lo (ms1 ++ m1 :: ms2) ->
  (forall m, In m ms1 -> keyOf m <> keyOf m1) ->
  ~ In (keyOf m1) (seen_keys acc) ->
  isOverlapping (citations acc) (index m1) = false ->
  exists e1 e2,
    citations (fold_left (shortStep text) (ms1 ++ m1 :: ms2) acc)
    = (citations acc ++ e1 ++ shortRecord text m1 :: e2)%list.
Proof.
  intros Hk Hc Hfirst Hnew Hov.
  pose proof (not_overlapping_after_prefix k lo acc ms1 _ m1 Hk Hc Hov) as Hov1.
  rewrite fold_left_app. simpl.
  destruct (short_fold_added ms1 acc) as (e1 & E1 & _).
  set (acc1 := fold_left (shortStep text) ms1 acc) in *.
  assert (Hnew1 : has (seen_keys acc1) (keyOf m1) = false).
  { apply has_not_In. intros H.
    destruct (short_fold_seen_origin ms1 acc (keyOf m1) H) as [H'|[m [Hin E]]].
    - exact (Hnew H').
    - exact (Hfirst m Hin E). }
  destruct (short_fold_added ms2 (shortStep text acc1 m1)) as (e2 & E2 & _).
  destruct (shortStep_cases text acc1 m1) as [[[Hs|Ho] E]|[_ [_ E]]].
  - rewrite Hnew1 in Hs. discriminate.
  - rewrite Hov1 in Ho. discriminate.
  - exists e1, e2. rewrite E2, E. simpl. rewrite E1, <- !app_assoc.
    reflexivity.
Qed.

Lemma chain_prefix (k lo : nat) (ms1 ms2 : list MatchResult) :
  chain k lo (ms1 ++ ms2) -> chain k lo ms1.
Proof.
  revert lo. induction ms1 as [|m ms1 IH]; intros lo Hc; simpl in *; [exact I|].
  destruct Hc as (H1 & H2 & H3 & H4). repeat split; try assumption.
  apply IH, H4.
Qed.

Lemma isOverlapping_app (cs1 cs2 : list Citation) (i : nat) :
  isOverlapping (cs1 ++ cs2) i
  = (isOverlapping cs1 i || isOverlapping cs2 i)%bool.
Proof. unfold isOverlapping. apply existsb_app. Qed.

(** The keys in [seen] after some rounds are those that were there
    before and the keys of the matches of these rounds that do not start
    inside a citation present before: a match that starts inside one is
    skipped before its key is recorded. *)
Lemma short_fold_seen_exact (k lo : nat) (acc : Acc) (ms : list MatchResult)
    (key0 : string) :
  1 <= k -> chain k lo ms ->
  (In key0 (seen_keys (fold_left (shortStep text) ms acc))
   <-> In key0 (seen_keys acc)
       \/ exists m, In m ms /\ keyOf m = key0
                    /\ isOverlapping (citations acc) (index m) = false).
Proof.
  intros Hk. induction ms as [|m ms IH] using rev_ind; intros Hc.
  - simpl. split; [auto | intros [H|(m & [] & _)]; exact H].
  - rewrite fold_left_app. simpl.
    specialize (IH (chain_prefix k lo ms [m] Hc)).
    destruct (short_fold_added ms acc) as (e & Ee & _).
    set (acc1 := fold_left (shortStep text) ms acc) in *.
    split.
    + intros H.
      assert (Hold : In key0 (seen_keys acc1) ->
                     In key0 (seen_keys acc)
                     \/ exists m0, In m0 (ms ++ [m]) /\ keyOf m0 = key0
                          /\ isOverlapping (citations acc) (index m0) = false).
      { intros H1. apply IH in H1.
        destruct H1 as [H1|(m0 & Hin & Ek & Hov)]; [left; exact H1|].
        right. exists m0. rewrite in_app_iff. auto. }
      destruct (shortStep_cases text acc1 m) as [[_ E]|(Hs & Ho & E)];
        rewrite E in H; [exact (Hold H)|].
      simpl in H. destruct H as [H|H]; [|exact (Hold H)].
      right. exists m. split; [apply in_app_iff; right; left; reflexivity|].
      split; [exact H|].
      rewrite Ee, isOverlapping_app in Ho. apply orb_false_iff in Ho. apply Ho.
    + intros [H|(m0 & Hin & Ek & Hov)].
      * apply shortStep_seen_mono, IH. left. exact H.
      * apply in_app_iff in Hin. destruct Hin as [Hin|[E|[]]].
        -- apply shortStep_seen_mono, IH. right. exists m0. auto.
        -- subst m0.
           pose proof (not_overlapping_after_prefix k lo acc ms [] m Hk Hc Hov)
             as Hov1. fold acc1 in Hov1.
           destruct (shortStep_cases text acc1 m) as [[[Hs|Ho] E]|(Hs & Ho & E)];
             rewrite E.
           ++ rewrite <- Ek. apply has_In, Hs.
           ++ rewrite Hov1 in Ho. discriminate.
           ++ simpl. left. exact Ek.
Qed.

(** Which matches the second loop retains: a match yields a citation
    exactly when its key was not seen before the loop, it does not start
    inside a citation present before the loop, and every earlier match
    with its key starts inside such a citation. *)
Lemma short_fold_exact (k lo : nat) (acc : Acc) (ms1 ms2 : list MatchResult)
    (m : MatchResult) :
  1 <= k -> chain k lo (ms1 ++ m :: ms2) ->
  exists extra,
    citations (fold_left (shortStep text) (ms1 ++ m :: ms2) acc)
    = (citations acc ++ extra)%list
    /\ (In (shortRecord text m) extra
        <-> ~ In (keyOf m) (seen_keys acc)
            /\ isOverlapping (citations acc) (index m) = false
            /\ forall m', In m' ms1 -> keyOf m' = keyOf m ->
                  isOverlapping (citations acc) (index m') = true).
Proof.
  intros Hk Hc.
  destruct (chain_around k lo ms1 ms2 m Hk Hc) as [Hbefore Hafter].
  pose proof (short_fold_seen_exact k lo acc ms1 (keyOf m) Hk
                (chain_prefix k lo ms1 (m :: ms2) Hc)) as Hseen.
  pose proof (fun Eo => not_overlapping_after_prefix k lo acc ms1 ms2 m Hk Hc Eo)
    as Hkeep.
  rewrite fold_left_app. simpl.
  destruct (short_fold_added ms1 acc) as (e1 & E1 & Hall1).
  set (acc1 := fold_left (shortStep text) ms1 acc) in *.
  destruct (short_fold_added ms2 (shortStep text acc1 m)) as (e2 & E2 & Hall2).
  assert (Hne1 : ~ In (shortRecord text m) e1).
  { intros Hin. rewrite Forall_forall in Hall1.
    destruct (Hall1 _ Hin) as (m0 & Hin0 & Ec & _).
    apply (f_equal startIndex) in Ec. simpl in Ec.
    destruct (Hbefore m0 Hin0). lia. }
  assert (Hne2 : ~ In (shortRecord text m) e2).
  { intros Hin. rewrite Forall_forall in Hall2.
    destruct (Hall2 _ Hin) as (m0 & Hin0 & Ec & _).
    apply (f_equal startIndex) in Ec. simpl in Ec.
    specialize (Hafter m0 Hin0). lia. }
  assert (Hov : isOverlapping (citations acc1) (index m)
                = isOverlapping (citations acc) (index m)).
  { destruct (isOverlapping (citations acc) (index m)) eqn:Eo.
    - rewrite E1, isOverlapping_app, Eo. reflexivity.
    - apply Hkeep. reflexivity. }
  assert (Hrhs : has (seen_keys acc1) (keyOf m) = false
                 /\ isOverlapping (citations acc1) (index m) = false
                 <-> ~ In (keyOf m) (seen_keys acc)
                     /\ isOverlapping (citations acc) (index m) = false
                     /\ forall m', In m' ms1 -> keyOf m' = keyOf m ->
                           isOverlapping (citations acc) (index m') = true).
  { rewrite Hov, has_not_In, Hseen. split.
    - intros [Hn Ho]. split; [tauto|]. split; [exact Ho|].
      intros m' Hin Ek.
      destruct (isOverlapping (citations acc) (index m')) eqn:E; [reflexivity|].
      exfalso. apply Hn. right. exists m'. auto.
    - intros (Hn & Ho & Hall). split; [|exact Ho].
      intros [H|(m' & Hin & Ek & Hov')]; [exact (Hn H)|].
      rewrite (Hall m' Hin Ek) in Hov'. discriminate. }
  destruct (shortStep_cases text acc1 m) as [[Hskip E]|(Hs & Ho & E)].
  - exists (e1 ++ e2)%list. split.
    { rewrite E2, E, E1, app_assoc. reflexivity. }
    split.
    + intros Hin. apply in_app_iff in Hin. tauto.
    + intros H. apply Hrhs in H. destruct H as [H1 H2].
      destruct Hskip as [Hs|Ho]; congruence.
  - exists (e1 ++ shortRecord text m :: e2)%list. split.
    { rewrite E2, E. simpl. rewrite E1, <- !app_assoc. reflexivity. }
    split.
    + intros _. apply Hrhs. auto.
    + intros _. apply in_app_iff. right. left. reflexivity.
Qed.

End Occurrences.

Lemma shortPass_split (text : string) :
  citations (shortPass text (fullPass text))
  = (citations (fullPass text) ++ shortAdded text)%list.
Proof.
  unfold shortPass at 1. rewrite while_exec_fold.
  destruct (short_fold_added text
              (exec_all (rounds text) shortCitation (start_of text))
              (fullPass text)) as (extra & E & _).
  assert (E' : citations (shortPass text (fullPass text))
               = (citations (fullPass text) ++ extra)%list).
  { unfold shortPass. rewrite while_exec_fold. exact E. }
  rewrite (shortAdded_of_split text extra E'). exact E.
Qed.

(** The last part of the claim C10 as stated fails: the short-form string
    is matched at indices 13 and 31 with one key; the first occurrence
    lies inside the full citation and is skipped before its key is
    recorded, so the occurrence returned as a citation of its own is the
    later one. *)
Lemma C10_counterexample :
  map (fun m => (index m, keyOf m)) (shortMatches inside_text)
  = [(13, "410 u.s. 113"); (31, "410 u.s. 113")]
  /\ map (fun c => (raw c, startIndex c)) (extractCitations inside_text)
     = [("Roe v. Wade, 410 U.S. 113", 0); ("410 U.S. 113", 31)].
Proof. vm_compute. split; reflexivity. Qed.

(** C10, amended. For every text the keys (raw text, white space
    normalised and lower-cased) of the citations returned are pairwise
    distinct, so two returned citations with one key are the same
    citation.  The citations returned are those of the full pass and
    those the short pass adds.  A match of the short pattern yields a
    citation exactly when the full pass has not recorded its key, it does
    not start inside a citation of the full pass, and every earlier match
    of the short pattern with its key starts inside a citation of the
    full pass: a match that starts inside one is skipped before its key
    is recorded, so the occurrence retained is the first that does not
    start inside a full citation.  Hence two matches with one key never
    both yield a citation; when the earlier of them does not start inside
    a citation of the full pass, the short pass adds no citation at the
    later one; and the first match with a key, if the full pass has not
    seen that key and the match does not start inside a citation of the
    full pass, is retained. *)
Theorem C10_keys_distinct (text : string) :
  NoDup (map key (extractCitations text))
  /\ (forall a b, In a (extractCitations text) -> In b (extractCitations text) ->
                  key a = key b -> a = b)
  /\ (forall ms1 m1 ms2 m2 ms3,
        shortMatches text = (ms1 ++ m1 :: ms2 ++ m2 :: ms3)%list ->
        keyOf m1 = keyOf m2 ->
        ~ (In (shortRecord text m1) (shortAdded text)
           /\ In (shortRecord text m2) (shortAdded text)))
  /\ (forall ms1 m1 ms2 m2 ms3,
        shortMatches text = (ms1 ++ m1 :: ms2 ++ m2 :: ms3)%list ->
        keyOf m1 = keyOf m2 ->
        isOverlapping (citations (fullPass text)) (index m1) = false ->
        Forall (fun c => startIndex c <> index m2) (shortAdded text))
  /\ (forall ms1 m1 ms2,
        shortMatches text = (ms1 ++ m1 :: ms2)%list ->
        (forall m, In m ms1 -> keyOf m <> keyOf m1) ->
        ~ In (keyOf m1) (seen_keys (fullPass text)) ->
        isOverlapping (citations (fullPass text)) (index m1) = false ->
        In (shortRecord text m1) (extractCitations text))
  /\ Permutation (extractCitations text)
       (citations (fullPass text) ++ shortAdded text)
  /\ (forall ms1 m ms2,
        shortMatches text = (ms1 ++ m :: ms2)%list ->
        (In (shortRecord text m) (shortAdded text)
         <-> ~ In (keyOf m) (seen_keys (fullPass text))
             /\ isOverlapping (citations (fullPass text)) (index m) = false
             /\ forall m', In m' ms1 -> keyOf m' = keyOf m ->
                   isOverlapping (citations (fullPass text)) (index m') = true)).
Proof.
  assert (Hnd : NoDup (map key (extractCitations text))).
  { apply (Permutation_NoDup
             (l := map key (citations (shortPass text (fullPass text))))).
    - apply Permutation_map, Permutation_sym, extract_perm.
    - apply extract_keys_ok. }
  assert (Hchain : chain (min_len (tree shortCitation)) 0 (shortMatches text)).
  { apply (exec_all_chain shortCitation (rounds text) (start_of text)). }
  destruct citation_patterns_consume as [_ Hk].
  split; [exact Hnd|].
  split; [apply NoDup_map_injective_on, Hnd|].
  split; [|split; [|split; [|split]]].
  - intros ms1 m1 ms2 m2 ms3 Ems Hkey [H1 H2]. rewrite Ems in Hchain.
    assert (Hin : forall c, In c (shortAdded text) ->
                            In c (extractCitations text)).
    { intros c Hc.
      apply (Permutation_in (l := citations (shortPass text (fullPass text)))).
      - apply Permutation_sym, extract_perm.
      - rewrite shortPass_split. apply in_app_iff. right. exact Hc. }
    assert (E : shortRecord text m1 = shortRecord text m2).
    { apply (NoDup_map_injective_on _ _ key _ Hnd); auto. }
    assert (Ei : index m1 = index m2) by (apply (f_equal startIndex) in E; exact E).
    assert (Hc2 : chain (min_len (tree shortCitation)) 0
                    ((ms1 ++ m1 :: ms2) ++ m2 :: ms3)).
    { rewrite <- app_assoc. exact Hchain. }
    destruct (chain_around _ 0 _ ms3 m2 Hk Hc2) as [Hbefore _].
    assert (Hm1 : In m1 (ms1 ++ m1 :: ms2))
      by (apply in_app_iff; right; left; reflexivity).
    destruct (Hbefore m1 Hm1). lia.
  - intros ms1 m1 ms2 m2 ms3 Ems Hkey Hov. rewrite Ems in Hchain.
    destruct (later_occurrence_dropped text _ 0 (fullPass text)
                ms1 ms2 ms3 m1 m2 Hk Hchain Hkey Hov) as (extra & E & Hall).
    rewrite <- Ems in E.
    assert (E' : citations (shortPass text (fullPass text))
                 = (citations (fullPass text) ++ extra)%list).
    { unfold shortPass. rewrite while_exec_fold. exact E. }
    rewrite (shortAdded_of_split text extra E'). exact Hall.
  - intros ms1 m1 ms2 Ems Hfirst Hnew Hov. rewrite Ems in Hchain.
    destruct (first_occurrence_kept text _ 0 (fullPass text)
                ms1 ms2 m1 Hk Hchain Hfirst Hnew Hov) as (e1 & e2 & E).
    rewrite <- Ems in E.
    apply (Permutation_in (l := citations (shortPass text (fullPass text)))).
    + apply Permutation_sym, extract_perm.
    + unfold shortPass. rewrite while_exec_fold.
      unfold shortMatches in E. rewrite E.
      apply in_app_iff. right. apply in_app_iff. right. left. reflexivity.
  - rewrite <- shortPass_split. apply extract_perm.
  - intros ms1 m ms2 Ems. rewrite Ems in Hchain.
    destruct (short_fold_exact text _ 0 (fullPass text) ms1 ms2 m Hk Hchain)
      as (extra & E & Hiff).
    rewrite <- Ems in E.
    assert (E' : citations (shortPass text (fullPass text))
                 = (citations (fullPass text) ++ extra)%list).
    { unfold shortPass. rewrite while_exec_fold. exact E. }
    rewrite (shortAdded_of_split text extra E'). exact Hiff.
Qed.

(** The same citation written twice: the first occurrence is the one
    returned. *)
Lemma twice_text_first_kept :
  map (fun c => (raw c, startIndex c)) (extractCitations twice_text)
  = [("410 U.S. 113", 4)].
Proof. vm_compute. reflexivity. Qed.

(** On [twice_text] the short pattern matches twice with one key; the
    record of the first match is returned and none starts at the second. *)
Lemma twice_text_occurrences :
  map (fun m => (index m, keyOf m)) (shortMatches twice_text)
  = [(4, "410 u.s. 113"); (25, "410 u.s. 113")]
  /\ map startIndex (shortAdded twice_text) = [4].
Proof. vm_compute. split; reflexivity. Qed.

(* ===================================================================== *)
(** * Further properties of the verification engine *)
(* ===================================================================== *)

Lemma citationStringScore_values (c : Citation) (l : list string) :
  citationStringScore c l = 0%Z \/ citationStringScore c l = 30%Z
  \/ citationStringScore c l = 50%Z.
Proof.
  induction l as [|s l IH]; cbn [citationStringScore]; [auto|].
  destruct (exactMatch c s); [auto|]. destruct (partialMatch c s); auto.
Qed.

Lemma caseNameScore_values (c : Citation) (result : CourtListenerCase) :
  caseNameScore c result = 0%Z \/ caseNameScore c result = 15%Z
  \/ caseNameScore c result = 30%Z.
Proof.
  unfold caseNameScore.
  destruct (Js.truthy (caseName c) && negb (String.eqb (case_name result) ""))%bool;
    [|auto].
  cbv zeta.
  match goal with |- context [2 <=? ?n] => destruct (2 <=? n); [auto|];
    destruct (Nat.eqb n 1); auto end.
Qed.

Lemma yearScore_values (c : Citation) (result : CourtListenerCase) :
  yearScore c result = 0%Z \/ yearScore c result = 10%Z
  \/ yearScore c result = 20%Z.
Proof.
  unfold yearScore.
  destruct (Js.truthy (year c) && negb (String.eqb (date_filed result) ""))%bool;
    [|auto].
  cbv zeta.
  destruct (String.eqb (Js.show (year c)) (Js.substring 0 4 (date_filed result)));
    [auto|].
  destruct (within_one _ _); auto.
Qed.

Lemma calculateConfidence_range (c : Citation) (result : CourtListenerCase) :
  (0 <= calculateConfidence c result <= 100)%Z.
Proof.
  rewrite calculateConfidence_sum.
  pose proof (citationStringScore_values c
                (match cl_citation result with Some l => l | None => [] end)).
  pose proof (caseNameScore_values c result).
  pose proof (yearScore_values c result).
  lia.
Qed.

Lemma maxConfidence_range (c : Citation) (rs : list CourtListenerCase) :
  (0 <= maxConfidence c rs <= 100)%Z.
Proof.
  unfold maxConfidence. induction rs as [|r rs IH]; simpl; [lia|].
  pose proof (calculateConfidence_range c r). lia.
Qed.

(** The four ways [verifyCitation] ends. *)
Lemma verifyCitation_cases
    (fetch : list Request -> Request -> FetchOutcome) (currentYear : Z)
    (c : Citation) (log : list Request) :
  let r := fst (verifyCitation fetch currentYear c log) in
  (valid (validateCitationFormat currentYear c) = false
   /\ status r = format_error /\ confidence r = 0%Z
   /\ matchedCase r = None /\ courtListenerUrl r = None
   /\ warnings r = issues (validateCitationFormat currentYear c))
  \/ (valid (validateCitationFormat currentYear c) = true
      /\ fst (lookup fetch c log) = None
      /\ status r = api_error /\ confidence r = 0%Z
      /\ matchedCase r = None /\ courtListenerUrl r = None
      /\ warnings r = ["API request failed"])
  \/ (valid (validateCitationFormat currentYear c) = true
      /\ (exists sr, fst (lookup fetch c log) = Some sr /\ count sr = 0%Z)
      /\ status r = not_found /\ confidence r = 0%Z
      /\ matchedCase r = None /\ courtListenerUrl r = None
      /\ warnings r = ["No matching case in database"])
  \/ (valid (validateCitationFormat currentYear c) = true
      /\ exists sr, fst (lookup fetch c log) = Some sr /\ count sr <> 0%Z
                    /\ r = classify c (search_results sr)).
Proof.
  cbv zeta.
  destruct (valid (validateCitationFormat currentYear c)) eqn:Hv.
  - right. rewrite (verifyCitation_valid fetch currentYear c log Hv).
    destruct (fst (lookup fetch c log)) as [sr|].
    + destruct (Z.eqb_spec (count sr) 0) as [E|E].
      * right. left. simpl. repeat split; eauto.
      * right. right. split; [reflexivity|]. exists sr. auto.
    + left. simpl. auto 10.
  - left. unfold verifyCitation. rewrite Hv. simpl. auto 10.
Qed.

(** What [classify] attaches to each status. *)
Lemma classify_shape (c : Citation) (rs : list CourtListenerCase) :
  let r := classify c rs in
  (status r = verified \/ status r = partial_match \/ status r = not_found)
  /\ (matchedCase r <> None <-> status r = verified \/ status r = partial_match)
  /\ (courtListenerUrl r <> None
      <-> status r = verified \/ status r = partial_match)
  /\ (status r <> verified -> warnings r <> []).
Proof.
  cbv zeta. unfold classify.
  destruct (pickBest c rs) as [[b|] k]; simpl.
  - destruct (k >=? 70)%Z; simpl.
    + repeat split; auto; try discriminate; try congruence.
    + destruct (k >=? 40)%Z; simpl; unfold Js.push;
        (repeat split; auto; try discriminate; try congruence;
         try (intros [H|H]; discriminate);
         try (intros _ H; destruct (mismatchWarnings c b); discriminate)).
  - repeat split; auto; try discriminate; try congruence;
      intros [H|H]; discriminate.
Qed.

(** X1. The confidence of a candidate is between 0 and 100 and the cap of
    [calculateConfidence] never cuts anything off (the three categories
    add up to at most 100); the confidence of every result of
    [verifyCitation] is between 0 and 100 as well. *)
Theorem X1_confidence_range :
  (forall c result,
     (0 <= calculateConfidence c result <= 100)%Z
     /\ calculateConfidence c result
        = (citationStringScore c
             (match cl_citation result with Some l => l | None => [] end)
           + caseNameScore c result + yearScore c result)%Z)
  /\ (forall fetch currentYear c log,
        (0 <= confidence (fst (verifyCitation fetch currentYear c log)) <= 100)%Z).
Proof.
  split.
  - intros c result. split; [apply calculateConfidence_range|].
    rewrite calculateConfidence_sum.
    pose proof (citationStringScore_values c
                  (match cl_citation result with Some l => l | None => [] end)).
    pose proof (caseNameScore_values c result).
    pose proof (yearScore_values c result).
    lia.
  - intros fetch currentYear c log.
    destruct (verifyCitation_cases fetch currentYear c log)
      as [H|[H|[H|[_ (sr & _ & _ & E)]]]].
    + destruct H as (_ & _ & E & _). rewrite E. lia.
    + destruct H as (_ & _ & _ & E & _). rewrite E. lia.
    + destruct H as (_ & _ & _ & E & _). rewrite E. lia.
    + rewrite E.
      destruct (classify_by_confidence c (search_results sr)) as [Ec _].
      rewrite Ec. apply maxConfidence_range.
Qed.

(** Matched case and URL go with the two positive statuses. *)
Lemma verifyCitation_presence
    (fetch : list Request -> Request -> FetchOutcome) (currentYear : Z)
    (c : Citation) (log : list Request) :
  let r := fst (verifyCitation fetch currentYear c log) in
  (matchedCase r <> None <-> status r = verified \/ status r = partial_match)
  /\ (courtListenerUrl r <> None
      <-> status r = verified \/ status r = partial_match).
Proof.
  cbv zeta.
  destruct (verifyCitation_cases fetch currentYear c log)
    as [H|[H|[H|[_ (sr & _ & _ & E)]]]].
  - destruct H as (_ & Es & _ & Em & Eu & _). rewrite Es, Em, Eu.
    split; split; try congruence; intros [H|H]; discriminate.
  - destruct H as (_ & _ & Es & _ & Em & Eu & _). rewrite Es, Em, Eu.
    split; split; try congruence; intros [H|H]; discriminate.
  - destruct H as (_ & _ & Es & _ & Em & Eu & _). rewrite Es, Em, Eu.
    split; split; try congruence; intros [H|H]; discriminate.
  - rewrite E. destruct (classify_shape c (search_results sr)) as (_ & H1 & H2 & _).
    split; assumption.
Qed.

(** X2. A result of [verifyCitation] carries a matched case exactly when
    it carries a CourtListener URL, and exactly when its status is
    [verified] or [partial_match]. *)
Theorem X2_match_attached_iff_positive
    (fetch : list Request -> Request -> FetchOutcome) (currentYear : Z)
    (c : Citation) (log : list Request) :
  let r := fst (verifyCitation fetch currentYear c log) in
  (matchedCase r <> None <-> status r = verified \/ status r = partial_match)
  /\ (courtListenerUrl r <> None
      <-> status r = verified \/ status r = partial_match).
Proof. exact (verifyCitation_presence fetch currentYear c log). Qed.

(** X3. [verifyCitation] answers [format_error] exactly when the validator
    rejects the citation, whatever the lookup service would say. *)
Theorem X3_format_error_iff_invalid
    (fetch : list Request -> Request -> FetchOutcome) (currentYear : Z)
    (c : Citation) (log : list Request) :
  status (fst (verifyCitation fetch currentYear c log)) = format_error
  <-> valid (validateCitationFormat currentYear c) = false.
Proof.
  destruct (verifyCitation_cases fetch currentYear c log)
    as [H|[H|[H|[Hv (sr & _ & _ & E)]]]].
  - destruct H as (Hv & Es & _). rewrite Es, Hv. split; reflexivity.
  - destruct H as (Hv & _ & Es & _). rewrite Es, Hv. split; discriminate.
  - destruct H as (Hv & _ & Es & _). rewrite Es, Hv. split; discriminate.
  - rewrite E, Hv. split; [|discriminate].
    intros H. exfalso. exact (proj2 (classify_status c (search_results sr)) H).
Qed.

(** X4. Every result other than a verified one carries at least one
    warning. *)
Theorem X4_unverified_has_warning
    (fetch : list Request -> Request -> FetchOutcome) (currentYear : Z)
    (c : Citation) (log : list Request) :
  status (fst (verifyCitation fetch currentYear c log)) = verified
  \/ warnings (fst (verifyCitation fetch currentYear c log)) <> [].
Proof.
  destruct (verifyCitation_cases fetch currentYear c log)
    as [H|[H|[H|[_ (sr & _ & _ & E)]]]].
  - right. destruct H as (Hv & _ & _ & _ & _ & Ew). rewrite Ew.
    intros Hi. apply (validate_valid_iff currentYear c) in Hi. congruence.
  - right. destruct H as (_ & _ & _ & _ & _ & _ & Ew). rewrite Ew. discriminate.
  - right. destruct H as (_ & _ & _ & _ & _ & _ & Ew). rewrite Ew. discriminate.
  - rewrite E. destruct (classify_shape c (search_results sr)) as (_ & _ & _ & H).
    destruct (status (classify c (search_results sr))) eqn:Es; auto;
      right; apply H; discriminate.
Qed.

Lemma classify_citation (c : Citation) (rs : list CourtListenerCase) :
  citation (classify c rs) = c.
Proof.
  unfold classify. destruct (pickBest c rs) as [[b|] k]; [|reflexivity].
  destruct (k >=? 70)%Z; [reflexivity|]. destruct (k >=? 40)%Z; reflexivity.
Qed.

Lemma verifyCitation_log
    (fetch : list Request -> Request -> FetchOutcome) (currentYear : Z)
    (c : Citation) (log : list Request) :
  snd (verifyCitation fetch currentYear c log)
  = (log ++ requestsOf fetch currentYear c log)%list.
Proof.
  unfold verifyCitation, requestsOf.
  destruct (valid (validateCitationFormat currentYear c)); simpl.
  - unfold bind, lookup, bind, searchByCitation, searchByComponents, bind,
      rateLimitedFetch, ret, Js.push. simpl.
    destruct (noResults (parsed (fetch log (buildSearchQuery c)))); simpl.
    + destruct (parsed (fetch (log ++ [buildSearchQuery c])%list
                          (ComponentsQuery (citationStr c)))) as [sr|]; simpl.
      * destruct (count sr =? 0)%Z; simpl; rewrite <- app_assoc; reflexivity.
      * rewrite <- app_assoc. reflexivity.
    + destruct (parsed (fetch log (buildSearchQuery c))) as [sr|]; simpl.
      * destruct (count sr =? 0)%Z; reflexivity.
      * reflexivity.
  - rewrite app_nil_r. reflexivity.
Qed.

Lemma verifyCitation_citation
    (fetch : list Request -> Request -> FetchOutcome) (currentYear : Z)
    (c : Citation) (log : list Request) :
  citation (fst (verifyCitation fetch currentYear c log)) = c.
Proof.
  destruct (valid (validateCitationFormat currentYear c)) eqn:Hv.
  - rewrite (verifyCitation_valid fetch currentYear c log Hv).
    destruct (fst (lookup fetch c log)) as [sr|]; [|reflexivity].
    destruct (count sr =? 0)%Z; [reflexivity | apply classify_citation].
  - unfold verifyCitation. rewrite Hv. reflexivity.
Qed.

(** X5. One call of [verifyCitation] only appends to the request log, and
    at most two requests: none exactly when the validator rejects the
    citation, and two exactly when the citation is valid and the
    structured query failed or returned a zero count. *)
Theorem X5_at_most_two_requests
    (fetch : list Request -> Request -> FetchOutcome) (currentYear : Z)
    (c : Citation) (log : list Request) :
  exists reqs,
    snd (verifyCitation fetch currentYear c log) = (log ++ reqs)%list
    /\ List.length reqs <= 2
    /\ (reqs = [] <-> valid (validateCitationFormat currentYear c) = false)
    /\ (List.length reqs = 2
        <-> valid (validateCitationFormat currentYear c) = true
            /\ noResults (parsed (fetch log (buildSearchQuery c))) = true).
Proof.
  exists (requestsOf fetch currentYear c log).
  split; [apply verifyCitation_log|].
  unfold requestsOf.
  destruct (valid (validateCitationFormat currentYear c)); simpl.
  - destruct (noResults (parsed (fetch log (buildSearchQuery c)))); simpl;
      repeat split; try lia; try discriminate; try congruence;
      intros [_ H]; discriminate.
  - repeat split; try lia; try discriminate; intros [H _]; discriminate.
Qed.

(** A score of 70 needs the first category. *)
Lemma high_score_needs_citation_string (c : Citation) (b : CourtListenerCase) :
  (70 <= calculateConfidence c b)%Z ->
  exists s, In s (match cl_citation b with Some l => l | None => [] end)
            /\ (exactMatch c s || partialMatch c s)%bool = true.
Proof.
  intros H. rewrite calculateConfidence_sum in H.
  pose proof (caseNameScore_values c b). pose proof (yearScore_values c b).
  assert (Hs : (0 < citationStringScore c
                      (match cl_citation b with Some l => l | None => [] end))%Z)
    by lia.
  clear H. revert Hs.
  generalize (match cl_citation b with Some l => l | None => [] end).
  intros l. induction l as [|s l IH]; cbn [citationStringScore]; [lia|].
  destruct (exactMatch c s) eqn:Ee.
  - intros _. exists s. split; [left; reflexivity | rewrite Ee; reflexivity].
  - destruct (partialMatch c s) eqn:Ep.
    + intros _. exists s. split; [left; reflexivity|].
      rewrite Ee, Ep. reflexivity.
    + intros H. destruct (IH H) as (s' & Hin & Hq). exists s'.
      split; [right; exact Hin | exact Hq].
Qed.

(** The candidate kept by the loop: the first one with the greatest
    score. *)
Lemma pickBest_acc_first (c : Citation) (rs : list CourtListenerCase) :
  forall seen0 b0 k0 b k,
    fold_left (bestStep c) rs (b0, k0) = (Some b, k) ->
    (forall x, In x seen0 -> (calculateConfidence c x <= k0)%Z) ->
    (forall b', b0 = Some b' ->
       exists pre post, seen0 = (pre ++ b' :: post)%list
                        /\ calculateConfidence c b' = k0
                        /\ forall x, In x pre -> (calculateConfidence c x < k0)%Z) ->
    exists pre post,
      (seen0 ++ rs)%list = (pre ++ b :: post)%list
      /\ calculateConfidence c b = k
      /\ (forall x, In x pre -> (calculateConfidence c x < k)%Z)
      /\ (forall x, In x post -> (calculateConfidence c x <= k)%Z).
Proof.
  induction rs as [|r rs IH]; intros seen0 b0 k0 b k Hf Hle Hb0; simpl in Hf.
  - inversion Hf; subst. destruct (Hb0 b eq_refl) as (pre & post & E & Ek & Hpre).
    exists pre, post. rewrite app_nil_r. repeat split; auto.
    intros x Hx. apply Hle. rewrite E. apply in_app_iff. right. right. exact Hx.
  - unfold bestStep in Hf at 2. simpl in Hf.
    destruct (Z.gtb_spec (calculateConfidence c r) k0) as [Hgt|Hngt].
    + destruct (IH (seen0 ++ [r])%list (Some r) (calculateConfidence c r) b k Hf)
        as (pre & post & E & Ek & Hpre & Hpost).
      * intros x Hx. apply in_app_iff in Hx. destruct Hx as [Hx|[Hx|[]]].
        -- specialize (Hle x Hx). lia.
        -- subst. lia.
      * intros b' Eb'. inversion Eb'; subst b'.
        exists seen0, []. repeat split; auto.
        intros x Hx. specialize (Hle x Hx). lia.
      * exists pre, post. rewrite <- app_assoc in E. simpl in E. auto.
    + destruct (IH (seen0 ++ [r])%list b0 k0 b k Hf)
        as (pre & post & E & Ek & Hpre & Hpost).
      * intros x Hx. apply in_app_iff in Hx. destruct Hx as [Hx|[Hx|[]]].
        -- exact (Hle x Hx).
        -- subst. lia.
      * intros b' Eb'. destruct (Hb0 b' Eb') as (pre & post & E & Ek & Hpre).
        exists pre, (post ++ [r])%list. rewrite E, <- app_assoc. simpl. auto.
      * exists pre, post. rewrite <- app_assoc in E. simpl in E. auto.
Qed.

Lemma pickBest_first (c : Citation) (rs : list CourtListenerCase)
    (b : CourtListenerCase) (k : Z) :
  pickBest c rs = (Some b, k) ->
  exists pre post,
    rs = (pre ++ b :: post)%list
    /\ calculateConfidence c b = k
    /\ (forall x, In x pre -> (calculateConfidence c x < k)%Z)
    /\ (forall x, In x post -> (calculateConfidence c x <= k)%Z).
Proof.
  intros H.
  apply (pickBest_acc_first c rs [] None 0%Z b k H).
  - intros x [].
  - discriminate.
Qed.

Lemma classify_matched (c : Citation) (rs : list CourtListenerCase)
    (mc : MatchedCase) :
  matchedCase (classify c rs) = Some mc ->
  exists b k,
    pickBest c rs = (Some b, k) /\ mc = snapshot b
    /\ courtListenerUrl (classify c rs) = Some (urlOf b)
    /\ confidence (classify c rs) = k /\ (40 <= k)%Z
    /\ (status (classify c rs) = verified -> (70 <= k)%Z).
Proof.
  unfold classify.
  destruct (pickBest c rs) as [[b|] k]; [|discriminate].
  destruct (Z.geb_spec k 70) as [H70|H70]; simpl.
  - intros E; inversion E; subst. exists b, k. repeat split; auto; lia.
  - destruct (Z.geb_spec k 40) as [H40|H40]; simpl; [|discriminate].
    intros E; inversion E; subst. exists b, k.
    repeat split; auto; try lia; discriminate.
Qed.

(** What a result with a matched case comes from. *)
Lemma verifyCitation_matched
    (fetch : list Request -> Request -> FetchOutcome) (currentYear : Z)
    (c : Citation) (log : list Request) (mc : MatchedCase) :
  matchedCase (fst (verifyCitation fetch currentYear c log)) = Some mc ->
  exists sr,
    fst (lookup fetch c log) = Some sr
    /\ fst (verifyCitation fetch currentYear c log)
       = classify c (search_results sr).
Proof.
  intros Hm.
  destruct (verifyCitation_cases fetch currentYear c log)
    as [H|[H|[H|[_ (sr & Hl & _ & E)]]]].
  - destruct H as (_ & _ & _ & Em & _). congruence.
  - destruct H as (_ & _ & _ & _ & Em & _). congruence.
  - destruct H as (_ & _ & _ & _ & Em & _). congruence.
  - exists sr. auto.
Qed.

(** X7. The match a result reports is the first candidate of the lookup
    with the greatest score: its snapshot and URL are attached, its score
    is the confidence, every earlier candidate scores strictly less and
    no later candidate scores more. *)
Theorem X7_reported_match_is_first_best
    (fetch : list Request -> Request -> FetchOutcome) (currentYear : Z)
    (c : Citation) (log : list Request) (mc : MatchedCase) :
  matchedCase (fst (verifyCitation fetch currentYear c log)) = Some mc ->
  let r := fst (verifyCitation fetch currentYear c log) in
  exists sr pre b post,
    fst (lookup fetch c log) = Some sr
    /\ search_results sr = (pre ++ b :: post)%list
    /\ mc = snapshot b
    /\ courtListenerUrl r = Some (urlOf b)
    /\ confidence r = calculateConfidence c b
    /\ (forall x, In x pre -> (calculateConfidence c x < confidence r)%Z)
    /\ (forall x, In x post -> (calculateConfidence c x <= confidence r)%Z).
Proof.
  intros Hm. cbv zeta.
  destruct (verifyCitation_matched fetch currentYear c log mc Hm) as (sr & Hl & E).
  rewrite E in Hm |- *.
  destruct (classify_matched c (search_results sr) mc Hm)
    as (b & k & Hp & Emc & Eu & Ek & _).
  destruct (pickBest_first c (search_results sr) b k Hp)
    as (pre & post & Ers & Eb & Hpre & Hpost).
  exists sr, pre, b, post. rewrite Ek. repeat split; auto.
Qed.

Lemma X7_reported_match_is_first_best_witness :
  let r := fst (verifyCitation svc_found this_year roe []) in
  exists sr pre b post,
    fst (lookup svc_found roe []) = Some sr
    /\ search_results sr = (pre ++ b :: post)%list
    /\ snapshot roe_case = snapshot b
    /\ courtListenerUrl r = Some (urlOf b)
    /\ confidence r = calculateConfidence roe b
    /\ (forall x, In x pre -> (calculateConfidence roe x < confidence r)%Z)
    /\ (forall x, In x post -> (calculateConfidence roe x <= confidence r)%Z).
Proof.
  apply (X7_reported_match_is_first_best svc_found this_year roe []
           (snapshot roe_case)).
  vm_compute. reflexivity.
Defined.

(** X8. A citation is verified only on a citation-string match: when the
    status is [verified], the lookup returned a candidate one of whose
    citation strings holds the exact token or both the volume and the
    page.  Case name and year alone (at most 50 points) never verify. *)
Theorem X8_verified_needs_citation_string
    (fetch : list Request -> Request -> FetchOutcome) (currentYear : Z)
    (c : Citation) (log : list Request) :
  status (fst (verifyCitation fetch currentYear c log)) = verified ->
  exists sr b s,
    fst (lookup fetch c log) = Some sr
    /\ In b (search_results sr)
    /\ In s (match cl_citation b with Some l => l | None => [] end)
    /\ (exactMatch c s || partialMatch c s)%bool = true.
Proof.
  intros Hs.
  destruct (matchedCase (fst (verifyCitation fetch currentYear c log)))
    as [mc|] eqn:Hm.
  - destruct (verifyCitation_matched fetch currentYear c log mc Hm)
      as (sr & Hl & E).
    rewrite E in Hm, Hs.
    destruct (classify_matched c (search_results sr) mc Hm)
      as (b & k & Hp & _ & _ & _ & _ & H70).
    destruct (pickBest_first c (search_results sr) b k Hp)
      as (pre & post & Ers & Eb & _ & _).
    specialize (H70 Hs). rewrite <- Eb in H70.
    destruct (high_score_needs_citation_string c b H70) as (s & Hin & Hq).
    exists sr, b, s. repeat split; auto.
    rewrite Ers. apply in_app_iff. right. left. reflexivity.
  - exfalso.
    destruct (verifyCitation_presence fetch currentYear c log) as [H _].
    apply H; [left; exact Hs | exact Hm].
Qed.

Lemma X8_verified_needs_citation_string_witness :
  exists sr b s,
    fst (lookup svc_found roe []) = Some sr
    /\ In b (search_results sr)
    /\ In s (match cl_citation b with Some l => l | None => [] end)
    /\ (exactMatch roe s || partialMatch roe s)%bool = true.
Proof.
  apply (X8_verified_needs_citation_string svc_found this_year roe []).
  vm_compute. reflexivity.
Defined.

(* ===================================================================== *)
(** * Further properties of the extractor *)
(* ===================================================================== *)

(** ** Document order *)

Lemma insert_sorted_sorted (l : list Citation) (x : Citation) :
  StronglySorted (fun a b => startIndex a <= startIndex b) l ->
  StronglySorted (fun a b => startIndex a <= startIndex b)
    (Js.insert_sorted (fun a b => startIndex a <? startIndex b) x l).
Proof.
  induction 1 as [|y l Hl IH Hy]; simpl.
  - constructor; constructor.
  - destruct (Nat.ltb_spec (startIndex x) (startIndex y)) as [Hlt|Hge].
    + constructor; [constructor; assumption|].
      constructor; [lia|].
      eapply Forall_impl; [|exact Hy]. simpl. intros; lia.
    + constructor; [exact IH|].
      apply (Permutation_Forall
               (Permutation_sym (insert_sorted_perm _ _ x l))).
      constructor; assumption.
Qed.

Lemma sort_stable_sorted (l : list Citation) :
  StronglySorted (fun a b => startIndex a <= startIndex b)
    (Js.sort_stable (fun a b => startIndex a <? startIndex b) l).
Proof.
  unfold Js.sort_stable.
  assert (H : forall acc,
             StronglySorted (fun a b => startIndex a <= startIndex b) acc ->
             StronglySorted (fun a b => startIndex a <= startIndex b)
               (fold_left (fun acc x =>
                             Js.insert_sorted
                               (fun a b => startIndex a <? startIndex b) x acc)
                  l acc)).
  { induction l as [|x l IH]; intros acc Hacc; simpl; [exact Hacc|].
    apply IH, insert_sorted_sorted, Hacc. }
  apply H. constructor.
Qed.

(** X9. The citations are returned in document order: sorted by
    [startIndex], smallest first. *)
Theorem X9_document_order (text : string) :
  StronglySorted (fun a b => startIndex a <= startIndex b)
    (extractCitations text).
Proof. apply sort_stable_sorted. Qed.

(** ** Every citation lies inside the text *)

Lemma exec_all_inside (re : RegExp) (fuel : nat) :
  forall cur,
    Forall (fun m => index m <= lastIndex m
                     /\ lastIndex m <= at_index cur + List.length (rest cur)
                     /\ String.length (matched m) <= lastIndex m - index m)
      (exec_all fuel re cur).
Proof.
  induction fuel as [|fuel IH]; intros cur; simpl; [constructor|].
  destruct (exec re cur) as [m|] eqn:E; [|constructor].
  unfold exec in E. apply exec_scan_bounds in E.
  destruct E as (E1 & E2 & E3 & E4).
  constructor; [lia|].
  eapply Forall_impl; [|apply (IH (cursor_of (final m)))].
  simpl. unfold lastIndex in *. intros m'. lia.
Qed.

Lemma full_fold_added (ms : list MatchResult) (acc : Acc) :
  exists extra,
    citations (fold_left fullStep ms acc) = (citations acc ++ extra)%list
    /\ Forall (fun c => exists m, In m ms /\ c = fullRecord m) extra.
Proof.
  revert acc. induction ms as [|m ms IH]; intros acc; simpl.
  - exists []. split; [rewrite app_nil_r; reflexivity | constructor].
  - destruct (IH (fullStep acc m)) as (extra & E & Hall).
    assert (Hall' : Forall (fun c => exists m0, (m = m0 \/ In m0 ms)
                                               /\ c = fullRecord m0) extra).
    { eapply Forall_impl; [|exact Hall]. simpl.
      intros c (m0 & Hin & Ec). exists m0. auto. }
    destruct (fullStep_cases acc m) as [[_ Es]|[_ Es]];
      rewrite Es in E |- *; simpl in E.
    + exists extra. split; assumption.
    + exists (fullRecord m :: extra). split.
      * rewrite E, <- app_assoc. reflexivity.
      * constructor; [|exact Hall']. exists m. auto.
Qed.

(** Every retained citation is the record of a match of its pass. *)
Lemma retained_from_matches (text : string) :
  Forall (fun c =>
            (exists m, In m (exec_all (rounds text) fullCitation (start_of text))
                       /\ c = fullRecord m)
            \/ (exists m, In m (shortMatches text) /\ c = shortRecord text m))
    (citations (shortPass text (fullPass text))).
Proof.
  unfold shortPass at 1. rewrite while_exec_fold.
  destruct (short_fold_added text
              (exec_all (rounds text) shortCitation (start_of text))
              (fullPass text)) as (e2 & E2 & H2).
  rewrite E2. apply Forall_app. split.
  - unfold fullPass. rewrite while_exec_fold.
    destruct (full_fold_added
                (exec_all (rounds text) fullCitation (start_of text))
                (mkAcc [] [])) as (e1 & E1 & H1).
    rewrite E1. simpl.
    eapply Forall_impl; [|exact H1]. simpl. intros c H. left. exact H.
  - eapply Forall_impl; [|exact H2]. simpl.
    intros c (m & Hin & Ec & _). right. exists m. auto.
Qed.

(** X10. Every citation returned lies inside the text: its interval
    starts at [startIndex], is as long as [raw], and ends at or before
    the end of the text. *)
Theorem X10_citations_inside_text (text : string) :
  Forall (fun c => endIndex c = startIndex c + String.length (raw c)
                   /\ endIndex c <= String.length text)
    (extractCitations text).
Proof.
  apply (Permutation_Forall (Permutation_sym (extract_perm text))).
  pose proof (exec_all_inside fullCitation (rounds text) (start_of text)) as Hf.
  pose proof (exec_all_inside shortCitation (rounds text) (start_of text)) as Hs.
  rewrite Forall_forall in Hf, Hs. simpl in Hf, Hs.
  rewrite chars_length in Hf, Hs.
  eapply Forall_impl; [|apply retained_from_matches]. simpl.
  intros c [(m & Hin & Ec)|(m & Hin & Ec)]; subst c; simpl;
    (split; [reflexivity|]); pose proof (rawOf_length m);
    [specialize (Hf m Hin) | specialize (Hs m Hin)]; lia.
Qed.

(* ===================================================================== *)
(** * What a match consists of *)
(* ===================================================================== *)

Section MatcherSound.

Lemma steps_refl (x : MatchState) : steps x [] x.
Proof. unfold steps. simpl. auto. Qed.

Lemma steps_trans (x y z : MatchState) (s t : list ascii) :
  steps x s y -> steps y t z -> steps x (s ++ t) z.
Proof.
  intros (H1 & H2 & H3) (H4 & H5 & H6). unfold steps.
  rewrite H1, H4, H5, H2, H6, H3, rev_app_distr, length_app, <- !app_assoc.
  repeat split; lia.
Qed.

Lemma nth_set_nth (A : Type) (d v : A) (l : list A) (i j : nat) (t : A) :
  nth j (set_nth i v l) d = t -> t <> d ->
  (j = i /\ v = t) \/ nth j l d = t.
Proof.
  revert i j. induction l as [|a l IH]; intros i j E Ht; simpl in E.
  - right. destruct i; exact E.
  - destruct i as [|i]; destruct j as [|j]; simpl in *; auto.
    destruct (IH i j E Ht) as [[E1 E2]|E1]; auto.
Qed.

Lemma caps_ok_set (G : nat -> string -> Prop) (caps : list (option string))
    (i : nat) (v : option string) :
  caps_ok G caps -> (forall t, v = Some t -> G i t) ->
  caps_ok G (set_capture i v caps).
Proof.
  intros Hc Hv. destruct i as [|i]; [exact Hc|]. simpl.
  intros j t E.
  destruct (nth_set_nth _ None v caps i j (Some t) E) as [[E1 E2]|E1];
    [discriminate | subst; apply Hv; reflexivity | exact (Hc j t E1)].
Qed.

Lemma caps_ok_clear (G : nat -> string -> Prop) (parens : list nat)
    (caps : list (option string)) :
  caps_ok G caps -> caps_ok G (clear_captures parens caps).
Proof.
  unfold clear_captures. revert caps.
  induction parens as [|i parens IH]; intros caps Hc; simpl; [exact Hc|].
  apply IH, caps_ok_set; [exact Hc | discriminate].
Qed.

Lemma rep_lang_nil (L : list ascii -> Prop) (mx : option nat) :
  rep_lang L 0 mx [].
Proof.
  exists []. simpl. repeat split; [constructor | lia | intros; lia].
Qed.

Lemma rep_lang_cons (L : list ascii -> Prop) (mn : nat) (mx : option nat)
    (s1 s2 : list ascii) :
  max_is_zero mx = false -> L s1 ->
  rep_lang L (Nat.pred mn) (option_map Nat.pred mx) s2 ->
  rep_lang L mn mx (s1 ++ s2).
Proof.
  intros Hz H1 (ss & E & Hall & Hlo & Hhi).
  exists (s1 :: ss). simpl. rewrite E.
  split; [reflexivity|]. split; [constructor; assumption|]. split.
  - intros Hc.
    assert (Nat.pred mn <= List.length ss); [|lia].
    apply Hlo. intros hi Ehi. destruct mx as [m0|]; simpl in Ehi; [|discriminate].
    inversion Ehi; subst. specialize (Hc m0 eq_refl). lia.
  - intros hi Ehi. subst mx.
    specialize (Hhi (Nat.pred hi) eq_refl).
    destruct hi as [|hi]; [discriminate|]. simpl in Hhi. lia.
Qed.

Lemma repeatMatcher_sound (G : nat -> string -> Prop) (L : list ascii -> Prop)
    (m : MatchState -> Cont -> option MatchState) (parens : list nat)
    (greedy : bool) :
  sound G L m ->
  forall fuel mn mx,
    sound G (rep_lang L mn mx) (repeatMatcher fuel m parens mn mx greedy).
Proof.
  intros Hm fuel.
  assert (Hstop : forall mn mx (x : MatchState) (c : Cont) (z : MatchState),
             (max_is_zero mx = true \/ mn = 0) ->
             c x = Some z -> caps_ok G (captures x) ->
             exists y s, c y = Some z /\ steps x s y /\ rep_lang L mn mx s
                         /\ caps_ok G (captures y)).
  { intros mn mx x c z Hcase Hc Hcaps. exists x, [].
    split; [exact Hc|]. split; [apply steps_refl|]. split; [|exact Hcaps].
    destruct Hcase as [Hz|E0].
    - destruct mx as [[|hi]|]; try discriminate.
      exists []. simpl. repeat split; [constructor | | intros hi E; inversion E; lia].
      intros Hcons. specialize (Hcons 0 eq_refl). lia.
    - subst mn. apply rep_lang_nil. }
  induction fuel as [|fuel IH]; intros mn mx x c z; simpl.
  - destruct (max_is_zero mx) eqn:Ez; [|discriminate].
    intros Hc Hcaps. apply (Hstop mn mx x c z); auto.
  - destruct (max_is_zero mx) eqn:Ez.
    { intros Hc Hcaps. apply (Hstop mn mx x c z); auto. }
    set (xr := mkState (before x) (after x) (Regex.endIndex x)
                 (clear_captures parens (captures x))).
    set (d := fun y : MatchState =>
                if (Nat.eqb mn 0
                    && Nat.eqb (Regex.endIndex y) (Regex.endIndex x))%bool
                then None
                else repeatMatcher fuel m parens (Nat.pred mn)
                       (option_map Nat.pred mx) greedy y c).
    assert (Hd : m xr d = Some z -> caps_ok G (captures x) ->
                 exists y s, c y = Some z /\ steps x s y /\ rep_lang L mn mx s
                             /\ caps_ok G (captures y)).
    { intros H Hcaps.
      destruct (Hm xr d z H (caps_ok_clear G parens _ Hcaps))
        as (y1 & s1 & Hd1 & Hs1 & HL1 & Hc1).
      unfold d in Hd1.
      destruct (Nat.eqb mn 0
                && Nat.eqb (Regex.endIndex y1) (Regex.endIndex x))%bool;
        [discriminate|].
      destruct (IH _ _ y1 c z Hd1 Hc1) as (y & s2 & Hc & Hs2 & HL2 & Hc2).
      exists y, (s1 ++ s2)%list. split; [exact Hc|].
      split; [apply (steps_trans x y1 y); [exact Hs1 | exact Hs2]|].
      split; [apply rep_lang_cons; assumption | exact Hc2]. }
    destruct (Nat.eqb mn 0) eqn:E0; simpl; [|exact Hd].
    apply Nat.eqb_eq in E0.
    destruct greedy.
    + destruct (m xr d) as [z'|] eqn:Em.
      * intros E Hcaps; inversion E; subst z'. apply Hd; auto.
      * intros Hc Hcaps. apply (Hstop mn mx x c z); auto.
    + destruct (c x) as [z'|] eqn:Ec.
      * intros E Hcaps; inversion E; subst z'. apply (Hstop mn mx x c z); auto.
      * exact Hd.
Qed.

Lemma matcher_sound (G : nat -> string -> Prop) (r : regex) :
  (forall i r', In r' (group_bodies r i) ->
                forall s, lang r' s -> G i (Js.str s)) ->
  sound G (lang r) (matcher r).
Proof.
  induction r as [ | p | r1 IH1 r2 IH2 | r1 IH1 r2 IH2 | r IH mn mx greedy
                 | i r IH | p | | ]; intros HG x c z; simpl.
  - intros H Hc. exists x, []. auto using steps_refl.
  - destruct (after x) as [|a rest] eqn:Ea; [discriminate|].
    destruct (p a) eqn:Ep; [|discriminate].
    intros H Hc. eexists. exists [a]. split; [exact H|].
    split; [|split; [exists a; auto | exact Hc]].
    unfold steps. simpl. rewrite Ea. repeat split; lia.
  - intros H Hc.
    assert (HG1 : forall i r', In r' (group_bodies r1 i) ->
                               forall s, lang r' s -> G i (Js.str s))
      by (intros i r' Hin; apply HG, in_app_iff; auto).
    assert (HG2 : forall i r', In r' (group_bodies r2 i) ->
                               forall s, lang r' s -> G i (Js.str s))
      by (intros i r' Hin; apply HG, in_app_iff; auto).
    destruct (IH1 HG1 x _ z H Hc) as (y1 & s1 & H1 & Hs1 & HL1 & Hc1).
    destruct (IH2 HG2 y1 c z H1 Hc1) as (y & s2 & H2 & Hs2 & HL2 & Hc2).
    exists y, (s1 ++ s2)%list. split; [exact H2|].
    split; [apply (steps_trans x y1 y); assumption|].
    split; [exists s1, s2; auto | exact Hc2].
  - assert (HG1 : forall i r', In r' (group_bodies r1 i) ->
                               forall s, lang r' s -> G i (Js.str s))
      by (intros i r' Hin; apply HG, in_app_iff; auto).
    assert (HG2 : forall i r', In r' (group_bodies r2 i) ->
                               forall s, lang r' s -> G i (Js.str s))
      by (intros i r' Hin; apply HG, in_app_iff; auto).
    destruct (matcher r1 x c) as [z'|] eqn:E1.
    + intros E Hc; inversion E; subst z'.
      destruct (IH1 HG1 x c z E1 Hc) as (y & s & H & Hs & HL & Hc').
      exists y, s. auto.
    + intros H Hc.
      destruct (IH2 HG2 x c z H Hc) as (y & s & H' & Hs & HL & Hc').
      exists y, s. auto.
  - intros H Hc.
    exact (repeatMatcher_sound G (lang r) (matcher r) (parens_of r) greedy
             (IH HG) _ mn mx x c z H Hc).
  - intros H Hc.
    assert (HG' : forall j r', In r' (group_bodies r j) ->
                               forall s, lang r' s -> G j (Js.str s))
      by (intros j r' Hin; apply HG, in_app_iff; auto).
    destruct (IH HG' x _ z H Hc) as (y & s & H' & Hs & HL & Hc').
    destruct Hs as (Ha & Hb & He).
    eexists. exists s. split; [exact H'|].
    split; [unfold steps; simpl; auto|]. split; [exact HL|]. simpl.
    apply caps_ok_set; [exact Hc'|].
    intros t Et. inversion Et; subst t.
    replace (Regex.endIndex y - Regex.endIndex x) with (List.length s) by lia.
    rewrite Ha, firstn_app, Nat.sub_diag, firstn_all. simpl. rewrite app_nil_r.
    apply (HG i r); [|exact HL].
    apply in_app_iff. left. rewrite Nat.eqb_refl. left. reflexivity.
  - destruct (before x) as [|a bs]; [|destruct (p a); [discriminate|]];
      intros H Hc; exists x, []; auto using steps_refl.
  - destruct (before x); [|discriminate].
    intros H Hc; exists x, []; auto using steps_refl.
  - destruct (after x) eqn:Ea; [|discriminate].
    intros H Hc; exists x, []; auto using steps_refl.
Qed.

End MatcherSound.

(** ** The successive matches stand in the text *)

Lemma nth_repeat_none (A : Type) (n i : nat) :
  nth i (repeat (@None A) n) None = None.
Proof.
  revert i. induction n as [|n IH]; intros [|i]; simpl; auto.
Qed.

Lemma match_at_sound (re : RegExp) (cur : Cursor) (m : MatchResult) :
  match_at re cur = Some m ->
  exists s,
    rest cur = (s ++ after (final m))%list
    /\ before (final m) = (rev s ++ seen cur)%list
    /\ index m = at_index cur
    /\ lastIndex m = at_index cur + List.length s
    /\ matched m = Js.str s /\ lang (tree re) s
    /\ caps_ok (group_property re) (groups m).
Proof.
  unfold match_at.
  destruct (matcher (tree re)
              (mkState (seen cur) (rest cur) (at_index cur)
                 (repeat None (ngroups re))) Some) as [y|] eqn:E;
    [|discriminate].
  intros H; inversion H; subst; clear H. unfold lastIndex; simpl.
  destruct (matcher_sound (group_property re) (tree re)) with
    (x := mkState (seen cur) (rest cur) (at_index cur)
            (repeat None (ngroups re))) (c := @Some MatchState) (z := y)
    as (y' & s & Hy & (Ha & Hb & He) & HL & Hc).
  - intros i r' Hin s Hs. exists r', s. auto.
  - exact E.
  - intros i t Ei. simpl in Ei. rewrite nth_repeat_none in Ei. discriminate.
  - inversion Hy; subst y'. simpl in Ha, Hb, He.
    exists s. repeat split; auto.
    replace (Regex.endIndex y - at_index cur) with (List.length s) by lia.
    rewrite Ha, firstn_app, Nat.sub_diag, firstn_all. simpl.
    rewrite app_nil_r. reflexivity.
Qed.

Lemma skipn_rev_app (A : Type) (l1 l2 : list A) :
  skipn (List.length l1) (rev l1 ++ l2) = l2.
Proof.
  rewrite skipn_app, length_rev, Nat.sub_diag, skipn_all2; [reflexivity|].
  rewrite length_rev. lia.
Qed.

Lemma exec_scan_sound (re : RegExp) (text : string) (rs sn : list ascii)
    (i : nat) (m : MatchResult) :
  at_text text (mkCursor sn rs i) ->
  exec_scan re sn rs i = Some m ->
  match_of re text m /\ at_text text (cursor_of (final m)).
Proof.
  revert sn i.
  assert (Hat : forall sn rs i,
             at_text text (mkCursor sn rs i) ->
             match_at re (mkCursor sn rs i) = Some m ->
             match_of re text m /\ at_text text (cursor_of (final m))).
  { intros sn0 rs0 i0 [Ht Hi] E. simpl in Ht, Hi.
    destruct (match_at_sound re _ m E) as (s & Hr & Hb & Ei & El & Em & HL & Hc).
    simpl in Hr, Hb, Ei, El. split.
    - exists s. repeat split; auto; [lia|].
      rewrite <- Ht, Ei, El, Hi, Hr.
      rewrite skipn_rev_app.
      replace (rev sn0 ++ s ++ after (final m))%list
        with (rev (rev s ++ sn0) ++ after (final m))%list
        by (rewrite rev_app_distr, rev_involutive, <- app_assoc; reflexivity).
      replace (List.length sn0 + List.length s)
        with (List.length (rev s ++ sn0)%list)
        by (rewrite length_app, length_rev; lia).
      rewrite skipn_rev_app. reflexivity.
    - split; simpl.
      + rewrite Hb, rev_app_distr, rev_involutive, <- app_assoc, <- Hr. exact Ht.
      + unfold lastIndex in El. rewrite El, Hb, length_app, length_rev. lia. }
  induction rs as [|a rs IH]; intros sn i Hc; simpl.
  - destruct (match_at re (mkCursor sn [] i)) as [m'|] eqn:E; [|discriminate].
    intros H; inversion H; subst m'. apply (Hat sn [] i); assumption.
  - destruct (match_at re (mkCursor sn (a :: rs) i)) as [m'|] eqn:E.
    + intros H; inversion H; subst m'. apply (Hat sn (a :: rs) i); assumption.
    + apply IH. destruct Hc as [Ht Hi]. simpl in *. split; simpl.
      * rewrite <- app_assoc. exact Ht.
      * lia.
Qed.

Lemma exec_all_sound (re : RegExp) (text : string) (fuel : nat) :
  forall cur, at_text text cur ->
              Forall (match_of re text) (exec_all fuel re cur).
Proof.
  induction fuel as [|fuel IH]; intros cur Hc; simpl; [constructor|].
  destruct (exec re cur) as [m|] eqn:E; [|constructor].
  unfold exec in E. destruct cur as [sn rs i].
  destruct (exec_scan_sound re text rs sn i m Hc E) as [Hm Hc'].
  constructor; [exact Hm | apply IH, Hc'].
Qed.

Lemma start_at_text (text : string) : at_text text (start_of text).
Proof. split; reflexivity. Qed.

Lemma chars_str (l : list ascii) : Js.chars (Js.str l) = l.
Proof. apply list_ascii_of_string_of_list_ascii. Qed.

Lemma str_chars (s : string) : Js.str (Js.chars s) = s.
Proof. apply string_of_list_ascii_of_string. Qed.

(** The string of a match is the text between its two indices. *)
Lemma match_of_substring (re : RegExp) (text : string) (m : MatchResult) :
  match_of re text m ->
  Js.substring (index m) (lastIndex m) text = matched m.
Proof.
  intros (s & Em & _ & _ & El & Hs).
  unfold Js.substring. rewrite Hs, Em, El.
  replace (index m + List.length s - index m) with (List.length s) by lia.
  rewrite firstn_app, Nat.sub_diag, firstn_all. simpl. rewrite app_nil_r.
  reflexivity.
Qed.

(** ** The groups a match defines *)

Lemma set_nth_length (A : Type) (i : nat) (v : A) (l : list A) :
  List.length (set_nth i v l) = List.length l.
Proof.
  revert i. induction l as [|a l IH]; intros [|i]; simpl; auto.
Qed.

Lemma nth_set_nth_other (A : Type) (d v : A) (l : list A) (i j : nat) :
  j <> i -> nth j (set_nth i v l) d = nth j l d.
Proof.
  revert i j. induction l as [|a l IH]; intros [|i] [|j] H; simpl; auto;
    try contradiction.
Qed.

Lemma nth_set_nth_same (A : Type) (d v : A) (l : list A) (i : nat) :
  i < List.length l -> nth i (set_nth i v l) d = v.
Proof.
  revert i. induction l as [|a l IH]; intros [|i] H; simpl in *; try lia; auto.
  apply IH. lia.
Qed.

Lemma set_capture_length (i : nat) (v : option string)
    (caps : list (option string)) :
  List.length (set_capture i v caps) = List.length caps.
Proof. destruct i; [reflexivity | apply set_nth_length]. Qed.

Lemma set_capture_other (i j : nat) (v : option string)
    (caps : list (option string)) :
  i <> S j -> nth j (set_capture i v caps) None = nth j caps None.
Proof.
  destruct i as [|i]; [reflexivity|]. intros H. simpl.
  apply nth_set_nth_other. lia.
Qed.

Lemma clear_captures_length (parens : list nat) (caps : list (option string)) :
  List.length (clear_captures parens caps) = List.length caps.
Proof.
  unfold clear_captures. revert caps.
  induction parens as [|i parens IH]; intros caps; simpl; [reflexivity|].
  rewrite IH. apply set_capture_length.
Qed.

Lemma clear_captures_other (parens : list nat) (caps : list (option string))
    (j : nat) :
  existsb (Nat.eqb (S j)) parens = false ->
  nth j (clear_captures parens caps) None = nth j caps None.
Proof.
  unfold clear_captures. revert caps.
  induction parens as [|i parens IH]; intros caps H;
    cbn [existsb fold_left] in *; [reflexivity|].
  apply orb_false_iff in H. destruct H as [Hi Hp].
  rewrite (IH _ Hp). apply set_capture_other.
  apply Nat.eqb_neq in Hi. congruence.
Qed.

Lemma repeatMatcher_keeps (m : MatchState -> Cont -> option MatchState)
    (parens : list nat) (greedy : bool) :
  (forall x c z,
      m x c = Some z ->
      exists y, c y = Some z
        /\ List.length (captures y) = List.length (captures x)
        /\ (forall i, existsb (Nat.eqb (S i)) parens = false ->
                      nth i (captures y) None = nth i (captures x) None)) ->
  forall fuel mn mx x c z,
    repeatMatcher fuel m parens mn mx greedy x c = Some z ->
    exists y, c y = Some z
      /\ List.length (captures y) = List.length (captures x)
      /\ (forall i, existsb (Nat.eqb (S i)) parens = false ->
                    nth i (captures y) None = nth i (captures x) None).
Proof.
  intros Hm fuel.
  induction fuel as [|fuel IH]; intros mn mx x c z; simpl.
  - destruct (max_is_zero mx); [|discriminate].
    intros H. exists x. auto.
  - destruct (max_is_zero mx); [intros H; exists x; auto|].
    set (xr := mkState (before x) (after x) (Regex.endIndex x)
                 (clear_captures parens (captures x))).
    set (d := fun y : MatchState =>
                if (Nat.eqb mn 0
                    && Nat.eqb (Regex.endIndex y) (Regex.endIndex x))%bool
                then None
                else repeatMatcher fuel m parens (Nat.pred mn)
                       (option_map Nat.pred mx) greedy y c).
    assert (Hd : m xr d = Some z ->
                 exists y, c y = Some z
                   /\ List.length (captures y) = List.length (captures x)
                   /\ (forall i, existsb (Nat.eqb (S i)) parens = false ->
                                 nth i (captures y) None
                                 = nth i (captures x) None)).
    { intros H. destruct (Hm xr d z H) as (y1 & Hd1 & Hl1 & Hk1).
      unfold d in Hd1.
      destruct (Nat.eqb mn 0
                && Nat.eqb (Regex.endIndex y1) (Regex.endIndex x))%bool;
        [discriminate|].
      destruct (IH _ _ y1 c z Hd1) as (y & Hc & Hl & Hk).
      exists y. split; [exact Hc|]. simpl in Hl1, Hk1.
      rewrite clear_captures_length in Hl1. split; [congruence|].
      intros i Hi. rewrite (Hk i Hi), (Hk1 i Hi).
      apply clear_captures_other, Hi. }
    destruct (Nat.eqb mn 0); simpl; [|exact Hd].
    destruct greedy.
    + destruct (m xr d) as [z'|] eqn:Em.
      * intros E; inversion E; subst z'. apply Hd. reflexivity.
      * intros H. exists x. auto.
    + destruct (c x) as [z'|] eqn:Ec.
      * intros E; inversion E; subst z'. exists x. auto.
      * exact Hd.
Qed.

Lemma group_free_app (r1 r2 : regex) (i : nat) :
  negb (existsb (Nat.eqb i) (parens_of r1 ++ parens_of r2)) = true ->
  group_free r1 i = true /\ group_free r2 i = true.
Proof.
  unfold group_free. rewrite existsb_app, negb_orb, andb_true_iff. auto.
Qed.

Lemma matcher_settles (r : regex) : settles r (matcher r).
Proof.
  induction r as [ | p | r1 IH1 r2 IH2 | r1 IH1 r2 IH2 | r IH mn mx greedy
                 | j r IH | p | | ]; intros x c z; cbn [matcher].
  - intros H. exists x. repeat split; auto; discriminate.
  - destruct (after x) as [|a rest] eqn:Ea; [discriminate|].
    destruct (p a); [|discriminate].
    intros H. eexists. split; [exact H|]. simpl. repeat split; auto; discriminate.
  - intros H.
    destruct (IH1 x _ z H) as (y1 & H1 & Hl1 & Hk1 & Hd1).
    destruct (IH2 y1 c z H1) as (y & H2 & Hl2 & Hk2 & Hd2).
    exists y. split; [exact H2|]. split; [congruence|]. split.
    + intros i Hi. unfold group_free in Hi; cbn [parens_of existsb] in Hi.
      apply group_free_app in Hi. destruct Hi as [Hi1 Hi2].
      rewrite (Hk2 i Hi2). apply Hk1, Hi1.
    + intros i Hi Hlt. cbn [defines] in Hi.
      apply orb_true_iff in Hi. destruct Hi as [Hi|Hi].
      * apply Hd2; [exact Hi | lia].
      * apply andb_true_iff in Hi. destruct Hi as [Hi1 Hi2].
        rewrite (Hk2 i Hi2). apply Hd1; assumption.
  - assert (Hb : forall r' y,
               (List.length (captures y) = List.length (captures x)
                /\ (forall i, group_free r' (S i) = true ->
                              nth i (captures y) None = nth i (captures x) None)
                /\ (forall i, defines r' (S i) = true ->
                              i < List.length (captures x) ->
                              nth i (captures y) None <> None)) ->
               (r' = r1 \/ r' = r2) ->
               List.length (captures y) = List.length (captures x)
               /\ (forall i, group_free (Alt r1 r2) (S i) = true ->
                             nth i (captures y) None = nth i (captures x) None)
               /\ (forall i, defines (Alt r1 r2) (S i) = true ->
                             i < List.length (captures x) ->
                             nth i (captures y) None <> None)).
    { intros r' y (Hl & Hk & Hd) Hr. split; [exact Hl|]. split.
      - intros i Hi. unfold group_free in Hi; cbn [parens_of existsb] in Hi.
        apply group_free_app in Hi. destruct Hi as [Hi1 Hi2].
        apply Hk. destruct Hr; subst r'; assumption.
      - intros i Hi Hlt. cbn [defines] in Hi.
        apply andb_true_iff in Hi. destruct Hi as [Hi1 Hi2].
        apply Hd; [|exact Hlt]. destruct Hr; subst r'; assumption. }
    destruct (matcher r1 x c) as [z'|] eqn:E1.
    + intros E; inversion E; subst z'.
      destruct (IH1 x c z E1) as (y & H & Hy).
      exists y. split; [exact H|]. apply (Hb r1); auto.
    + intros H.
      destruct (IH2 x c z H) as (y & H' & Hy).
      exists y. split; [exact H'|]. apply (Hb r2); auto.
  - intros H.
    destruct (repeatMatcher_keeps (matcher r) (parens_of r) greedy) with
      (fuel := mn + List.length (after x) + 1) (mn := mn) (mx := mx)
      (x := x) (c := c) (z := z) as (y & Hc & Hl & Hk).
    + intros x0 c0 z0 H0.
      destruct (IH x0 c0 z0 H0) as (y0 & Hc0 & Hl0 & Hk0 & _).
      exists y0. split; [exact Hc0|]. split; [exact Hl0|].
      intros i Hi. apply Hk0. unfold group_free. rewrite Hi. reflexivity.
    + exact H.
    + exists y. split; [exact Hc|]. split; [exact Hl|]. split.
      * intros i Hi. apply Hk. unfold group_free in Hi; cbn [parens_of existsb] in Hi.
        apply negb_true_iff in Hi. exact Hi.
      * discriminate.
  - intros H.
    destruct (IH x _ z H) as (y & H' & Hl & Hk & Hd).
    eexists. split; [exact H'|]. cbn [captures].
    split; [rewrite set_capture_length; exact Hl|]. split.
    + intros i Hi. unfold group_free in Hi; cbn [parens_of existsb] in Hi.
      apply negb_true_iff, orb_false_iff in Hi. destruct Hi as [Hi1 Hi2].
      rewrite set_capture_other.
      * apply Hk. unfold group_free. rewrite Hi2. reflexivity.
      * apply Nat.eqb_neq in Hi1. congruence.
    + intros i Hi Hlt.
      destruct (Nat.eqb j (S i)) eqn:Ej.
      * apply Nat.eqb_eq in Ej. subst j. simpl.
        rewrite nth_set_nth_same; [discriminate | lia].
      * cbn [defines] in Hi. rewrite Ej in Hi. simpl in Hi.
        rewrite set_capture_other.
        -- apply Hd; assumption.
        -- apply Nat.eqb_neq in Ej. exact Ej.
  - destruct (before x) as [|a bs]; [|destruct (p a); [discriminate|]];
      intros H; exists x; repeat split; auto; discriminate.
  - destruct (before x); [|discriminate].
    intros H; exists x; repeat split; auto; discriminate.
  - destruct (after x) eqn:Ea; [|discriminate].
    intros H; exists x; repeat split; auto; discriminate.
Qed.

Lemma match_at_defines (re : RegExp) (cur : Cursor) (m : MatchResult) (i : nat) :
  match_at re cur = Some m ->
  defines (tree re) (S i) = true -> i < ngroups re ->
  nth i (groups m) None <> None.
Proof.
  unfold match_at.
  destruct (matcher (tree re)
              (mkState (seen cur) (rest cur) (at_index cur)
                 (repeat None (ngroups re))) Some) as [y|] eqn:E;
    [|discriminate].
  intros H Hd Hlt; inversion H; subst; clear H. simpl.
  destruct (matcher_settles (tree re) _ _ _ E) as (y' & Hy & Hl & _ & Hdef).
  inversion Hy; subst y'. apply Hdef; [exact Hd|].
  simpl. rewrite repeat_length. exact Hlt.
Qed.

Lemma exec_all_defines (re : RegExp) (i : nat) (fuel : nat) :
  defines (tree re) (S i) = true -> i < ngroups re ->
  forall cur,
    Forall (fun m => nth i (groups m) None <> None) (exec_all fuel re cur).
Proof.
  intros Hd Hlt.
  assert (Hs : forall rs sn k m,
             exec_scan re sn rs k = Some m -> nth i (groups m) None <> None).
  { induction rs as [|a rs IH]; intros sn k m; simpl.
    - destruct (match_at re (mkCursor sn [] k)) as [m'|] eqn:E; [|discriminate].
      intros H; inversion H; subst m'.
      apply (match_at_defines re _ m i E Hd Hlt).
    - destruct (match_at re (mkCursor sn (a :: rs) k)) as [m'|] eqn:E.
      + intros H; inversion H; subst m'.
        apply (match_at_defines re _ m i E Hd Hlt).
      + apply IH. }
  induction fuel as [|fuel IH]; intros cur; simpl; [constructor|].
  destruct (exec re cur) as [m|] eqn:E; [|constructor].
  constructor; [|apply IH]. unfold exec in E. apply (Hs _ _ _ _ E).
Qed.

(* ===================================================================== *)
(** * What a citation consists of *)
(* ===================================================================== *)

(** ** Characters *)

Ltac each_char b :=
  destruct b as [[] [] [] [] [] [] [] []]; vm_compute;
  try reflexivity; try discriminate; auto.

Lemma ci_digit (b : ascii) :
  (digit (Js.canon b) || digit (Js.lower_ascii b) || digit b)%bool = true ->
  Js.is_digit b = true.
Proof. each_char b. Qed.

Lemma ci_space (b : ascii) :
  (space (Js.canon b) || space (Js.lower_ascii b) || space b)%bool = true ->
  Js.is_space b = true.
Proof. each_char b. Qed.

Lemma ci_capital_solid (b : ascii) :
  (capital (Js.canon b) || capital (Js.lower_ascii b) || capital b)%bool = true ->
  Js.is_space b = false.
Proof. each_char b. Qed.

Lemma digit_solid (b : ascii) : Js.is_digit b = true -> Js.is_space b = false.
Proof. each_char b. Qed.

Lemma canon_space (b : ascii) : Js.is_space (Js.canon b) = Js.is_space b.
Proof. each_char b. Qed.

Lemma canon_dot (b : ascii) :
  Ascii.eqb (Js.canon ".") (Js.canon b) = true -> b = "."%char.
Proof. each_char b. Qed.

Lemma lit_solid (a b : ascii) :
  Js.is_space a = false -> Ascii.eqb (Js.canon a) (Js.canon b) = true ->
  Js.is_space b = false.
Proof.
  intros Ha E. apply Ascii.eqb_eq in E.
  rewrite <- canon_space, <- E, canon_space. exact Ha.
Qed.

(** ** Strings of the sub-patterns *)

Lemma lang_seqs_cons (r : regex) (l : list regex) (s : list ascii) :
  lang (seqs (r :: l)) s ->
  exists s1 s2, s = (s1 ++ s2)%list /\ lang r s1 /\ lang (seqs l) s2.
Proof.
  destruct l as [|r' l].
  - intros H. exists s, []. rewrite app_nil_r. simpl. auto.
  - intros (s1 & s2 & E & H1 & H2). exists s1, s2. auto.
Qed.

Lemma lang_repeat_chars (p : ascii -> bool) (mn : nat) (mx : option nat)
    (g : bool) (s : list ascii) :
  lang (Repeat (Char p) mn mx g) s ->
  Forall (fun a => p a = true) s
  /\ ((forall hi, mx = Some hi -> mn <= hi) -> mn <= List.length s)
  /\ (forall hi, mx = Some hi -> List.length s <= hi).
Proof.
  intros (ss & E & Hall & Hlo & Hhi).
  assert (H : Forall (fun a => p a = true) (List.concat ss)
              /\ List.length (List.concat ss) = List.length ss).
  { clear -Hall. induction Hall as [|t ss (a & Ea & Ha) _ [IH1 IH2]]; simpl.
    - split; [constructor | reflexivity].
    - subst t. simpl. split; [constructor; assumption | congruence]. }
  destruct H as [H1 H2]. rewrite E, H2. auto.
Qed.

Lemma lang_digits (lo hi : nat) (s : list ascii) :
  lo <= hi -> lang (times lo hi (cls true digit)) s ->
  Forall (fun a => Js.is_digit a = true) s /\ lo <= List.length s <= hi.
Proof.
  intros Hle H. apply lang_repeat_chars in H. destruct H as (Hall & Hlo & Hhi).
  split.
  - eapply Forall_impl; [|exact Hall]. intros a. apply ci_digit.
  - split; [apply Hlo; intros h E; inversion E; subst; exact Hle|].
    apply Hhi. reflexivity.
Qed.

Lemma lang_opt (r : regex) (s : list ascii) :
  lang (opt r) s -> s = [] \/ lang r s.
Proof.
  intros (ss & E & Hall & _ & Hhi). specialize (Hhi 1 eq_refl).
  destruct ss as [|t [|t' ss]]; simpl in *; try lia.
  - left. exact E.
  - right. rewrite app_nil_r in E. subst s. inversion Hall; assumption.
Qed.

(** ** Strings that neither start nor end with white space *)

Lemma ends_solid_app (s t : list ascii) :
  Js.ends_solid t -> Js.ends_solid (s ++ t).
Proof.
  intros (l & a & E & Ha). exists (s ++ l)%list, a.
  rewrite E, app_assoc. auto.
Qed.

Lemma ends_solid_digits (s : list ascii) :
  Forall (fun a => Js.is_digit a = true) s -> 1 <= List.length s ->
  Js.ends_solid s.
Proof.
  intros Hall Hlen.
  destruct (exists_last (l := s)) as (l & a & E).
  { intros E. subst s. simpl in Hlen. lia. }
  exists l, a. split; [exact E|]. subst s.
  apply Forall_app in Hall. destruct Hall as [_ Ha].
  inversion Ha; subst. apply digit_solid. assumption.
Qed.

Lemma lang_seqs_last (l : list regex) (r : regex) (s : list ascii) :
  (forall t, lang r t -> Js.ends_solid t) ->
  lang (seqs (l ++ [r])) s -> Js.ends_solid s.
Proof.
  intros Hr. revert s. induction l as [|r0 l IH]; intros s H.
  - apply Hr. exact H.
  - change ((r0 :: l) ++ [r])%list with (r0 :: (l ++ [r]))%list in H.
    apply lang_seqs_cons in H. destruct H as (s1 & s2 & E & _ & H2).
    subst s. apply ends_solid_app, IH, H2.
Qed.

Lemma drop_spaces_solid (s : list ascii) :
  Js.starts_solid s -> Js.drop_spaces s = s.
Proof.
  intros (a & l & E & Ha). subst s. simpl. rewrite Ha. reflexivity.
Qed.

Lemma trim_chars_solid (s : list ascii) :
  Js.starts_solid s -> Js.ends_solid s -> Js.trim_chars s = s.
Proof.
  intros Hs (l & a & E & Ha). unfold Js.trim_chars.
  rewrite (drop_spaces_solid s Hs), E, rev_app_distr. simpl.
  rewrite Ha. simpl. rewrite rev_involutive. reflexivity.
Qed.

(** ** The citation proper *)

Lemma core_lang (g : nat) (s : list ascii) :
  lang (seqs (citation_core g)) s ->
  (exists a l, s = a :: l /\ Js.is_digit a = true) /\ Js.ends_solid s.
Proof.
  unfold citation_core. intros H.
  apply lang_seqs_cons in H. destruct H as (v & s2 & E1 & Hv & H).
  apply lang_seqs_cons in H. destruct H as (sp1 & s3 & E2 & _ & H).
  apply lang_seqs_cons in H. destruct H as (rp & s4 & E3 & _ & H).
  apply lang_seqs_cons in H. destruct H as (sp2 & s5 & E4 & _ & H).
  apply lang_seqs_cons in H. destruct H as (pg & s6 & E5 & Hp & H).
  apply lang_seqs_cons in H. destruct H as (o1 & s7 & E6 & Ho1 & H).
  apply lang_seqs_cons in H. destruct H as (o2 & s8 & E7 & Ho2 & H).
  simpl in H. subst s8. rewrite app_nil_r in E7. subst s7.
  cbn [lang] in Hv, Hp.
  apply lang_digits in Hv; [|lia]. apply lang_digits in Hp; [|lia].
  destruct Hv as [Hv Hvl]. destruct Hp as [Hp Hpl]. split.
  - destruct v as [|a v']; [simpl in Hvl; lia|].
    exists a, (v' ++ s2)%list. split; [subst s; reflexivity|].
    inversion Hv; assumption.
  - subst s s2 s3 s4 s5 s6. do 4 apply ends_solid_app.
    apply lang_opt in Ho2. destruct Ho2 as [Eo2|Ho2].
    + subst o2. rewrite app_nil_r.
      apply lang_opt in Ho1. destruct Ho1 as [Eo1|Ho1].
      * subst o1. rewrite app_nil_r. apply ends_solid_digits; [exact Hp | lia].
      * apply ends_solid_app.
        refine (lang_seqs_last
                  [star (cls true space); lit true ","; star (cls true space)]
                  _ o1 _ Ho1).
        intros t Ht. cbn [lang] in Ht. apply lang_digits in Ht; [|lia].
        apply ends_solid_digits; [apply Ht | lia].
    + do 2 apply ends_solid_app.
      refine (lang_seqs_last
                [star (cls true space); lit true "(";
                 Group (g + 4) (lazy_plus (ncls true (eqc ")")));
                 star (cls true space);
                 Group (g + 5) (times 4 4 (cls true digit))]
                _ o2 _ Ho2).
      intros t (b & Et & Hb). exists [], b. split; [exact Et|].
      apply (lit_solid ")" b); [reflexivity | exact Hb].
Qed.

Lemma full_lang (s : list ascii) :
  lang (tree fullCitation) s ->
  Js.starts_solid s /\ Js.ends_solid s
  /\ exists a, In a s /\ Js.is_digit a = true.
Proof.
  unfold fullCitation. cbn [tree]. intros H.
  apply lang_seqs_cons in H. destruct H as (nm & s2 & E1 & Hn & H).
  apply lang_seqs_cons in H. destruct H as (cm & s3 & E2 & _ & H).
  apply lang_seqs_cons in H. destruct H as (sp & s4 & E3 & _ & H).
  apply core_lang in H. destruct H as [(a & l & E4 & Ha) He].
  cbn [lang] in Hn.
  apply lang_seqs_cons in Hn. destruct Hn as (c1 & n2 & E5 & (b & Eb & Hb) & _).
  subst. split; [|split].
  - exists b, (n2 ++ cm ++ sp ++ a :: l)%list. split; [reflexivity|].
    apply ci_capital_solid. exact Hb.
  - do 3 apply ends_solid_app. exact He.
  - exists a. split; [|exact Ha].
    apply in_or_app; right. apply in_or_app; right. apply in_or_app; right.
    left. reflexivity.
Qed.

Lemma short_lang (s : list ascii) :
  lang (tree shortCitation) s ->
  Js.starts_solid s /\ Js.ends_solid s
  /\ exists a, In a s /\ Js.is_digit a = true.
Proof.
  unfold shortCitation. cbn [tree]. intros H.
  apply lang_seqs_cons in H. destruct H as (e & s2 & E1 & He & H).
  simpl in He. subst e s. simpl.
  apply core_lang in H. destruct H as [(a & l & E4 & Ha) He].
  subst s2. split; [|split].
  - exists a, l. split; [reflexivity | apply digit_solid, Ha].
  - exact He.
  - exists a. split; [left; reflexivity | exact Ha].
Qed.

(** A match of either pattern has nothing for [trim] to remove, and
    contains a decimal digit. *)
Lemma citation_match (re : RegExp) (text : string) (m : MatchResult) :
  re = fullCitation \/ re = shortCitation ->
  match_of re text m ->
  rawOf m = matched m
  /\ Js.substring (index m) (index m + String.length (rawOf m)) text = rawOf m
  /\ exists a, In a (Js.chars text) /\ Js.is_digit a = true.
Proof.
  intros Hre Hm. pose proof (match_of_substring re text m Hm) as Hsub.
  destruct Hm as (s & Em & HL & _ & El & Hs).
  assert (H : Js.starts_solid s /\ Js.ends_solid s
              /\ exists a, In a s /\ Js.is_digit a = true).
  { destruct Hre; subst re; [apply full_lang | apply short_lang]; exact HL. }
  destruct H as (H1 & H2 & a & Hin & Ha).
  assert (Er : rawOf m = matched m).
  { unfold rawOf, Js.trim. rewrite Em, chars_str, trim_chars_solid; auto. }
  split; [exact Er|]. split.
  - rewrite Er.
    replace (index m + String.length (matched m)) with (lastIndex m);
      [exact Hsub|].
    rewrite Em, str_length. exact El.
  - exists a. split; [|exact Ha].
    rewrite <- (firstn_skipn (index m) (Js.chars text)), Hs.
    apply in_or_app; right. apply in_or_app; left. exact Hin.
Qed.

(** X11. The raw text of every citation returned is exactly the part of
    the input between its [startIndex] and its [endIndex]: the match
    never starts or ends with white space, so [trim] removes nothing. *)
Theorem X11_raw_is_the_text_span (text : string) :
  Forall (fun c => Js.substring (startIndex c) (endIndex c) text = raw c)
    (extractCitations text).
Proof.
  apply (Permutation_Forall (Permutation_sym (extract_perm text))).
  pose proof (exec_all_sound fullCitation text (rounds text) _
                (start_at_text text)) as Hf.
  pose proof (exec_all_sound shortCitation text (rounds text) _
                (start_at_text text)) as Hs.
  rewrite Forall_forall in Hf, Hs.
  eapply Forall_impl; [|apply retained_from_matches]. simpl.
  intros c [(m & Hin & Ec)|(m & Hin & Ec)]; subst c; simpl.
  - apply (citation_match fullCitation text m); [left; reflexivity|].
    apply Hf. exact Hin.
  - apply (citation_match shortCitation text m); [right; reflexivity|].
    apply Hs. exact Hin.
Qed.

(** ** The numeric fields *)

Lemma digit_group (re : RegExp) (m : MatchResult) (i lo hi : nat) (t : string) :
  caps_ok (group_property re) (groups m) ->
  group_bodies (tree re) (S i) = [times lo hi (cls true digit)] ->
  lo <= hi ->
  nth i (groups m) None = Some t -> Js.digits lo hi t.
Proof.
  intros Hc Hb Hle E. destruct (Hc i t E) as (r' & s & Hin & HL & Et).
  rewrite Hb in Hin. destruct Hin as [Er|[]]. subst r' t.
  apply lang_digits in HL; [|exact Hle]. unfold Js.digits.
  rewrite chars_str, str_length. exact HL.
Qed.

Lemma group_bodies_seqs (l : list regex) (i : nat) :
  group_bodies (seqs l) i = flat_map (fun r => group_bodies r i) l.
Proof.
  induction l as [|r l IH]; [reflexivity|].
  destruct l as [|r' l].
  - simpl. rewrite app_nil_r. reflexivity.
  - change (seqs (r :: r' :: l)) with (Seq r (seqs (r' :: l))).
    cbn [group_bodies flat_map]. rewrite IH. reflexivity.
Qed.

Lemma group_bodies_alts (l : list regex) (i : nat) :
  group_bodies (alts l) i = flat_map (fun r => group_bodies r i) l.
Proof.
  induction l as [|r l IH]; [reflexivity|].
  destruct l as [|r' l].
  - simpl. rewrite app_nil_r. reflexivity.
  - change (alts (r :: r' :: l)) with (Alt r (alts (r' :: l))).
    cbn [group_bodies flat_map]. rewrite IH. reflexivity.
Qed.

(** The reporter pattern has no capturing group of its own. *)
Lemma group_bodies_reporter (i : nat) : group_bodies REPORTER_PATTERN i = [].
Proof.
  unfold REPORTER_PATTERN. rewrite group_bodies_alts.
  induction reporterNames as [|k l IH]; [reflexivity|].
  cbn [map flat_map]. rewrite IH, app_nil_r.
  unfold reporter_regex. rewrite group_bodies_seqs.
  induction (Js.chars k) as [|a cs IHc]; [reflexivity|].
  cbn [map flat_map]. rewrite IHc, app_nil_r.
  unfold reporter_atom. destruct (space a); reflexivity.
Qed.

(** The six groups of the citation proper. *)
Lemma core_groups (g i : nat) :
  group_bodies (seqs (citation_core g)) i
  = ((if Nat.eqb g i then [times 1 4 (cls true digit)] else [])
     ++ (if Nat.eqb (g + 1) i then [REPORTER_PATTERN] else [])
     ++ (if Nat.eqb (g + 2) i then [times 1 5 (cls true digit)] else [])
     ++ (if Nat.eqb (g + 3) i then [times 1 5 (cls true digit)] else [])
     ++ (if Nat.eqb (g + 4) i then [lazy_plus (ncls true (eqc ")"))] else [])
     ++ (if Nat.eqb (g + 5) i then [times 4 4 (cls true digit)] else []))%list.
Proof.
  rewrite group_bodies_seqs. unfold citation_core.
  cbn [flat_map group_bodies seqs star opt times cls ncls lit lazy_plus].
  rewrite group_bodies_reporter.
  repeat rewrite app_nil_r. repeat rewrite <- app_assoc. reflexivity.
Qed.

Lemma full_bodies (i : nat) :
  2 <= i ->
  group_bodies (tree fullCitation) i = group_bodies (seqs (citation_core 2)) i.
Proof.
  intros Hi. unfold fullCitation. cbn [tree]. rewrite !group_bodies_seqs.
  cbn [flat_map group_bodies seqs star opt plus lazy_star versus cls lit app].
  destruct i as [|[|i]]; try lia. reflexivity.
Qed.

Lemma short_bodies (i : nat) :
  group_bodies (tree shortCitation) i = group_bodies (seqs (citation_core 1)) i.
Proof.
  unfold shortCitation. cbn [tree]. rewrite !group_bodies_seqs. reflexivity.
Qed.

Lemma full_groups :
  group_bodies (tree fullCitation) 2 = [times 1 4 (cls true digit)]
  /\ group_bodies (tree fullCitation) 4 = [times 1 5 (cls true digit)]
  /\ group_bodies (tree fullCitation) 7 = [times 4 4 (cls true digit)]
  /\ defines (tree fullCitation) 2 = true
  /\ defines (tree fullCitation) 3 = true
  /\ defines (tree fullCitation) 4 = true.
Proof.
  rewrite !full_bodies by lia. rewrite !core_groups.
  repeat split; vm_compute; reflexivity.
Qed.

Lemma short_groups :
  group_bodies (tree shortCitation) 1 = [times 1 4 (cls true digit)]
  /\ group_bodies (tree shortCitation) 3 = [times 1 5 (cls true digit)]
  /\ group_bodies (tree shortCitation) 6 = [times 4 4 (cls true digit)]
  /\ defines (tree shortCitation) 1 = true
  /\ defines (tree shortCitation) 2 = true
  /\ defines (tree shortCitation) 3 = true.
Proof.
  rewrite !short_bodies, !core_groups.
  repeat split; vm_compute; reflexivity.
Qed.

Lemma reporter_groups :
  group_bodies (tree fullCitation) 3 = [REPORTER_PATTERN]
  /\ group_bodies (tree shortCitation) 2 = [REPORTER_PATTERN].
Proof.
  rewrite full_bodies by lia. rewrite short_bodies, !core_groups.
  split; reflexivity.
Qed.

Lemma present (A : Type) (o : option A) : o <> None -> exists v, o = Some v.
Proof. destruct o as [v|]; [exists v; reflexivity | contradiction]. Qed.

(** The numeric groups of a match of the full pattern. *)
Lemma full_match_fields (text : string) (m : MatchResult) :
  In m (exec_all (rounds text) fullCitation (start_of text)) ->
  (exists v, group m 2 = Some v /\ Js.digits 1 4 v)
  /\ (exists p, group m 4 = Some p /\ Js.digits 1 5 p)
  /\ (forall y, group m 7 = Some y -> Js.digits 4 4 y)
  /\ group m 3 <> None.
Proof.
  intros Hin.
  destruct full_groups as (B2 & B4 & B7 & D2 & D3 & D4).
  pose proof (exec_all_sound fullCitation text (rounds text) _
                (start_at_text text)) as Hs.
  rewrite Forall_forall in Hs. destruct (Hs m Hin) as (s & _ & _ & Hc & _).
  assert (Hd : forall i, defines (tree fullCitation) (S i) = true -> i < 7 ->
                         nth i (groups m) None <> None).
  { intros i Hi Hlt.
    pose proof (exec_all_defines fullCitation i (rounds text) Hi Hlt
                  (start_of text)) as H.
    rewrite Forall_forall in H. apply H, Hin. }
  cbn [group]. split; [|split; [|split]].
  - destruct (present _ _ (Hd 1 D2 ltac:(lia))) as (v & Ev). exists v.
    split; [exact Ev|]. apply (digit_group fullCitation m 1); auto.
  - destruct (present _ _ (Hd 3 D4 ltac:(lia))) as (v & Ev). exists v.
    split; [exact Ev|]. apply (digit_group fullCitation m 3); auto.
  - intros y Ey. apply (digit_group fullCitation m 6); auto.
  - apply (Hd 2 D3). lia.
Qed.

(** The numeric groups of a match of the short pattern. *)
Lemma short_match_fields (text : string) (m : MatchResult) :
  In m (shortMatches text) ->
  (exists v, group m 1 = Some v /\ Js.digits 1 4 v)
  /\ (exists p, group m 3 = Some p /\ Js.digits 1 5 p)
  /\ (forall y, group m 6 = Some y -> Js.digits 4 4 y)
  /\ group m 2 <> None.
Proof.
  unfold shortMatches. intros Hin.
  destruct short_groups as (B2 & B4 & B7 & D2 & D3 & D4).
  pose proof (exec_all_sound shortCitation text (rounds text) _
                (start_at_text text)) as Hs.
  rewrite Forall_forall in Hs. destruct (Hs m Hin) as (s & _ & _ & Hc & _).
  assert (Hd : forall i, defines (tree shortCitation) (S i) = true -> i < 6 ->
                         nth i (groups m) None <> None).
  { intros i Hi Hlt.
    pose proof (exec_all_defines shortCitation i (rounds text) Hi Hlt
                  (start_of text)) as H.
    rewrite Forall_forall in H. apply H, Hin. }
  cbn [group]. split; [|split; [|split]].
  - destruct (present _ _ (Hd 0 D2 ltac:(lia))) as (v & Ev). exists v.
    split; [exact Ev|]. apply (digit_group shortCitation m 0); auto.
  - destruct (present _ _ (Hd 2 D4 ltac:(lia))) as (v & Ev). exists v.
    split; [exact Ev|]. apply (digit_group shortCitation m 2); auto.
  - intros y Ey. apply (digit_group shortCitation m 5); auto.
  - apply (Hd 1 D3). lia.
Qed.

Lemma extracted_fields (text : string) :
  Forall (fun c =>
            (exists v, volume c = Some v /\ Js.digits 1 4 v)
            /\ (exists p, page c = Some p /\ Js.digits 1 5 p)
            /\ (forall y, year c = Some y -> Js.digits 4 4 y))
    (extractCitations text).
Proof.
  apply (Permutation_Forall (Permutation_sym (extract_perm text))).
  eapply Forall_impl; [|apply retained_from_matches]. simpl.
  intros c [(m & Hin & Ec)|(m & Hin & Ec)]; subst c; simpl.
  - destruct (full_match_fields text m Hin) as (H1 & H2 & H3 & _). auto.
  - destruct (short_match_fields text m Hin) as (H1 & H2 & H3 & _). auto.
Qed.

(** X12. Every citation returned has a volume of one to four decimal
    digits and a page of one to five; its year, when there is one, has
    exactly four decimal digits. *)
Theorem X12_numeric_fields (text : string) :
  Forall (fun c =>
            (exists v, volume c = Some v /\ Js.digits 1 4 v)
            /\ (exists p, page c = Some p /\ Js.digits 1 5 p)
            /\ (forall y, year c = Some y -> Js.digits 4 4 y))
    (extractCitations text).
Proof. exact (extracted_fields text). Qed.

(** ** Texts without a digit *)

Lemma no_digit_no_match (re : RegExp) (text : string) :
  re = fullCitation \/ re = shortCitation ->
  Forall (fun a => Js.is_digit a = false) (Js.chars text) ->
  exec_all (rounds text) re (start_of text) = [].
Proof.
  intros Hre Hall.
  pose proof (exec_all_sound re text (rounds text) _ (start_at_text text)) as Hs.
  destruct (exec_all (rounds text) re (start_of text)) as [|m ms]; [reflexivity|].
  inversion Hs as [|? ? Hm _]; subst.
  destruct (citation_match re text m Hre Hm) as (_ & _ & a & Hin & Ha).
  rewrite Forall_forall in Hall. rewrite (Hall a Hin) in Ha. discriminate.
Qed.

Lemma no_digit_check (text : string) :
  forallb (fun a => negb (Js.is_digit a)) (Js.chars text) = true ->
  Forall (fun a => Js.is_digit a = false) (Js.chars text).
Proof.
  intros H. apply Forall_forall. intros a Hin.
  rewrite forallb_forall in H. apply negb_true_iff, H, Hin.
Qed.

(** X13. A text without a decimal digit holds no citation. *)
Theorem X13_no_digit_no_citation (text : string) :
  Forall (fun a => Js.is_digit a = false) (Js.chars text) ->
  extractCitations text = [].
Proof.
  intros Hall. unfold extractCitations, shortPass, fullPass.
  rewrite !while_exec_fold.
  rewrite (no_digit_no_match fullCitation text (or_introl eq_refl) Hall).
  rewrite (no_digit_no_match shortCitation text (or_intror eq_refl) Hall).
  reflexivity.
Qed.

Lemma X13_no_digit_no_citation_witness :
  extractCitations "Roe v. Wade, decided by the Court" = [].
Proof.
  apply (X13_no_digit_no_citation "Roe v. Wade, decided by the Court").
  apply no_digit_check. vm_compute. reflexivity.
Defined.

(** ** The loops end *)

Lemma exec_all_count (re : RegExp) (fuel : nat) :
  forall cur,
    min_len (tree re) * List.length (exec_all fuel re cur)
    <= List.length (rest cur).
Proof.
  induction fuel as [|fuel IH]; intros cur; simpl; [lia|].
  destruct (exec re cur) as [m|] eqn:E; simpl; [|lia].
  unfold exec in E. apply exec_scan_bounds in E.
  specialize (IH (cursor_of (final m))). simpl in IH. lia.
Qed.

Lemma citation_patterns_min_len :
  min_len (tree fullCitation) = 11 /\ min_len (tree shortCitation) = 4.
Proof. vm_compute. split; reflexivity. Qed.

(** X14. Both loops of [extractCitations] end by themselves.  A match of
    the full pattern spans at least 11 characters and one of the short
    pattern at least 4, so the first loop runs at most [|text| / 11]
    times and the second at most [|text| / 4] times; any number of
    rounds from [|text| + 1] on leaves each loop in the same state. *)
Theorem X14_loops_end (text : string) (n : nat) (acc : Acc) :
  String.length text < n ->
  while_exec n fullCitation fullStep acc (start_of text)
  = while_exec (rounds text) fullCitation fullStep acc (start_of text)
  /\ while_exec n shortCitation (shortStep text) acc (start_of text)
     = while_exec (rounds text) shortCitation (shortStep text) acc
         (start_of text)
  /\ 11 * List.length (exec_all n fullCitation (start_of text))
     <= String.length text
  /\ 4 * List.length (exec_all n shortCitation (start_of text))
     <= String.length text.
Proof.
  intros Hn. destruct citation_patterns_min_len as [Ef Es].
  assert (Hf : 1 <= min_len (tree fullCitation)) by (rewrite Ef; lia).
  assert (Hs : 1 <= min_len (tree shortCitation)) by (rewrite Es; lia).
  assert (Hlen : List.length (rest (start_of text)) < rounds text).
  { unfold rounds. simpl. rewrite chars_length. lia. }
  assert (Hle : rounds text <= n) by (unfold rounds; lia).
  rewrite !while_exec_fold.
  rewrite (exec_all_enough fullCitation Hf (rounds text) n _ Hlen Hle).
  rewrite (exec_all_enough shortCitation Hs (rounds text) n _ Hlen Hle).
  split; [reflexivity|]. split; [reflexivity|].
  pose proof (exec_all_count fullCitation (rounds text) (start_of text)) as Cf.
  pose proof (exec_all_count shortCitation (rounds text) (start_of text)) as Cs.
  rewrite Ef in Cf. rewrite Es in Cs. simpl rest in Cf, Cs.
  rewrite chars_length in Cf, Cs. split; assumption.
Qed.

Lemma X14_loops_end_witness :
  String.length roe_text < 40
  /\ while_exec 40 fullCitation fullStep (mkAcc [] []) (start_of roe_text)
     = while_exec (rounds roe_text) fullCitation fullStep (mkAcc [] [])
         (start_of roe_text)
  /\ 11 * List.length (exec_all 40 fullCitation (start_of roe_text))
     <= String.length roe_text.
Proof.
  assert (H : String.length roe_text < 40) by (vm_compute; lia).
  split; [exact H|].
  destruct (X14_loops_end roe_text 40 (mkAcc [] []) H) as (H1 & _ & H3 & _).
  split; assumption.
Defined.

(** ** Reading the numeric fields *)

Lemma digit_value_digit (a : ascii) :
  Js.is_digit a = true -> Js.digit_value 10 a <> None.
Proof.
  destruct a as [[] [] [] [] [] [] [] []]; vm_compute; intros H;
    try discriminate H; intros E; discriminate E.
Qed.

Lemma read_digits_some (l : list ascii) :
  Forall (fun a => Js.is_digit a = true) l ->
  forall acc, acc <> None \/ l <> [] -> Js.read_digits 10 acc l <> None.
Proof.
  induction 1 as [|a l Ha _ IH]; intros acc Hacc; simpl.
  - destruct Hacc as [Hacc|Hacc]; [exact Hacc | contradiction].
  - destruct (Js.digit_value 10 a) as [d|] eqn:Ed.
    + apply IH. left. discriminate.
    + exfalso. apply (digit_value_digit a Ha Ed).
Qed.

Lemma strip_hex_digits (l : list ascii) :
  Forall (fun a => Js.is_digit a = true) l -> Js.strip_hex_prefix l = None.
Proof.
  intros H. destruct l as [|a [|b l]]; [reflexivity| |].
  - destruct a as [[] [] [] [] [] [] [] []]; reflexivity.
  - inversion H as [|? ? _ H']; subst. inversion H' as [|? ? Hb _]; subst.
    destruct a as [[] [] [] [] [] [] [] []]; try reflexivity.
    destruct b as [[] [] [] [] [] [] [] []]; try reflexivity;
      vm_compute in Hb; discriminate Hb.
Qed.

(** [parseInt] of a non-empty string of decimal digits is a number. *)
Lemma parseInt_digits (lo hi : nat) (t : string) :
  1 <= lo -> Js.digits lo hi t ->
  exists n, Js.parseInt t = Some n /\ (0 <= n)%Z.
Proof.
  intros Hlo [Hall Hlen]. unfold Js.parseInt.
  destruct (Js.chars t) as [|a l] eqn:E.
  { rewrite <- chars_length, E in Hlen. simpl in Hlen. lia. }
  pose proof (strip_hex_digits _ Hall) as Hx.
  assert (Hr : Js.read_digits 10 None (a :: l) <> None)
    by (apply read_digits_some; [exact Hall | right; discriminate]).
  inversion Hall as [|? ? Ha _]; subst.
  rewrite (drop_spaces_solid (a :: l));
    [|exists a, l; split; [reflexivity | apply digit_solid, Ha]].
  assert (Es : match a :: l with
               | "-"%char :: l' => (true, l')
               | "+"%char :: l' => (false, l')
               | _ => (false, a :: l)
               end = (false, a :: l)).
  { clear -Ha. destruct a as [[] [] [] [] [] [] [] []]; try reflexivity;
      vm_compute in Ha; discriminate Ha. }
  cbv zeta. rewrite Es, Hx.
  destruct (Js.read_digits 10 None (a :: l)) as [n|]; [|contradiction].
  exists (Z.of_N n). split; [reflexivity | lia].
Qed.

(** ** The reporter field *)

Lemma lang_alts (l : list regex) (s : list ascii) :
  lang (alts l) s -> exists r, In r l /\ lang r s.
Proof.
  induction l as [|r l IH]; [intros (a & _ & H); discriminate H|].
  destruct l as [|r' l].
  - intros H. exists r. split; [left; reflexivity | exact H].
  - intros [H|H].
    + exists r. split; [left; reflexivity | exact H].
    + destruct (IH H) as (r0 & Hin & H0). exists r0. split; [right|]; assumption.
Qed.

Lemma reporter_lang_dot (k s : list ascii) :
  In "."%char k -> lang (seqs (map reporter_atom k)) s -> In "."%char s.
Proof.
  revert s. induction k as [|a k IH]; intros s Hin H; [destruct Hin|].
  change (map reporter_atom (a :: k))
    with (reporter_atom a :: map reporter_atom k) in H.
  apply lang_seqs_cons in H. destruct H as (s1 & s2 & E & H1 & H2). subst s.
  apply in_or_app. destruct Hin as [Ea|Hin].
  - left. subst a. destruct H1 as (b & Eb & Hb). subst s1.
    apply canon_dot in Hb. subst b. left. reflexivity.
  - right. apply IH; assumption.
Qed.

Lemma reporter_keys_dotted :
  forallb (fun k => existsb (Ascii.eqb ".") (Js.chars k)) reporterNames = true.
Proof. vm_compute. reflexivity. Qed.

(** Whatever the reporter pattern matches contains a dot. *)
Lemma reporter_pattern_dot (s : list ascii) :
  lang REPORTER_PATTERN s -> In "."%char s.
Proof.
  unfold REPORTER_PATTERN. intros H.
  apply lang_alts in H. destruct H as (r & Hin & H).
  apply in_map_iff in Hin. destruct Hin as (k & Er & Hk). subst r.
  pose proof reporter_keys_dotted as Hd. rewrite forallb_forall in Hd.
  specialize (Hd k Hk). apply existsb_exists in Hd.
  destruct Hd as (a & Ha & Ea). apply Ascii.eqb_eq in Ea. subst a.
  apply (reporter_lang_dot (Js.chars k)); assumption.
Qed.

Lemma drop_spaces_keeps (a : ascii) (l : list ascii) :
  Js.is_space a = false -> In a l -> In a (Js.drop_spaces l).
Proof.
  intros Ha. induction l as [|b l IH]; intros Hin; [destruct Hin|]. simpl.
  destruct (Js.is_space b) eqn:Eb; [|exact Hin].
  destruct Hin as [E|Hin]; [congruence | auto].
Qed.

Lemma trim_keeps (a : ascii) (s : string) :
  Js.is_space a = false -> In a (Js.chars s) -> In a (Js.chars (Js.trim s)).
Proof.
  intros Ha Hin. unfold Js.trim, Js.trim_chars. rewrite chars_str.
  apply in_rev. rewrite rev_involutive.
  apply drop_spaces_keeps; [exact Ha|]. apply -> in_rev.
  apply drop_spaces_keeps; assumption.
Qed.

(** One round of a global search, in terms of the text still to read. *)
Lemma exec_split (re : RegExp) (text : string) (cur : Cursor) (m : MatchResult) :
  at_text text cur -> exec re cur = Some m ->
  exists s,
    lang (tree re) s
    /\ rest cur = (firstn (index m - at_index cur) (rest cur)
                   ++ s ++ after (final m))%list
    /\ at_text text (cursor_of (final m)).
Proof.
  intros Hc E. unfold exec in E. destruct cur as [sn rs i].
  pose proof (exec_scan_bounds re rs sn i m E) as (Hi & _).
  destruct (exec_scan_sound re text rs sn i m Hc E)
    as [(s & _ & HL & _ & El & Hs) Hc'].
  exists s. split; [exact HL|]. split; [|exact Hc'].
  destruct Hc as [Ht Hn]. destruct Hc' as [Ht' Hn']. simpl in *.
  assert (Ers : rs = skipn i (Js.chars text)).
  { rewrite <- Ht, Hn. symmetry. apply skipn_rev_app. }
  assert (Eaf : after (final m) = skipn (lastIndex m) (Js.chars text)).
  { rewrite <- Ht'. unfold lastIndex. rewrite Hn'. symmetry.
    apply skipn_rev_app. }
  rewrite Eaf, <- Hs.
  rewrite <- (firstn_skipn (index m - i) rs) at 1. f_equal.
  rewrite Ers, skipn_skipn. f_equal. lia.
Qed.

Lemma spaces_lang (s : list ascii) :
  lang (tree spaces_g) s -> Forall (fun a => Js.is_space a = true) s.
Proof.
  intros H. apply lang_repeat_chars in H. apply H.
Qed.

(** Replacing runs of white space keeps every other character. *)
Lemma replace_loop_keeps (a : ascii) (by_ : list ascii) (text : string)
    (fuel : nat) :
  Js.is_space a = false ->
  forall cur, at_text text cur -> In a (rest cur) ->
              In a (replace_loop fuel spaces_g by_ cur).
Proof.
  intros Ha. induction fuel as [|fuel IH]; intros cur Hc Hin; simpl;
    [exact Hin|].
  destruct (exec spaces_g cur) as [m|] eqn:E; [|exact Hin].
  destruct (exec_split spaces_g text cur m Hc E) as (s & HL & Er & Hc').
  apply spaces_lang in HL. rewrite Forall_forall in HL.
  rewrite Er in Hin. apply in_app_or in Hin.
  assert (Hrest : In a (firstn (index m - at_index cur) (rest cur))
                  \/ In a (after (final m))).
  { destruct Hin as [Hin|Hin]; [left; exact Hin|].
    apply in_app_or in Hin. destruct Hin as [Hin|Hin]; [|right; exact Hin].
    rewrite (HL a Hin) in Ha. discriminate. }
  clear Hin. destruct (Nat.eqb (lastIndex m) (index m)).
  - unfold advance. simpl.
    destruct (after (final m)) as [|b rs] eqn:Ea.
    + apply in_or_app. left. destruct Hrest as [H|[]]. exact H.
    + apply in_or_app. destruct Hrest as [H|H]; [left; exact H|].
      right. apply in_or_app. right.
      destruct H as [H|H]; [left; exact H|]. right.
      apply IH; [|exact H].
      destruct Hc' as [Ht Hn]. simpl in Ht, Hn. split; simpl.
      * rewrite Ea in Ht. rewrite <- app_assoc. exact Ht.
      * rewrite Hn. reflexivity.
  - apply in_or_app. destruct Hrest as [H|H]; [left; exact H|].
    right. apply in_or_app. right. apply IH; [exact Hc' | exact H].
Qed.

Lemma replace_spaces_keeps (a : ascii) (by_ s : string) :
  Js.is_space a = false -> In a (Js.chars s) ->
  In a (Js.chars (replace_all spaces_g by_ s)).
Proof.
  intros Ha Hin. unfold replace_all. rewrite chars_str.
  apply (replace_loop_keeps a _ s); [exact Ha | apply start_at_text | exact Hin].
Qed.

Lemma dotted_not_inherited (k : string) :
  In "."%char (Js.chars k) -> existsb (String.eqb k) OBJECT_PROTOTYPE = false.
Proof.
  intros H. destruct (existsb (String.eqb k) OBJECT_PROTOTYPE) eqn:E;
    [|reflexivity].
  apply existsb_exists in E. destruct E as (x & Hin & Ex).
  apply String.eqb_eq in Ex. subst x. unfold OBJECT_PROTOTYPE in Hin.
  simpl in Hin.
  repeat (destruct Hin as [Hin|Hin];
          [subst k; vm_compute in H; intuition discriminate|]).
  destruct Hin.
Qed.

Lemma reporter_group_dot (re : RegExp) (m : MatchResult) (i : nat) :
  caps_ok (group_property re) (groups m) ->
  group_bodies (tree re) (S i) = [REPORTER_PATTERN] ->
  nth i (groups m) None <> None ->
  In "."%char
    (Js.chars (replace_all spaces_g " "
                 (normalizeReporter (Js.show (nth i (groups m) None))))).
Proof.
  intros Hc Hb Hd. destruct (present _ _ Hd) as (t & Et). rewrite Et.
  destruct (Hc i t Et) as (r' & s & Hin & HL & Es).
  rewrite Hb in Hin. destruct Hin as [Er|[]]. subst r' t. simpl Js.show.
  apply reporter_pattern_dot in HL. unfold normalizeReporter.
  apply replace_spaces_keeps; [reflexivity|].
  apply trim_keeps; [reflexivity|].
  apply replace_spaces_keeps; [reflexivity|].
  rewrite chars_str. exact HL.
Qed.

(** The reporter of a citation returned never names a property inherited
    from [Object.prototype]. *)
Lemma extracted_reporter (text : string) :
  Forall (fun c =>
            existsb (String.eqb (replace_all spaces_g " " (reporter c)))
              OBJECT_PROTOTYPE = false)
    (extractCitations text).
Proof.
  apply (Permutation_Forall (Permutation_sym (extract_perm text))).
  destruct reporter_groups as [Bf Bs].
  pose proof (exec_all_sound fullCitation text (rounds text) _
                (start_at_text text)) as Hf.
  pose proof (exec_all_sound shortCitation text (rounds text) _
                (start_at_text text)) as Hs.
  rewrite Forall_forall in Hf, Hs.
  eapply Forall_impl; [|apply retained_from_matches]. simpl.
  intros c [(m & Hin & Ec)|(m & Hin & Ec)]; subst c;
    cbn [reporter fullRecord shortRecord group]; apply dotted_not_inherited.
  - destruct (Hf m Hin) as (s & _ & _ & Hc & _).
    destruct (full_match_fields text m Hin) as (_ & _ & _ & Hd).
    apply (reporter_group_dot fullCitation m 2 Hc Bf Hd).
  - destruct (Hs m Hin) as (s & _ & _ & Hc & _).
    destruct (short_match_fields text m Hin) as (_ & _ & _ & Hd).
    apply (reporter_group_dot shortCitation m 1 Hc Bs Hd).
Qed.

Lemma digits_nonempty (lo hi : nat) (t : string) :
  1 <= lo -> Js.digits lo hi t -> String.eqb t "" = false.
Proof.
  intros Hlo [_ Hlen]. destruct t; [simpl in Hlen; lia | reflexivity].
Qed.

(** X15. On a citation that [extractCitations] returns, the validator
    decides exactly what it is meant to: volume and page always read as
    numbers, and the citation is valid if and only if the volume is
    between 1 and 2000, the page between 1 and 10000, the year (when
    there is one) between 1789 and the current year, and the reporter a
    key of the Reporter Table.  No name inherited from
    [Object.prototype] reaches the validator this way. *)
Theorem X15_validator_exact_on_extracted (currentYear : Z) (text : string) :
  Forall (fun c =>
            exists v p,
              Js.parseInt (Js.show (volume c)) = Some v
              /\ Js.parseInt (Js.show (page c)) = Some p
              /\ (valid (validateCitationFormat currentYear c) = true
                  <-> (1 <= v <= 2000)%Z /\ (1 <= p <= 10000)%Z
                      /\ (forall ys, year c = Some ys ->
                            exists y, Js.parseInt ys = Some y
                                      /\ (1789 <= y <= currentYear)%Z)
                      /\ is_key ALL_REPORTERS
                           (replace_all spaces_g " " (reporter c)) = true))
    (extractCitations text).
Proof.
  pose proof (extracted_fields text) as Hf.
  pose proof (extracted_reporter text) as Hr.
  rewrite Forall_forall in Hf, Hr. apply Forall_forall. intros c Hin.
  destruct (Hf c Hin) as ((vs & Ev & Hv) & (ps & Ep & Hp) & Hy).
  specialize (Hr c Hin).
  destruct (parseInt_digits 1 4 vs (le_n 1) Hv) as (v & Pv & _).
  destruct (parseInt_digits 1 5 ps (le_n 1) Hp) as (p & Pp & _).
  exists v, p. rewrite Ev, Ep. simpl Js.show.
  split; [exact Pv|]. split; [exact Pp|].
  assert (Hyear : Js.truthy (year c) = true ->
                  Js.parseInt (Js.show (year c)) <> None).
  { destruct (year c) as [ys|] eqn:Ey; [|discriminate]. intros _. simpl.
    destruct (parseInt_digits 4 4 ys ltac:(lia) (Hy ys eq_refl)) as (y & Py & _).
    rewrite Py. discriminate. }
  assert (Hvol : Js.parseInt (Js.or_else (volume c) "0") = Some v).
  { rewrite Ev. simpl. rewrite (digits_nonempty 1 4 vs (le_n 1) Hv). exact Pv. }
  assert (Hpg : Js.parseInt (Js.or_else (page c) "0") = Some p).
  { rewrite Ep. simpl. rewrite (digits_nonempty 1 5 ps (le_n 1) Hp). exact Pp. }
  pose proof (validate_iff_in_range currentYear c v p Hvol Hpg Hyear Hr) as Hiff.
  pose proof (validate_valid_iff currentYear c) as Hvi.
  assert (Hyr : (Js.truthy (year c) = true ->
                 exists y, Js.parseInt (Js.show (year c)) = Some y
                           /\ (1789 <= y <= currentYear)%Z)
                <-> (forall ys, year c = Some ys ->
                       exists y, Js.parseInt ys = Some y
                                 /\ (1789 <= y <= currentYear)%Z)).
  { destruct (year c) as [ys|] eqn:Ey; simpl.
    - rewrite (digits_nonempty 4 4 ys ltac:(lia) (Hy ys eq_refl)). simpl.
      split.
      + intros H ys' E. inversion E; subst ys'. apply H. reflexivity.
      + intros H _. apply H. reflexivity.
    - split; [intros _ ys E; discriminate E | intros _ E; discriminate E]. }
  rewrite <- Hyr. split.
  - intros Hval. apply Hiff. split; [apply Hvi|]; exact Hval.
  - intros H. apply Hiff in H. apply H.
Qed.

(* ===================================================================== *)
(** * The exit status *)
(* ===================================================================== *)

(** ** The exit status of the command line *)



(* ===================================================================== *)
(** * Trimmed fields *)
(* ===================================================================== *)

Lemma drop_spaces_cases (l : list ascii) :
  Js.drop_spaces l = [] \/ Js.starts_solid (Js.drop_spaces l).
Proof.
  induction l as [|a l IH]; simpl; [left; reflexivity|].
  destruct (Js.is_space a) eqn:E; [exact IH|].
  right. exists a, l. auto.
Qed.

Lemma drop_spaces_suffix (l : list ascii) :
  exists pre, l = (pre ++ Js.drop_spaces l)%list.
Proof.
  induction l as [|a l (pre & IH)]; simpl; [exists []; reflexivity|].
  destruct (Js.is_space a).
  - exists (a :: pre). simpl. rewrite <- IH. reflexivity.
  - exists []. reflexivity.
Qed.

Lemma trim_trimmed (s : string) : Js.trimmed (Js.trim s).
Proof.
  unfold Js.trimmed, Js.trim, Js.trim_chars. rewrite chars_str.
  set (l1 := Js.drop_spaces (Js.chars s)).
  destruct (drop_spaces_cases (rev l1)) as [E3|(b & t & E3 & Hb)].
  - left. rewrite E3. reflexivity.
  - right. rewrite E3. simpl. split; [|exists (rev t), b; auto].
    destruct (drop_spaces_suffix (rev l1)) as (pre & Epre).
    rewrite E3 in Epre.
    assert (E1 : l1 = ((rev t ++ [b]) ++ rev pre)%list).
    { rewrite <- (rev_involutive l1), Epre, rev_app_distr. reflexivity. }
    destruct (drop_spaces_cases (Js.chars s)) as [E0|(a & l & Ea & Ha)];
      fold l1 in E0 || fold l1 in Ea.
    + rewrite E0 in E1. destruct (rev t); discriminate E1.
    + rewrite Ea in E1.
      destruct (rev t ++ [b])%list as [|x xs] eqn:Ex;
        [destruct (rev t); discriminate Ex|].
      simpl in E1. inversion E1; subst x. exists a, xs. auto.
Qed.

Lemma cleanCaseName_trimmed (name : option string) (n : string) :
  cleanCaseName name = Some n -> Js.trimmed n.
Proof.
  unfold cleanCaseName. destruct (negb (Js.truthy name)); [discriminate|].
  destruct name as [x|]; [|discriminate].
  intros E. inversion E. apply trim_trimmed.
Qed.

Lemma extractPrecedingCaseName_trimmed (text n : string) :
  extractPrecedingCaseName text = Some n -> Js.trimmed n.
Proof.
  unfold extractPrecedingCaseName.
  induction precedingPatterns as [|p ps IH]; simpl; [discriminate|].
  destruct (match_first p text) as [m|]; [apply cleanCaseName_trimmed | exact IH].
Qed.

(** X18. The text fields of every citation returned are trimmed: the raw
    text, the reporter and, when present, the case name and the court
    neither start nor end with white space. *)
Theorem X18_fields_trimmed (text : string) :
  Forall (fun c =>
            Js.trimmed (raw c) /\ Js.trimmed (reporter c)
            /\ (forall n, caseName c = Some n -> Js.trimmed n)
            /\ (forall k, court c = Some k -> Js.trimmed k))
    (extractCitations text).
Proof.
  apply (Permutation_Forall (Permutation_sym (extract_perm text))).
  eapply Forall_impl; [|apply retained_from_matches].
  intros c [(m & Hin & Ec)|(m & Hin & Ec)]; subst c;
    cbn [raw reporter caseName court fullRecord shortRecord];
    (split; [apply trim_trimmed|]); (split; [apply trim_trimmed|]); split.
  - apply cleanCaseName_trimmed.
  - intros k E. destruct (group m 6); inversion E. apply trim_trimmed.
  - apply extractPrecedingCaseName_trimmed.
  - intros k E. destruct (group m 5); inversion E. apply trim_trimmed.
Qed.

(* ===================================================================== *)
(** * The reporter, up to letter case and white space *)
(* ===================================================================== *)

Lemma squash_app (s t : list ascii) : squash (s ++ t) = (squash s ++ squash t)%list.
Proof. unfold squash. rewrite filter_app, map_app. reflexivity. Qed.

Lemma squash_spaces (s : list ascii) :
  Forall (fun a => Js.is_space a = true) s -> squash s = [].
Proof.
  unfold squash. induction 1 as [|a s Ha _ IH]; simpl; [reflexivity|].
  rewrite Ha. simpl. exact IH.
Qed.

Lemma squash_rev (s : list ascii) : squash (rev s) = rev (squash s).
Proof.
  induction s as [|a s IH]; [reflexivity|]. simpl rev.
  rewrite squash_app, IH.
  change (a :: s) with ([a] ++ s)%list. rewrite squash_app, rev_app_distr.
  f_equal. unfold squash. simpl. destruct (Js.is_space a); reflexivity.
Qed.

Lemma squash_drop_spaces (s : list ascii) : squash (Js.drop_spaces s) = squash s.
Proof.
  induction s as [|a s IH]; [reflexivity|]. simpl.
  destruct (Js.is_space a) eqn:E; [|reflexivity].
  rewrite IH. unfold squash. simpl. rewrite E. reflexivity.
Qed.

Lemma squash_trim (s : string) :
  squash (Js.chars (Js.trim s)) = squash (Js.chars s).
Proof.
  unfold Js.trim, Js.trim_chars.
  rewrite chars_str, squash_rev, squash_drop_spaces, squash_rev, rev_involutive.
  apply squash_drop_spaces.
Qed.

(** Replacing runs of white space by white space changes nothing else. *)
Lemma replace_loop_squash (by_ : list ascii) (text : string) (fuel : nat) :
  Forall (fun a => Js.is_space a = true) by_ ->
  forall cur, at_text text cur ->
              squash (replace_loop fuel spaces_g by_ cur) = squash (rest cur).
Proof.
  intros Hby. pose proof (squash_spaces by_ Hby) as Eby.
  induction fuel as [|fuel IH]; intros cur Hc; simpl; [reflexivity|].
  destruct (exec spaces_g cur) as [m|] eqn:E; [|reflexivity].
  destruct (exec_split spaces_g text cur m Hc E) as (s & HL & Er & Hc').
  apply spaces_lang, squash_spaces in HL.
  rewrite Er at 2. rewrite !squash_app, HL. simpl.
  destruct (Nat.eqb (lastIndex m) (index m)).
  - unfold advance. simpl.
    destruct (after (final m)) as [|b rs] eqn:Ea.
    + rewrite !squash_app, Eby. reflexivity.
    + rewrite !squash_app, Eby. simpl. f_equal.
      change (b :: replace_loop fuel spaces_g by_
                     (mkCursor (b :: before (final m)) rs
                        (S (Regex.endIndex (final m)))))
        with ([b] ++ replace_loop fuel spaces_g by_
                       (mkCursor (b :: before (final m)) rs
                          (S (Regex.endIndex (final m)))))%list.
      change (b :: rs) with ([b] ++ rs)%list.
      rewrite !squash_app. f_equal.
      rewrite IH; [reflexivity|].
      destruct Hc' as [Ht Hn]. simpl in Ht, Hn. split; simpl.
      * rewrite Ea in Ht. rewrite <- app_assoc. exact Ht.
      * rewrite Hn. reflexivity.
  - rewrite !squash_app, Eby. simpl. f_equal. apply IH, Hc'.
Qed.

Lemma squash_replace_spaces (s : string) :
  squash (Js.chars (replace_all spaces_g " " s)) = squash (Js.chars s).
Proof.
  unfold replace_all. rewrite chars_str.
  apply (replace_loop_squash _ s); [|apply start_at_text].
  repeat constructor.
Qed.

Lemma reporter_lang_squash (k s : list ascii) :
  lang (seqs (map reporter_atom k)) s -> squash s = squash k.
Proof.
  revert s. induction k as [|a k IH]; intros s H.
  - simpl in H. subst s. reflexivity.
  - change (map reporter_atom (a :: k))
      with (reporter_atom a :: map reporter_atom k) in H.
    apply lang_seqs_cons in H. destruct H as (s1 & s2 & E & H1 & H2). subst s.
    change (a :: k) with ([a] ++ k)%list.
    rewrite !squash_app, (IH s2 H2). f_equal.
    unfold reporter_atom, space in H1.
    destruct (Js.is_space a) eqn:Ea.
    + apply lang_repeat_chars in H1. destruct H1 as [H1 _].
      rewrite squash_spaces.
      * unfold squash. simpl. rewrite Ea. reflexivity.
      * eapply Forall_impl; [|exact H1]. intros b. apply ci_space.
    + destruct H1 as (b & Eb & Hb). subst s1.
      pose proof (lit_solid a b Ea Hb) as Hsb.
      apply Ascii.eqb_eq in Hb. unfold squash. simpl.
      rewrite Ea, Hsb. simpl. rewrite Hb. reflexivity.
Qed.

Lemma reporter_pattern_key (s : list ascii) :
  lang REPORTER_PATTERN s ->
  exists k, In k (keys ALL_REPORTERS) /\ squash s = squash (Js.chars k).
Proof.
  unfold REPORTER_PATTERN. intros H.
  apply lang_alts in H. destruct H as (r & Hin & H).
  apply in_map_iff in Hin. destruct Hin as (k & Er & Hk). subst r.
  exists k. split.
  - unfold reporterNames in Hk.
    exact (Permutation_in k (sort_stable_perm _ _ _) Hk).
  - apply reporter_lang_squash. exact H.
Qed.

Lemma reporter_group_key (re : RegExp) (m : MatchResult) (i : nat) :
  caps_ok (group_property re) (groups m) ->
  group_bodies (tree re) (S i) = [REPORTER_PATTERN] ->
  nth i (groups m) None <> None ->
  exists k,
    In k (keys ALL_REPORTERS)
    /\ squash (Js.chars (normalizeReporter (Js.show (nth i (groups m) None))))
       = squash (Js.chars k).
Proof.
  intros Hc Hb Hd. destruct (present _ _ Hd) as (t & Et). rewrite Et.
  destruct (Hc i t Et) as (r' & s & Hin & HL & Es).
  rewrite Hb in Hin. destruct Hin as [Er|[]]. subst r' t. simpl Js.show.
  destruct (reporter_pattern_key s HL) as (k & Hk & Ek).
  exists k. split; [exact Hk|].
  unfold normalizeReporter.
  rewrite squash_trim, squash_replace_spaces, chars_str. exact Ek.
Qed.

(** X19. The reporter of every citation returned is a key of the
    Reporter Table up to letter case and white space: with white space
    removed and letters upper-cased, it equals some key treated the same
    way. *)
Theorem X19_reporter_is_a_key_up_to_case_and_space (text : string) :
  Forall (fun c =>
            exists k, In k (keys ALL_REPORTERS)
                      /\ squash (Js.chars (reporter c)) = squash (Js.chars k))
    (extractCitations text).
Proof.
  apply (Permutation_Forall (Permutation_sym (extract_perm text))).
  destruct reporter_groups as [Bf Bs].
  pose proof (exec_all_sound fullCitation text (rounds text) _
                (start_at_text text)) as Hf.
  pose proof (exec_all_sound shortCitation text (rounds text) _
                (start_at_text text)) as Hs.
  rewrite Forall_forall in Hf, Hs.
  eapply Forall_impl; [|apply retained_from_matches]. simpl.
  intros c [(m & Hin & Ec)|(m & Hin & Ec)]; subst c;
    cbn [reporter fullRecord shortRecord group].
  - destruct (Hf m Hin) as (s & _ & _ & Hc & _).
    destruct (full_match_fields text m Hin) as (_ & _ & _ & Hd).
    apply (reporter_group_key fullCitation m 2 Hc Bf Hd).
  - destruct (Hs m Hin) as (s & _ & _ & Hc & _).
    destruct (short_match_fields text m Hin) as (_ & _ & _ & Hd).
    apply (reporter_group_key shortCitation m 1 Hc Bs Hd).
Qed.

(* ===================================================================== *)
(** * Court and year come together *)
(* ===================================================================== *)

Lemma nth_set_nth_none (A : Type) (l : list (option A)) (i : nat) :
  nth i (set_nth i None l) None = None.
Proof.
  revert i. induction l as [|a l IH]; intros [|i]; simpl; auto.
Qed.

Lemma clear_captures_member (parens : list nat) (caps : list (option string))
    (i : nat) :
  existsb (Nat.eqb (S i)) parens = true ->
  nth i (clear_captures parens caps) None = None.
Proof.
  unfold clear_captures. revert caps.
  induction parens as [|p parens IH]; intros caps H;
    cbn [existsb fold_left] in *; [discriminate|].
  destruct (existsb (Nat.eqb (S i)) parens) eqn:E; [apply IH; reflexivity|].
  rewrite orb_false_r in H. apply Nat.eqb_eq in H. subst p.
  pose proof (clear_captures_other parens (set_capture (S i) None caps) i E)
    as Ho.
  unfold clear_captures in Ho. rewrite Ho. simpl. apply nth_set_nth_none.
Qed.

Lemma couples_easy (r : regex) (i j : nat) :
  ((group_free r (S i) && group_free r (S j))
   || (defines r (S i) && defines r (S j)))%bool = true ->
  forall x c z,
    matcher r x c = Some z ->
    i < List.length (captures x) -> j < List.length (captures x) ->
    paired i j (captures x) ->
    exists y, c y = Some z
      /\ List.length (captures y) = List.length (captures x)
      /\ paired i j (captures y).
Proof.
  intros H x c z Hm Hi Hj Hp.
  destruct (matcher_settles r x c z Hm) as (y & Hc & Hl & Hk & Hd).
  exists y. split; [exact Hc|]. split; [exact Hl|].
  apply orb_true_iff in H. destruct H as [H|H];
    apply andb_true_iff in H; destruct H as [H1 H2].
  - unfold paired. rewrite (Hk i H1), (Hk j H2). exact Hp.
  - unfold paired. split; intros E; exfalso.
    + apply (Hd i H1 Hi E).
    + apply (Hd j H2 Hj E).
Qed.

Lemma repeatMatcher_couples (m : MatchState -> Cont -> option MatchState)
    (parens : list nat) (greedy : bool) (i j : nat) :
  (forall x c z,
      m x c = Some z ->
      i < List.length (captures x) -> j < List.length (captures x) ->
      paired i j (captures x) ->
      exists y, c y = Some z
        /\ List.length (captures y) = List.length (captures x)
        /\ paired i j (captures y)) ->
  existsb (Nat.eqb (S i)) parens = existsb (Nat.eqb (S j)) parens ->
  forall fuel mn mx x c z,
    repeatMatcher fuel m parens mn mx greedy x c = Some z ->
    i < List.length (captures x) -> j < List.length (captures x) ->
    paired i j (captures x) ->
    exists y, c y = Some z
      /\ List.length (captures y) = List.length (captures x)
      /\ paired i j (captures y).
Proof.
  intros Hm Hmem fuel.
  induction fuel as [|fuel IH]; intros mn mx x c z; simpl.
  - destruct (max_is_zero mx); [|discriminate].
    intros H _ _ Hp. exists x. auto.
  - destruct (max_is_zero mx); [intros H _ _ Hp; exists x; auto|].
    set (xr := mkState (before x) (after x) (Regex.endIndex x)
                 (clear_captures parens (captures x))).
    set (d := fun y : MatchState =>
                if (Nat.eqb mn 0
                    && Nat.eqb (Regex.endIndex y) (Regex.endIndex x))%bool
                then None
                else repeatMatcher fuel m parens (Nat.pred mn)
                       (option_map Nat.pred mx) greedy y c).
    assert (Hd : m xr d = Some z ->
                 i < List.length (captures x) -> j < List.length (captures x) ->
                 paired i j (captures x) ->
                 exists y, c y = Some z
                   /\ List.length (captures y) = List.length (captures x)
                   /\ paired i j (captures y)).
    { intros H Hi Hj Hp.
      assert (Hl : List.length (captures xr) = List.length (captures x))
        by apply clear_captures_length.
      assert (Hpr : paired i j (captures xr)).
      { unfold paired. simpl.
        destruct (existsb (Nat.eqb (S i)) parens) eqn:Ei.
        - rewrite (clear_captures_member parens _ i Ei).
          rewrite (clear_captures_member parens _ j); [tauto | congruence].
        - rewrite (clear_captures_other parens _ i Ei).
          rewrite (clear_captures_other parens _ j); [exact Hp | congruence]. }
      destruct (Hm xr d z H) as (y1 & Hd1 & Hl1 & Hp1); try lia; [exact Hpr|].
      unfold d in Hd1.
      destruct (Nat.eqb mn 0
                && Nat.eqb (Regex.endIndex y1) (Regex.endIndex x))%bool;
        [discriminate|].
      destruct (IH _ _ y1 c z Hd1) as (y & Hc & Hl2 & Hp2); try lia;
        [exact Hp1|].
      exists y. split; [exact Hc|]. split; [lia | exact Hp2]. }
    destruct (Nat.eqb mn 0); simpl; [|exact Hd].
    destruct greedy.
    + destruct (m xr d) as [z'|] eqn:Em.
      * intros E; inversion E; subst z'. apply Hd. reflexivity.
      * intros H _ _ Hp. exists x. auto.
    + destruct (c x) as [z'|] eqn:Ec.
      * intros E _ _ Hp; inversion E; subst z'. exists x. auto.
      * exact Hd.
Qed.

Lemma matcher_couples (r : regex) (i j : nat) :
  pairs r (S i) (S j) = true ->
  forall x c z,
    matcher r x c = Some z ->
    i < List.length (captures x) -> j < List.length (captures x) ->
    paired i j (captures x) ->
    exists y, c y = Some z
      /\ List.length (captures y) = List.length (captures x)
      /\ paired i j (captures y).
Proof.
  induction r as [ | p | r1 IH1 r2 IH2 | r1 IH1 r2 IH2 | r IH mn mx greedy
                 | g r IH | p | | ]; intros Hp; cbn [pairs] in Hp;
    apply orb_true_iff in Hp; destruct Hp as [Hp|Hp];
    try (apply couples_easy; exact Hp); try discriminate Hp.
  - apply andb_true_iff in Hp. destruct Hp as [H1 H2].
    intros x c z H Hi Hj Hx. cbn [matcher] in H.
    destruct (IH1 H1 x _ z H Hi Hj Hx) as (y1 & Hc1 & Hl1 & Hp1).
    destruct (IH2 H2 y1 c z Hc1) as (y & Hc & Hl & Hy); try lia; [exact Hp1|].
    exists y. split; [exact Hc|]. split; [lia | exact Hy].
  - apply andb_true_iff in Hp. destruct Hp as [H1 H2].
    intros x c z H Hi Hj Hx. cbn [matcher] in H.
    destruct (matcher r1 x c) as [z'|] eqn:E1.
    + inversion H; subst z'. apply (IH1 H1 x c z E1 Hi Hj Hx).
    + apply (IH2 H2 x c z H Hi Hj Hx).
  - apply andb_true_iff in Hp. destruct Hp as [H1 H2].
    intros x c z H. cbn [matcher] in H.
    refine (repeatMatcher_couples (matcher r) (parens_of r) greedy i j
              (IH H2) _ _ mn mx x c z H).
    apply Bool.eqb_prop in H1. unfold group_free in H1.
    destruct (existsb (Nat.eqb (S i)) (parens_of r)),
      (existsb (Nat.eqb (S j)) (parens_of r)); simpl in H1; congruence.
  - apply andb_true_iff in Hp. destruct Hp as [Hp H3].
    apply andb_true_iff in Hp. destruct Hp as [H1 H2].
    apply negb_true_iff, Nat.eqb_neq in H1.
    apply negb_true_iff, Nat.eqb_neq in H2.
    intros x c z H Hi Hj Hx. cbn [matcher] in H.
    destruct (IH H3 x _ z H Hi Hj Hx) as (y & Hc & Hl & Hy).
    eexists. split; [exact Hc|]. cbn [captures].
    split; [rewrite set_capture_length; exact Hl|].
    unfold paired. rewrite !set_capture_other by assumption. exact Hy.
Qed.

Lemma exec_all_paired (re : RegExp) (i j : nat) (fuel : nat) :
  pairs (tree re) (S i) (S j) = true -> i < ngroups re -> j < ngroups re ->
  forall cur, Forall (fun m => paired i j (groups m)) (exec_all fuel re cur).
Proof.
  intros Hp Hi Hj.
  assert (Ha : forall cur m, match_at re cur = Some m -> paired i j (groups m)).
  { intros cur m. unfold match_at.
    destruct (matcher (tree re)
                (mkState (seen cur) (rest cur) (at_index cur)
                   (repeat None (ngroups re))) Some) as [y|] eqn:E;
      [|discriminate].
    intros H; inversion H; subst; clear H. simpl.
    destruct (matcher_couples (tree re) i j Hp _ _ _ E) as (y' & Hy & _ & Hy').
    - simpl. rewrite repeat_length. exact Hi.
    - simpl. rewrite repeat_length. exact Hj.
    - unfold paired. simpl. rewrite !nth_repeat_none. tauto.
    - inversion Hy; subst y'. exact Hy'. }
  assert (Hs : forall rs sn k m,
             exec_scan re sn rs k = Some m -> paired i j (groups m)).
  { induction rs as [|a rs IH]; intros sn k m; simpl.
    - destruct (match_at re (mkCursor sn [] k)) as [m'|] eqn:E; [|discriminate].
      intros H; inversion H; subst m'. apply (Ha _ _ E).
    - destruct (match_at re (mkCursor sn (a :: rs) k)) as [m'|] eqn:E.
      + intros H; inversion H; subst m'. apply (Ha _ _ E).
      + apply IH. }
  induction fuel as [|fuel IH]; intros cur; simpl; [constructor|].
  destruct (exec re cur) as [m|] eqn:E; [|constructor].
  constructor; [|apply IH]. unfold exec in E. apply (Hs _ _ _ _ E).
Qed.

Lemma court_year_pairs :
  pairs (tree fullCitation) 6 7 = true /\ pairs (tree shortCitation) 5 6 = true.
Proof. vm_compute. split; reflexivity. Qed.

Lemma drop_spaces_sub (a : ascii) (l : list ascii) :
  In a (Js.drop_spaces l) -> In a l.
Proof.
  induction l as [|b l IH]; simpl; [auto|].
  destruct (Js.is_space b); [right; apply IH; assumption | auto].
Qed.

Lemma trim_sub (a : ascii) (s : string) :
  In a (Js.chars (Js.trim s)) -> In a (Js.chars s).
Proof.
  unfold Js.trim, Js.trim_chars. rewrite chars_str. intros H.
  apply (proj2 (in_rev _ a)), drop_spaces_sub in H.
  apply (proj2 (in_rev _ a)), drop_spaces_sub in H. exact H.
Qed.

Lemma ci_not_paren (b : ascii) :
  negb (eqc ")" (Js.canon b) || eqc ")" (Js.lower_ascii b) || eqc ")" b)%bool
  = true -> b <> ")"%char.
Proof.
  destruct b as [[] [] [] [] [] [] [] []]; vm_compute; intros H E;
    try discriminate H; discriminate E.
Qed.

Lemma court_group (re : RegExp) (m : MatchResult) (i : nat) (t : string) :
  caps_ok (group_property re) (groups m) ->
  group_bodies (tree re) (S i) = [lazy_plus (ncls true (eqc ")"))] ->
  nth i (groups m) None = Some t ->
  ~ In ")"%char (Js.chars (Js.trim t)).
Proof.
  intros Hc Hb E Hin. apply trim_sub in Hin.
  destruct (Hc i t E) as (r' & s & Hr & HL & Et).
  rewrite Hb in Hr. destruct Hr as [Er|[]]. subst r' t.
  rewrite chars_str in Hin.
  apply lang_repeat_chars in HL. destruct HL as [HL _].
  rewrite Forall_forall in HL.
  apply (ci_not_paren _ (HL _ Hin)). reflexivity.
Qed.

Lemma court_groups :
  group_bodies (tree fullCitation) 6 = [lazy_plus (ncls true (eqc ")"))]
  /\ group_bodies (tree shortCitation) 5 = [lazy_plus (ncls true (eqc ")"))].
Proof.
  rewrite full_bodies by lia. rewrite short_bodies, !core_groups.
  split; reflexivity.
Qed.

(** X20. Court and year come together: a citation returned has a year
    exactly when it has a court, since both are captured by the same
    optional parenthetical; and the court never contains a closing
    parenthesis. *)
Theorem X20_court_and_year_together (text : string) :
  Forall (fun c =>
            (year c = None <-> court c = None)
            /\ (forall k, court c = Some k -> ~ In ")"%char (Js.chars k)))
    (extractCitations text).
Proof.
  apply (Permutation_Forall (Permutation_sym (extract_perm text))).
  destruct court_year_pairs as [Pf Ps]. destruct court_groups as [Bf Bs].
  pose proof (exec_all_paired fullCitation 5 6 (rounds text) Pf
                ltac:(simpl; lia) ltac:(simpl; lia) (start_of text)) as Cf.
  pose proof (exec_all_paired shortCitation 4 5 (rounds text) Ps
                ltac:(simpl; lia) ltac:(simpl; lia) (start_of text)) as Cs.
  pose proof (exec_all_sound fullCitation text (rounds text) _
                (start_at_text text)) as Hf.
  pose proof (exec_all_sound shortCitation text (rounds text) _
                (start_at_text text)) as Hs.
  rewrite Forall_forall in Cf, Cs, Hf, Hs.
  eapply Forall_impl; [|apply retained_from_matches]. simpl.
  intros c [(m & Hin & Ec)|(m & Hin & Ec)]; subst c;
    cbn [year court fullRecord shortRecord group].
  - destruct (Hf m Hin) as (s & _ & _ & Hc & _).
    specialize (Cf m Hin). unfold paired in Cf. split.
    + rewrite <- Cf. destruct (nth 5 (groups m) None); simpl;
        split; congruence.
    + intros k E. destruct (nth 5 (groups m) None) as [t|] eqn:Et;
        inversion E. apply (court_group fullCitation m 5 t Hc Bf Et).
  - destruct (Hs m Hin) as (s & _ & _ & Hc & _).
    specialize (Cs m Hin). unfold paired in Cs. split.
    + rewrite <- Cs. destruct (nth 4 (groups m) None); simpl;
        split; congruence.
    + intros k E. destruct (nth 4 (groups m) None) as [t|] eqn:Et;
        inversion E. apply (court_group shortCitation m 4 t Hc Bs Et).
Qed.

(* ===================================================================== *)
(** * The verifier when the body of a response is not checked *)
(* ===================================================================== *)

(** ** Agreement with the embedding on the declared interface *)

Lemma unchecked_lookup (fetch : list Request -> Request -> FetchOutcome)
    (c : Citation) (log : list Request) :
  Unchecked.lookup (fun l r => Unchecked.Declared (fetch l r)) c log
  = (match fst (lookup fetch c log) with
     | Some sr => Unchecked.Body sr
     | None => Unchecked.Null
     end,
     snd (lookup fetch c log)).
Proof.
  unfold Unchecked.lookup, lookup, Unchecked.searchByCitation, searchByCitation,
    Unchecked.searchByComponents, searchByComponents, Unchecked.rateLimitedFetch,
    rateLimitedFetch, bind, ret, Unchecked.parsed.
  destruct (parsed (fetch log (buildSearchQuery c))) as [sr|]; simpl.
  - destruct (count sr =? 0)%Z; reflexivity.
  - reflexivity.
Qed.

(** On replies of the declared interface [verifyCitation] never throws,
    and returns what the embedding on that interface returns. *)
Lemma unchecked_verifyCitation (fetch : list Request -> Request -> FetchOutcome)
    (currentYear : Z) (c : Citation) (log : list Request) :
  Unchecked.verifyCitation (fun l r => Unchecked.Declared (fetch l r))
    currentYear c log
  = (Unchecked.Resolved (fst (verifyCitation fetch currentYear c log)),
     snd (verifyCitation fetch currentYear c log)).
Proof.
  unfold Unchecked.verifyCitation, verifyCitation.
  destruct (valid (validateCitationFormat currentYear c)); simpl;
    [|reflexivity].
  unfold bind. rewrite unchecked_lookup.
  destruct (lookup fetch c log) as [[sr|] log1]; simpl; [|reflexivity].
  destruct (count sr =? 0)%Z; reflexivity.
Qed.

Lemma unchecked_verifyCitations (fetch : list Request -> Request -> FetchOutcome)
    (currentYear : Z) (cs : list Citation) :
  forall log,
    Unchecked.verifyCitations (fun l r => Unchecked.Declared (fetch l r))
      currentYear cs log
    = (Unchecked.Resolved (fst (verifyCitations fetch currentYear cs log)),
       snd (verifyCitations fetch currentYear cs log)).
Proof.
  induction cs as [|c cs IH]; intros log; simpl; [reflexivity|].
  unfold bind at 1 3 5. rewrite unchecked_verifyCitation.
  destruct (verifyCitation fetch currentYear c log) as [r log1]. simpl.
  unfold bind. rewrite IH.
  destruct (verifyCitations fetch currentYear cs log1) as [rs log2].
  reflexivity.
Qed.

(** ** One verification *)




Lemma unchecked_stateless (fetch : list Request -> Request -> Unchecked.Reply)
    (currentYear : Z) (c : Citation) (log log' : list Request) :
  (forall l l' r, fetch l r = fetch l' r) ->
  fst (Unchecked.verifyCitation fetch currentYear c log)
  = fst (Unchecked.verifyCitation fetch currentYear c log').
Proof.
  intros Hs.
  assert (Hl : fst (Unchecked.lookup fetch c log)
               = fst (Unchecked.lookup fetch c log')).
  { unfold Unchecked.lookup, Unchecked.searchByCitation,
      Unchecked.searchByComponents, Unchecked.rateLimitedFetch, bind, ret,
      Js.push.
    rewrite (Hs log log' (buildSearchQuery c)).
    destruct (Unchecked.noResults
                (Unchecked.parsed (fetch log' (buildSearchQuery c)))); simpl;
      [|reflexivity].
    rewrite (Hs (log ++ [buildSearchQuery c])%list
               (log' ++ [buildSearchQuery c])%list). reflexivity. }
  unfold Unchecked.verifyCitation.
  destruct (valid (validateCitationFormat currentYear c)); simpl;
    [|reflexivity].
  unfold bind.
  destruct (Unchecked.lookup fetch c log) as [f1 l1].
  destruct (Unchecked.lookup fetch c log') as [f2 l2].
  simpl in Hl. subst f2.
  destruct f1 as [|sr|]; simpl; [reflexivity | | reflexivity].
  destruct (count sr =? 0)%Z; reflexivity.
Qed.

(** ** A batch *)




(** X16. With a service that answers a request the same way whatever
    came before, a batch settles as its citations verified one by one
    do: it throws exactly when the verification of one of its citations
    alone throws, and otherwise returns, citation by citation, the result
    of verifying that citation alone. *)
Theorem X16_batch_of_memoryless_service
    (fetch : list Request -> Request -> Unchecked.Reply) (currentYear : Z)
    (cs : list Citation) (log : list Request) :
  (forall l l' r, fetch l r = fetch l' r) ->
  fst (Unchecked.verifyCitations fetch currentYear cs log)
  = Unchecked.collect
      (map (fun c => fst (Unchecked.verifyCitation fetch currentYear c [])) cs).
Proof.
  intros Hs. revert log. induction cs as [|c cs IH]; intros log;
    [reflexivity|].
  cbn [Unchecked.verifyCitations map Unchecked.collect]. unfold bind.
  rewrite <- (unchecked_stateless fetch currentYear c log [] Hs).
  destruct (Unchecked.verifyCitation fetch currentYear c log) as [[r|] log1];
    simpl; [|reflexivity].
  rewrite <- (IH log1).
  destruct (Unchecked.verifyCitations fetch currentYear cs log1) as [[rs|] log2];
    reflexivity.
Qed.

(** With a service that answers 200 and a body without [results], a
    batch of a valid citation and one the validator rejects throws,
    although the second alone gets its [format_error]. *)
Lemma X16_batch_of_memoryless_service_witness :
  fst (Unchecked.verifyCitations svc_unshaped this_year [roe; long_page] [])
  = Unchecked.collect
      (map (fun c => fst (Unchecked.verifyCitation svc_unshaped this_year c []))
         [roe; long_page])
  /\ fst (Unchecked.verifyCitations svc_unshaped this_year [roe; long_page] [])
     = Unchecked.Threw
  /\ (exists r, fst (Unchecked.verifyCitation svc_unshaped this_year long_page [])
                = Unchecked.Resolved r /\ status r = format_error).
Proof.
  split; [|split].
  - apply (X16_batch_of_memoryless_service svc_unshaped this_year
             [roe; long_page] []).
    intros l l' r. reflexivity.
  - vm_compute. reflexivity.
  - eexists. split; [vm_compute; reflexivity | reflexivity].
Defined.
